(** * MaSteel: the hidden-navigation link-discovery engine

    A shallow embedding of [exploreNavigation.ts] (the [explore-navigation]
    tool): the link collector [collectLinks], the snapshot differ
    [diffLinks], the interstitial dismisser [dismissCookieBanners] and the
    phase orchestrator [execute].

    The browser is an external collaborator.  It is modelled as a
    deterministic machine over an abstract world [W] (class [Browser]); every
    Playwright call either returns a value or throws, and may change the
    world.  The orchestrator's mutable locals ([sections], [totalLinksFound],
    [errors]) are threaded through a small state-and-exception monad, and
    every browser call is appended to a trace so that statements about what
    the engine did to the page can be made. *)

From Stdlib Require Import String Ascii List ZArith Lia Bool Arith.
From Stdlib Require Import DecimalString.
Import ListNotations.

Local Open Scope string_scope.
Local Open Scope list_scope.
Local Open Scope Z_scope.

(* ================================================================== *)
(** * Data model *)

(** [interface LinkInfo { url: string; text: string }] *)
Record LinkInfo := mkLink { url : string; text : string }.

(** [interface Section { label: string; links: LinkInfo[] }]
    ([Section] is reserved in Rocq, hence the name.) *)
Record NavSection := mkSection { label : string; links : list LinkInfo }.

(** The [{ href, text }] records returned by the in-page query. *)
Record RawAnchor := mkRaw { href : string; rawText : string }.

Definition DEFAULT_MAX_LINKS : Z := 50.

(** The object returned by [execute]:
    [{ url, totalLinksFound, sections, errors }]. *)
Module Report.
Record t := mk {
  url : string;
  totalLinksFound : Z;
  sections : list NavSection;
  errors : list string }.
End Report.

(* ================================================================== *)
(** * JavaScript built-ins used by the tool *)

(** [Array.prototype.slice(0, end)] for an integer [end]: a negative [end]
    counts from the back of the array. *)
Definition slice0 {A} (e : Z) (l : list A) : list A :=
  let len := Z.of_nat (length l) in
  let k := if e <? 0 then Z.max (len + e) 0 else Z.min e len in
  firstn (Z.to_nat k) l.

(** [String.prototype.startsWith]. *)
Definition startsWith (s p : string) : bool := String.prefix p s.

(** [s.slice(0, n)] on a string, for a non-negative literal [n]. *)
Definition strSlice0 (n : nat) (s : string) : string := substring 0 n s.

(** White space as matched by [\s] and removed by [trim].  A character of
    a model string stands for one UTF-16 code unit below 256; of these,
    JavaScript counts as white space or line terminator U+0009 to U+000D,
    U+0020 and the no-break space U+00A0.  (The others, U+FEFF, U+2028,
    U+2029 and the class Zs above U+00FF, are code units that model strings
    do not hold.) *)
Definition isSpace (c : ascii) : bool :=
  let n := nat_of_ascii c in
  ((9 <=? n)%nat && (n <=? 13)%nat) || (n =? 32)%nat || (n =? 160)%nat.

Fixpoint dropSpaces (l : list ascii) : list ascii :=
  match l with
  | [] => []
  | c :: r => if isSpace c then dropSpaces r else l
  end.

(** [String.prototype.trim]. *)
Definition trim (s : string) : string :=
  string_of_list_ascii
    (rev (dropSpaces (rev (dropSpaces (list_ascii_of_string s))))).

Fixpoint collapseFrom (inRun : bool) (l : list ascii) : list ascii :=
  match l with
  | [] => []
  | c :: r =>
      if isSpace c
      then (if inRun then collapseFrom true r
            else " "%char :: collapseFrom true r)
      else c :: collapseFrom false r
  end.

(** [s.replace(/\s+/g, " ")]. *)
Definition collapseSpaces (s : string) : string :=
  string_of_list_ascii (collapseFrom false (list_ascii_of_string s)).

(** CSS selectors contain double quotes; [q s] is [s] between two of them
    and [css] glues the pieces of a selector together. *)
Definition dquote : string := String (ascii_of_nat 34) EmptyString.
Definition q (s : string) : string :=
  String.append dquote (String.append s dquote).
Definition css (parts : list string) : string :=
  fold_right String.append EmptyString parts.

(** Template-literal rendering of a loop index. *)
Definition showNat (n : nat) : string :=
  NilZero.string_of_uint (Nat.to_uint n).

(** [Map<string, LinkInfo>]: keys are unique and iteration follows insertion
    order, so the map is an association list in insertion order. *)
Module JsMap.
Definition t := list (string * LinkInfo).

Definition empty : t := [].

Definition has (m : t) (k : string) : bool :=
  existsb (fun e => String.eqb (fst e) k) m.

(** [m.set(k, v)]: an existing key keeps its position. *)
Fixpoint set (m : t) (k : string) (v : LinkInfo) : t :=
  match m with
  | [] => [(k, v)]
  | (k', v') :: r =>
      if String.eqb k' k then (k, v) :: r else (k', v') :: set r k v
  end.

Definition keys (m : t) : list string := map fst m.
Definition values (m : t) : list LinkInfo := map snd m.
Definition size (m : t) : Z := Z.of_nat (length m).

(** A well-formed link map: distinct keys, and every entry stored under
    its own URL. *)
Definition wf (m : t) : Prop :=
  NoDup (keys m) /\ Forall (fun e => url (snd e) = fst e) m.
End JsMap.

(* ================================================================== *)
(** * Link collector (pure part) and snapshot differ *)

(** The guard of lines 33, 140 and 274. *)
Definition skipHref (h : string) : bool :=
  startsWith h "javascript:" || startsWith h "mailto:" ||
  startsWith h "tel:" || String.eqb h "#".

Section Collector.
(** [new URL(href, base).href]; [None] when the constructor throws. *)
Variable resolveURL : string -> string -> option string.

(** One turn of the loop at lines 32-42 (and, verbatim, 139-147). *)
Definition addLink (baseUrl : string) (m : JsMap.t) (a : RawAnchor)
  : JsMap.t :=
  if skipHref (href a) then m
  else match resolveURL (href a) baseUrl with
       | Some resolved =>
           if negb (JsMap.has m resolved)
           then JsMap.set m resolved
                  (mkLink resolved (strSlice0 120 (rawText a)))
           else m
       | None => m
       end.

(** Lines 31-43: the map built from the raw query result. *)
Definition linksOf (baseUrl : string) (raw : list RawAnchor) : JsMap.t :=
  fold_left (addLink baseUrl) raw JsMap.empty.

(** One turn of the footer loop, lines 273-281: a link already in
    [primaryNavLinks] is not added. *)
Definition addFooterLink (baseUrl : string) (primaryNavLinks : JsMap.t)
    (m : JsMap.t) (a : RawAnchor) : JsMap.t :=
  if skipHref (href a) then m
  else match resolveURL (href a) baseUrl with
       | Some resolved =>
           if negb (JsMap.has m resolved) &&
              negb (JsMap.has primaryNavLinks resolved)
           then JsMap.set m resolved
                  (mkLink resolved (strSlice0 120 (rawText a)))
           else m
       | None => m
       end.
End Collector.

(** Lines 49-57: [newLinks] is grown by [push] while iterating [after]. *)
Definition diffLinks (before after : JsMap.t) : list LinkInfo :=
  fold_left
    (fun newLinks (e : string * LinkInfo) =>
       let (u, info) := e in
       if negb (JsMap.has before u) then newLinks ++ [info] else newLinks)
    after [].

(** The differ as the specification words it: the entries of [after] whose
    key is absent from [before], in [after]'s order. *)
Definition diffSpec (before after : JsMap.t) : list LinkInfo :=
  map snd (filter (fun e => negb (JsMap.has before (fst e))) after).

(* ================================================================== *)
(** * The browsing session *)

(** What an [await]ed call produces: a value, or a thrown/rejected error
    (kept as its message, which is all the tool reads from it). *)
Inductive outcome (A : Type) : Type :=
| Ok (a : A)
| Throw (msg : string).
Arguments Ok {A} a.
Arguments Throw {A} msg.

(** The Playwright calls made by the tool.  [W] is the state of the remote
    browser; each call may change it.  Selectors and explicit time-outs are
    passed as written in the source.
    - [getPage]: [getPage()] of [session.ts];
    - [goto]: [page.goto(url, ...)], returning the response status, if any;
    - [evaluateAnchors sel]: the [page.evaluate] callback that maps
      [querySelectorAll(sel)] to [{href, text}] records;
    - [scrollToBottom]: the [page.evaluate] call of line 257;
    - [locatorCount], [textContent], [hover]: [page.locator(sel)] with
      [count()] and [nth(i)];
    - [isVisible], [click]: on [page.locator(sel).first()]. *)
Class Browser (W : Type) := {
  getPage : W -> W * outcome unit;
  goto : string -> W -> W * outcome (option Z);
  waitForTimeout : Z -> W -> W * outcome unit;
  evaluateAnchors : string -> W -> W * outcome (list RawAnchor);
  scrollToBottom : W -> W * outcome unit;
  locatorCount : string -> W -> W * outcome nat;
  textContent : string -> nat -> Z -> W -> W * outcome (option string);
  hover : string -> nat -> Z -> W -> W * outcome unit;
  isVisible : string -> Z -> W -> W * outcome bool;
  click : string -> Z -> W -> W * outcome unit;
  close : W -> W * outcome unit
}.

(** The calls as they appear in a trace. *)
Inductive Call :=
| CGetPage
| CGoto (u : string)
| CWait (ms : Z)
| CEvaluate (sel : string)
| CScroll
| CCount (sel : string)
| CTextContent (sel : string) (i : nat)
| CHover (sel : string) (i : nat)
| CIsVisible (sel : string) (timeout : Z)
| CClick (sel : string) (timeout : Z)
| CClose.

Inductive Reply :=
| RThrow
| RDone
| RBool (b : bool).

Record Event := mkEvent { evCall : Call; evReply : Reply }.

(** The mutable locals of [execute] (lines 102-104). *)
Record Vars := mkVars {
  sections : list NavSection;
  totalLinksFound : Z;
  errors : list string }.

Record State (W : Type) := mkState {
  vars : Vars;
  world : W;
  trace : list Event }.
Arguments mkState {W} vars world trace.
Arguments vars {W} s.
Arguments world {W} s.
Arguments trace {W} s.

(** Statement completion inside a loop body. *)
Inductive completion := Normal | DoContinue | DoBreak.

Section Engine.
Context {W : Type} {B : Browser W}.
Variable resolveURL : string -> string -> option string.

(** ** The monad: state plus exceptions.  A throw keeps the state reached
    so far, as JavaScript keeps the mutated locals. *)
Definition M (A : Type) : Type := State W -> State W * outcome A.

Definition ret {A} (a : A) : M A := fun s => (s, Ok a).

Definition bind {A C} (m : M A) (k : A -> M C) : M C :=
  fun s => match m s with
           | (s', Ok a) => k a s'
           | (s', Throw e) => (s', Throw e)
           end.

(** [try { m } catch (err) { h err }] *)
Definition tryCatch {A} (m : M A) (h : string -> M A) : M A :=
  fun s => match m s with
           | (s', Ok a) => (s', Ok a)
           | (s', Throw e) => h e s'
           end.

(** [try { m } finally { f }]: an error thrown by [f] replaces the
    completion of [m]. *)
Definition tryFinally {A} (m : M A) (f : M unit) : M A :=
  fun s => match m s with
           | (s', r) => match f s' with
                        | (s'', Ok _) => (s'', r)
                        | (s'', Throw e) => (s'', Throw e)
                        end
           end.

Notation "x <- m ;; k" := (bind m (fun x => k))
  (at level 61, m at next level, right associativity).
Notation "m ;; k" := (bind m (fun _ => k))
  (at level 61, right associativity).

(** [for (const x of l) body]: [continue] and falling off the end of the
    body go to the next element, [break] leaves the loop. *)
Fixpoint forOf {A} (l : list A) (body : A -> M completion) : M unit :=
  match l with
  | [] => ret tt
  | x :: r =>
      c <- body x ;;
      match c with
      | DoBreak => ret tt
      | _ => forOf r body
      end
  end.

(** A [for ... of] loop whose body updates one local map. *)
Fixpoint forAcc {A} (l : list A) (acc : JsMap.t)
    (body : A -> JsMap.t -> M JsMap.t) : M JsMap.t :=
  match l with
  | [] => ret acc
  | x :: r => acc' <- body x acc ;; forAcc r acc' body
  end.

(** A browser call, recorded in the trace. *)
Definition call {A} (c : Call) (reply : A -> Reply)
    (op : W -> W * outcome A) : M A :=
  fun s =>
    let (w', r) := op (world s) in
    let rep := match r with Ok a => reply a | Throw _ => RThrow end in
    (mkState (vars s) w' (trace s ++ [mkEvent c rep]), r).

Definition done {A} (_ : A) : Reply := RDone.

Definition getPageM : M unit := call CGetPage done getPage.
Definition gotoM (u : string) : M (option Z) := call (CGoto u) done (goto u).
Definition waitM (ms : Z) : M unit := call (CWait ms) done (waitForTimeout ms).
Definition evaluateM (sel : string) : M (list RawAnchor) :=
  call (CEvaluate sel) done (evaluateAnchors sel).
Definition scrollM : M unit := call CScroll done scrollToBottom.
Definition countM (sel : string) : M nat :=
  call (CCount sel) done (locatorCount sel).
Definition textContentM (sel : string) (i : nat) (t : Z)
  : M (option string) :=
  call (CTextContent sel i) done (textContent sel i t).
Definition hoverM (sel : string) (i : nat) (t : Z) : M unit :=
  call (CHover sel i) done (hover sel i t).
Definition isVisibleM (sel : string) (t : Z) : M bool :=
  call (CIsVisible sel t) RBool (isVisible sel t).
Definition clickM (sel : string) (t : Z) : M unit :=
  call (CClick sel t) done (click sel t).
Definition closeM : M unit := call CClose done close.

(** Reads and writes of the locals. *)
Definition getTotal : M Z := fun s => (s, Ok (totalLinksFound (vars s))).

Definition pushSection (sec : NavSection) : M unit :=
  fun s =>
    (mkState (mkVars (sections (vars s) ++ [sec])
                     (totalLinksFound (vars s)) (errors (vars s)))
             (world s) (trace s), Ok tt).

Definition addTotal (n : Z) : M unit :=
  fun s =>
    (mkState (mkVars (sections (vars s)) (totalLinksFound (vars s) + n)
                     (errors (vars s)))
             (world s) (trace s), Ok tt).

Definition pushError (msg : string) : M unit :=
  fun s =>
    (mkState (mkVars (sections (vars s)) (totalLinksFound (vars s))
                     (errors (vars s) ++ [msg]))
             (world s) (trace s), Ok tt).

Definition lengthZ {A} (l : list A) : Z := Z.of_nat (length l).

(** ** [collectLinks] (lines 22-44) *)
Definition collectLinks (baseUrl : string) : M JsMap.t :=
  raw <- evaluateM "a[href]" ;;
  ret (linksOf resolveURL baseUrl raw).

(** ** [dismissCookieBanners] (lines 62-88) *)
Definition cookieSelectors : list string :=
  [ css ["button:has-text("; q "Accept"; ")"];
    css ["button:has-text("; q "Accept All"; ")"];
    css ["button:has-text("; q "Accept all"; ")"];
    css ["button:has-text("; q "Got it"; ")"];
    css ["button:has-text("; q "I agree"; ")"];
    css ["button:has-text("; q "OK"; ")"];
    css ["[id*="; q "cookie"; "] button"];
    css ["[class*="; q "cookie"; "] button"];
    css ["[id*="; q "consent"; "] button"];
    css ["[class*="; q "consent"; "] button"] ].

Definition dismissCookieBanners : M unit :=
  forOf cookieSelectors (fun sel =>
    tryCatch
      (v <- isVisibleM sel 500 ;;
       if (v : bool)
       then clickM sel 1000 ;; waitM 500 ;; ret DoBreak
       else ret Normal)
      (fun _ => ret Normal)).

(** ** [execute] (lines 99-306) *)

Definition navSelectors : list string :=
  [ "nav a";
    css ["[role="; q "navigation"; "] a"];
    "header a";
    "header ul a";
    ".navbar a";
    ".nav a";
    css ["[class*="; q "nav"; "] a"] ].

(** Lines 128-149: one selector that fails to evaluate is skipped. *)
Definition scanPrimaryNav (u : string) : M JsMap.t :=
  forAcc navSelectors JsMap.empty (fun sel primaryNavLinks =>
    tryCatch
      (raw <- evaluateM sel ;;
       ret (fold_left (addLink resolveURL u) raw primaryNavLinks))
      (fun _ => ret primaryNavLinks)).

(** Lines 151-155. *)
Definition emitPrimaryNav (maxLinks : Z) (primaryNavLinks : JsMap.t)
  : M unit :=
  if 0 <? JsMap.size primaryNavLinks
  then
    let links := slice0 maxLinks (JsMap.values primaryNavLinks) in
    pushSection (mkSection "Primary Nav" links) ;;
    addTotal (lengthZ links)
  else ret tt.

Definition hoverTargetSelectors : list string :=
  [ "nav > ul > li";
    "nav > div > ul > li";
    css ["[role="; q "navigation"; "] > ul > li"];
    "header nav li";
    css [".navbar li:has(ul), .navbar li:has([class*="; q "dropdown"; "])"];
    css ["[class*="; q "nav"; "] > ul > li"];
    "nav button";
    "header button" ].

(** Line 180: the label of a hovered item. *)
Definition itemLabel (t : option string) (i : nat) : string :=
  let shown :=
    match t with
    | Some s => strSlice0 50 (collapseSpaces (trim s))
    | None => EmptyString
    end in
  if String.eqb shown EmptyString
  then String.append "Item " (showNat i)
  else shown.

(** Lines 189-194 and 235-240: a non-empty diff becomes a section cut to
    the remaining budget. *)
Definition emitRevealed (maxLinks : Z) (lbl : string)
    (revealed : list LinkInfo) : M unit :=
  if 0 <? lengthZ revealed
  then
    total <- getTotal ;;
    let remaining := maxLinks - total in
    let links := slice0 remaining revealed in
    pushSection (mkSection lbl links) ;;
    addTotal (lengthZ links)
  else ret tt.

(** Lines 176-197: one turn of the inner hover loop. *)
Definition hoverItem (u : string) (maxLinks : Z) (sel : string) (i : nat)
  : M completion :=
  total <- getTotal ;;
  if maxLinks <=? total then ret DoBreak
  else
    tryCatch
      (t <- textContentM sel i 1000 ;;
       let itemText := itemLabel t i in
       beforeHover <- collectLinks u ;;
       hoverM sel i 2000 ;;
       waitM 800 ;;
       afterHover <- collectLinks u ;;
       let revealed := diffLinks beforeHover afterHover in
       emitRevealed maxLinks (String.append "Dropdown: " itemText) revealed)
      (fun _ => ret tt) ;;
    ret Normal.

(** Lines 170-202: one turn of the outer hover loop.  The [continue] of
    line 173 also skips the budget test of line 202. *)
Definition hoverScope (u : string) (maxLinks : Z) (sel : string)
  : M completion :=
  c <- tryCatch
         (count <- countM sel ;;
          if (count =? 0)%nat then ret DoContinue
          else
            forOf (seq 0 (Nat.min count 15)) (hoverItem u maxLinks sel) ;;
            ret Normal)
         (fun _ => ret Normal) ;;
  match c with
  | Normal =>
      total <- getTotal ;;
      if maxLinks <=? total then ret DoBreak else ret Normal
  | _ => ret c
  end.

Definition hoverPhase (u : string) (maxLinks : Z) : M unit :=
  forOf hoverTargetSelectors (hoverScope u maxLinks).

Definition hamburgerSelectors : list string :=
  [ css ["button[aria-label*="; q "menu"; " i]"];
    css ["button[aria-label*="; q "Menu"; " i]"];
    css ["button[aria-label*="; q "navigation"; " i]"];
    css ["[class*="; q "hamburger"; "]"];
    css ["[class*="; q "menu-toggle"; "]"];
    css ["[class*="; q "mobile-menu"; "]"];
    css ["[class*="; q "nav-toggle"; "]"];
    "button:has(.hamburger)";
    css ["button[class*="; q "burger"; "]"];
    css ["[aria-controls*="; q "nav"; "]"];
    css ["[aria-controls*="; q "menu"; "]"] ].

(** Lines 242-246: the best-effort close. *)
Definition closeToggle (sel : string) : M unit :=
  tryCatch (clickM sel 1000 ;; waitM 500) (fun _ => ret tt).

(** Lines 221-251: one turn of the hamburger loop. *)
Definition hamburgerStep (u : string) (maxLinks : Z) (sel : string)
  : M completion :=
  total <- getTotal ;;
  if maxLinks <=? total then ret DoBreak
  else
    tryCatch
      (v <- isVisibleM sel 1000 ;;
       if negb v then ret DoContinue
       else
         beforeClick <- collectLinks u ;;
         clickM sel 3000 ;;
         waitM 1500 ;;
         afterClick <- collectLinks u ;;
         let revealed := diffLinks beforeClick afterClick in
         emitRevealed maxLinks "Mobile/Hamburger Menu" revealed ;;
         closeToggle sel ;;
         ret DoBreak)
      (fun _ => ret Normal).

Definition hamburgerPhase (u : string) (maxLinks : Z) : M unit :=
  forOf hamburgerSelectors (hamburgerStep u maxLinks).

Definition footerSelectors : list string :=
  [ "footer a";
    css ["[role="; q "contentinfo"; "] a"];
    css ["[class*="; q "footer"; "] a"] ].

(** Lines 260-283. *)
Definition scanFooter (u : string) (primaryNavLinks : JsMap.t)
  : M JsMap.t :=
  forAcc footerSelectors JsMap.empty (fun sel footerLinks =>
    tryCatch
      (raw <- evaluateM sel ;;
       ret (fold_left (addFooterLink resolveURL u primaryNavLinks)
              raw footerLinks))
      (fun _ => ret footerLinks)).

(** Lines 285-290. *)
Definition emitFooter (maxLinks : Z) (footerLinks : JsMap.t) : M unit :=
  if 0 <? JsMap.size footerLinks
  then
    total <- getTotal ;;
    let remaining := maxLinks - total in
    let links := slice0 remaining (JsMap.values footerLinks) in
    pushSection (mkSection "Footer" links) ;;
    addTotal (lengthZ links)
  else ret tt.

(** Lines 255-294. *)
Definition footerPhase (u : string) (maxLinks : Z)
    (primaryNavLinks : JsMap.t) : M unit :=
  total <- getTotal ;;
  if total <? maxLinks
  then
    tryCatch
      (scrollM ;;
       waitM 1500 ;;
       footerLinks <- scanFooter u primaryNavLinks ;;
       emitFooter maxLinks footerLinks)
      (fun msg => pushError (String.append "Footer scroll failed: " msg))
  else ret tt.

(** Line 297 (and 302): the report is read off the locals. *)
Definition report (u : string) : M Report.t :=
  fun s =>
    (s, Ok (Report.mk u (totalLinksFound (vars s)) (sections (vars s))
              (errors (vars s)))).

(** What runs after the primary navigation scan (lines 151-294). *)
Definition phases (u : string) (maxLinks : Z) (primaryNavLinks : JsMap.t)
  : M unit :=
  emitPrimaryNav maxLinks primaryNavLinks ;;
  hoverPhase u maxLinks ;;
  hamburgerPhase u maxLinks ;;
  footerPhase u maxLinks primaryNavLinks.

(** Lines 107-149: load the page, dismiss banners, take the baseline (which
    is not used afterwards) and scan the primary navigation. *)
Definition openAndScan (u : string) : M JsMap.t :=
  gotoM u ;;
  waitM 2000 ;;
  dismissCookieBanners ;;
  collectLinks u ;;
  scanPrimaryNav u.

(** The [try] block, lines 106-297. *)
Definition tryBlock (u : string) (maxLinks : Z) : M Report.t :=
  primaryNavLinks <- openAndScan u ;;
  phases u maxLinks primaryNavLinks ;;
  report u.

(** Lines 298-302. *)
Definition catchBlock (u : string) (message : string) : M Report.t :=
  pushError message ;;
  report u.

Definition initial (w : W) : State W := mkState (mkVars [] 0 []) w [].

(** Lines 99-306.  [getPage()] is awaited before the [try]; [page.close()]
    is awaited in the [finally].  The [console.log] calls are left out.
    [maxLinks] is a JavaScript number; the model covers the integers. *)
Definition run (u : string) (rawMaxLinks : option Z) : M Report.t :=
  let maxLinks :=
    match rawMaxLinks with
    | Some n => n
    | None => DEFAULT_MAX_LINKS
    end in
  getPageM ;;
  tryFinally (tryCatch (tryBlock u maxLinks) (catchBlock u)) closeM.

Definition execute (u : string) (rawMaxLinks : option Z) (w : W)
  : State W * outcome Report.t :=
  run u rawMaxLinks (initial w).
End Engine.

(* ================================================================== *)
(** * The keyword search ([searchForPage.ts]) *)

(** [String.prototype.includes]. *)
Fixpoint includes (s sub : string) : bool :=
  String.prefix sub s ||
  match s with
  | EmptyString => false
  | String _ r => includes r sub
  end.

Module Search.
(** An element of [matches]: [{ url, linkText }]. *)
Record Match := mkMatch { url : string; linkText : string }.

(** The object returned by the tool: [{ baseUrl, keyword, matches }]. *)
Record Result := mk {
  baseUrl : string;
  keyword : string;
  matches : list Match }.

Definition MAX_MATCHES : nat := 10.

(** The guard of line 46 of [searchForPage.ts]. *)
Definition passes (h : string) : bool :=
  negb (startsWith h "javascript:") && negb (startsWith h "mailto:") &&
  negb (startsWith h "#").

(** [Set.prototype.has] on the set [seen], kept in insertion order. *)
Definition setHas (seen : list string) (k : string) : bool :=
  existsb (fun k' => String.eqb k' k) seen.

Section Loop.
Variable resolveURL : string -> string -> option string.
(** [String.prototype.toLowerCase]. *)
Variable toLowerCase : string -> string.

(** Line 49: the test that makes a link a match. *)
Definition hits (kw resolved txt : string) : bool :=
  includes (toLowerCase resolved) kw || includes (toLowerCase txt) kw.

(** Lines 45-59: the loop over [links], with its locals [seen] and
    [matches]; the [break] of line 52 ends it. *)
Fixpoint scan (kw base : string) (links : list RawAnchor)
    (seen : list string) (found : list Match) : list Match :=
  match links with
  | [] => found
  | a :: r =>
      if passes (href a) then
        match resolveURL (href a) base with
        | Some resolved =>
            if negb (setHas seen resolved) &&
               hits kw resolved (rawText a)
            then
              let seen' := seen ++ [resolved] in
              let found' := found ++ [mkMatch resolved (rawText a)] in
              if (MAX_MATCHES <=? length found')%nat then found'
              else scan kw base r seen' found'
            else scan kw base r seen found
        | None => scan kw base r seen found
        end
      else scan kw base r seen found
  end.

(** Lines 39-59. *)
Definition findMatches (base kwd : string) (links : list RawAnchor)
  : list Match :=
  scan (toLowerCase kwd) base links [] [].
End Loop.
End Search.

Section SearchTool.
Context {W : Type} {B : Browser W}.
Variable resolveURL : string -> string -> option string.
Variable toLowerCase : string -> string.

(** Lines 22-37 of [searchForPage.ts]: load the page and read its
    anchors. *)
Definition fetchAnchors (base : string) : M (list RawAnchor) :=
  bind (gotoM base) (fun _ =>
  bind (waitM 2000) (fun _ =>
  evaluateM "a[href]")).

(** Lines 17-69 of [searchForPage.ts].  Any error inside the [try] gives an
    empty list of matches. *)
Definition searchRun (base kwd : string) : M Search.Result :=
  bind getPageM (fun _ =>
  tryFinally
    (tryCatch
       (bind (fetchAnchors base) (fun links =>
          ret (Search.mk base kwd
                 (Search.findMatches resolveURL toLowerCase base kwd links))))
       (fun _ => ret (Search.mk base kwd [])))
    closeM).

Definition searchForPage (base kwd : string) (w : W)
  : State W * outcome Search.Result :=
  searchRun base kwd (initial w).
End SearchTool.

(* ================================================================== *)
(** * The page scraper ([scrapeUrl.ts]) *)

(** The page reads of the scraper: [page.title()] and [page.content()]. *)
Class Reader (W : Type) := {
  pageTitle : W -> W * outcome string;
  pageContent : W -> W * outcome string
}.

Module Scrape.
(** The object returned by the tool:
    [{ url, title, content, truncated }]. *)
Record Result := mk {
  url : string;
  title : string;
  content : string;
  truncated : bool }.

Definition MAX_CHARS : nat := Z.to_nat 15000.
End Scrape.

(** Template-literal rendering of an integer. *)
Definition showZ (z : Z) : string := NilZero.string_of_int (Z.to_int z).

Section ScrapeTool.
Context {W : Type} {B : Browser W} {R : Reader W}.
(** [turndown.turndown], the HTML to markdown conversion. *)
Variable turndown : string -> string.

(** A page read; reads are not recorded in the trace. *)
Definition readM {A} (op : W -> W * outcome A) : M A :=
  fun s =>
    let (w', r) := op (world s) in
    (mkState (vars s) w' (trace s), r).

(** Lines 36-40 of [scrapeUrl.ts]: the markdown cut to [MAX_CHARS], and
    whether it was cut. *)
Definition clip (markdown : string) : string * bool :=
  let truncated := (Scrape.MAX_CHARS <? String.length markdown)%nat in
  (if truncated then strSlice0 Scrape.MAX_CHARS markdown else markdown,
   truncated).

(** Lines 30-43 of [scrapeUrl.ts]. *)
Definition readPage (u : string) : M Scrape.Result :=
  bind (waitM 2000) (fun _ =>
  bind (readM pageTitle) (fun title =>
  bind (readM pageContent) (fun html =>
  let (markdown, truncated) := clip (turndown html) in
  ret (Scrape.mk u title markdown truncated)))).

(** Lines 22-48 of [scrapeUrl.ts]: the [try] and its [catch]. *)
Definition scrapeGuarded (u : string) : M Scrape.Result :=
  tryCatch
    (bind (gotoM u) (fun response =>
       match response with
       | Some status =>
           if 400 <=? status
           then ret (Scrape.mk u EmptyString
                       (String.append "Page returned HTTP " (showZ status))
                       false)
           else readPage u
       | None => readPage u
       end))
    (fun message =>
       ret (Scrape.mk u EmptyString
              (String.append "Navigation error: " message) false)).

(** Lines 19-51 of [scrapeUrl.ts]. *)
Definition scrapeRun (u : string) : M Scrape.Result :=
  bind getPageM (fun _ => tryFinally (scrapeGuarded u) closeM).

Definition scrapeUrl (u : string) (w : W) : State W * outcome Scrape.Result :=
  scrapeRun u (initial w).
End ScrapeTool.

(* ================================================================== *)
(** * The browsing session ([session.ts])

    The module keeps three variables: the promise of the Steel session, the
    connected browser and the promise of the browser.  The model covers
    calls made one after the other, each awaited before the next: a promise
    is then either absent or settled, and a settled promise is kept as its
    outcome, which awaiting it yields again. *)

(** The services behind the module: the Steel client, Playwright's
    [chromium.connectOverCDP], and the browser and context objects.  A
    session is kept as its [id]; browsers, contexts and pages as handles. *)
Class Cloud (W : Type) := {
  sessionsCreate : W -> W * outcome string;
  connectOverCDP : string -> W -> W * outcome nat;
  browserContexts : nat -> W -> list nat;
  browserNewContext : nat -> W -> W * outcome nat;
  contextNewPage : nat -> W -> W * outcome nat;
  browserClose : nat -> W -> W * outcome unit;
  sessionsRelease : string -> W -> W * outcome unit
}.

Module Session.
(** The calls to the services, as recorded. *)
Inductive CloudCall :=
| Create
| Connect (cdpUrl : string)
| NewContext (b : nat)
| NewPage (c : nat)
| CloseBrowser (b : nat)
| Release (id : string).

(** The module's variables (lines 9-12 of [session.ts]). *)
Record Slots := mkSlots {
  sessionPromise : option (outcome string);
  browser : option nat;
  browserPromise : option (outcome nat) }.

Record St (W : Type) := mkSt {
  slots : Slots;
  cloud : W;
  calls : list CloudCall }.
Arguments mkSt {W} slots cloud calls.
Arguments slots {W} s.
Arguments cloud {W} s.
Arguments calls {W} s.

Definition empty : Slots := mkSlots None None None.

Section Functions.
Context {W : Type} {C : Cloud W}.
(** [process.env.STEEL_API_KEY] as the template literal renders it. *)
Variable apiKey : string.

Definition S (A : Type) : Type := St W -> St W * outcome A.

Definition sret {A} (a : A) : S A := fun st => (st, Ok a).

Definition sbind {A D} (m : S A) (k : A -> S D) : S D :=
  fun st => match m st with
            | (st', Ok a) => k a st'
            | (st', Throw e) => (st', Throw e)
            end.

(** A call to a service. *)
Definition ask {A} (c : CloudCall) (op : W -> W * outcome A) : S A :=
  fun st =>
    let (w', r) := op (cloud st) in
    (mkSt (slots st) w' (calls st ++ [c]), r).

(** Awaiting a settled promise. *)
Definition await {A} (p : outcome A) : S A := fun st => (st, p).

Definition setSessionPromise (p : option (outcome string)) : S unit :=
  fun st =>
    (mkSt (mkSlots p (browser (slots st)) (browserPromise (slots st)))
       (cloud st) (calls st), Ok tt).

Definition setBrowser (b : option nat) : S unit :=
  fun st =>
    (mkSt (mkSlots (sessionPromise (slots st)) b
             (browserPromise (slots st)))
       (cloud st) (calls st), Ok tt).

Definition setBrowserPromise (p : option (outcome nat)) : S unit :=
  fun st =>
    (mkSt (mkSlots (sessionPromise (slots st)) (browser (slots st)) p)
       (cloud st) (calls st), Ok tt).

(** Run [m] as a promise: its outcome, thrown or not, is handed to [k],
    which stores it. *)
Definition settle {A D} (m : S A) (k : outcome A -> S D) : S D :=
  fun st => let (st', r) := m st in k r st'.

(** Lines 18-28: [getSession]. *)
Definition getSession : S string :=
  fun st =>
    match sessionPromise (slots st) with
    | Some p => await p st
    | None =>
        settle (ask Create sessionsCreate)
          (fun p => sbind (setSessionPromise (Some p)) (fun _ => await p)) st
    end.

(** Line 40: the CDP address. *)
Definition cdpUrl (sessionId : string) : string :=
  String.append "wss://connect.steel.dev?apiKey="
    (String.append apiKey (String.append "&sessionId=" sessionId)).

(** Lines 36-48: [getBrowser]. *)
Definition getBrowser : S nat :=
  fun st =>
    match browserPromise (slots st) with
    | Some p => await p st
    | None =>
        settle
          (sbind getSession (fun sess =>
           sbind (ask (Connect (cdpUrl sess)) (connectOverCDP (cdpUrl sess)))
             (fun b =>
           sbind (setBrowser (Some b)) (fun _ => sret b))))
          (fun p => sbind (setBrowserPromise (Some p)) (fun _ => await p)) st
    end.

(** Lines 55-60: [getPage]. *)
Definition getPage : S nat :=
  sbind getBrowser (fun b =>
  fun st =>
    sbind
      match browserContexts b (cloud st) with
      | c :: _ => sret c
      | [] => ask (NewContext b) (browserNewContext b)
      end
      (fun context => ask (NewPage context) (contextNewPage context)) st).

(** Lines 66-77: [releaseSession]. *)
Definition releaseSession : S unit :=
  sbind
    (fun st =>
       match browser (slots st) with
       | Some b =>
           sbind (ask (CloseBrowser b) (browserClose b))
             (fun _ => setBrowser None) st
       | None => sret tt st
       end)
    (fun _ st =>
       match sessionPromise (slots st) with
       | Some p =>
           sbind (await p) (fun session =>
           sbind (ask (Release session) (sessionsRelease session)) (fun _ =>
           setSessionPromise None)) st
       | None => sret tt st
       end).
End Functions.
End Session.

(* ================================================================== *)
(** * The entry point ([index.ts]) *)

Module Main.
(** How the program ends: [process.exit(code)], the end of the async
    function, or a rejection of it (the [finally] block threw). *)
Inductive Ending :=
| Exit (code : Z)
| Finished
| Rejected (msg : string).

(** Line 8: the arguments that start with "http". *)
Definition parseUrls (argv : list string) : list string :=
  filter (fun arg => startsWith arg "http") argv.

Definition newline : string := String (ascii_of_nat 10) EmptyString.

(** [urls.map((u, i) => `${i + 1}. ${u}`)], from index [i]. *)
Fixpoint numbered (i : nat) (urls : list string) : list string :=
  match urls with
  | [] => []
  | u :: r =>
      String.append (showNat (i + 1)) (String.append ". " u)
      :: numbered (Datatypes.S i) r
  end.

(** Lines 30-32: the prompt. *)
Definition userPrompt (urls : list string) : string :=
  String.append
    (String.append
       "Research the following competitors and produce a full competitive intelligence report:"
       newline)
    (String.concat newline (numbered 0 urls)).

Section Program.
Context {W : Type} {C : Cloud W}.
(** [agent.generate], which may use the session module. *)
Variable agent : string -> @Session.S W unit.

(** Lines 8-69.  [process.exit] ends the process where it is called: the
    [finally] block of line 66 does not run after the [process.exit(1)] of
    line 65.  Console output is left out. *)
Definition main (argv : list string) (st : Session.St W)
  : Session.St W * Ending :=
  let urls := parseUrls argv in
  match urls with
  | [] => (st, Exit 1)
  | _ :: _ =>
      match Session.sbind Session.getSession
              (fun _ => agent (userPrompt urls)) st with
      | (st1, Throw _) => (st1, Exit 1)
      | (st1, Ok _) =>
          match Session.releaseSession st1 with
          | (st2, Ok _) => (st2, Finished)
          | (st2, Throw e) => (st2, Rejected e)
          end
      end
  end.
End Program.
End Main.

(* ================================================================== *)
(** * Sample pages

    A small scripted browser used to run the engine on concrete pages.  The
    page remembers which element the pointer rests on, which toggles were
    clicked and whether it was scrolled; what a query returns may depend on
    that. *)
Module Demo.
Record PageState := mkPage {
  hovered : option (string * nat);
  clicked : list string;
  scrolled : bool }.

Definition fresh : PageState := mkPage None [] false.

Record Site := mkSite {
  acquire : outcome unit;
  navigate : outcome (option Z);
  anchors : PageState -> string -> outcome (list RawAnchor);
  items : string -> list (option string);
  visible : string -> bool;
  press : string -> Z -> outcome unit;
  release : outcome unit }.

Definition browser (site : Site) : Browser PageState := {|
  getPage := fun w => (w, acquire site);
  goto := fun _ w => (w, navigate site);
  waitForTimeout := fun _ w => (w, Ok tt);
  evaluateAnchors := fun sel w => (w, anchors site w sel);
  scrollToBottom := fun w => (mkPage (hovered w) (clicked w) true, Ok tt);
  locatorCount := fun sel w => (w, Ok (length (items site sel)));
  textContent := fun sel i _ w =>
    (w, match nth_error (items site sel) i with
        | Some t => Ok t
        | None => Throw "locator.textContent: Timeout 1000ms exceeded"
        end);
  hover := fun sel i _ w => (mkPage (Some (sel, i)) (clicked w) (scrolled w), Ok tt);
  isVisible := fun sel _ w => (w, Ok (visible site sel));
  click := fun sel t w =>
    match press site sel t with
    | Ok _ => (mkPage (hovered w) (sel :: clicked w) (scrolled w), Ok tt)
    | Throw e => (w, Throw e)
    end;
  close := fun w => (w, release site)
|}.

(** [new URL(href, base).href] on the inputs used by the sample pages: an
    empty reference resolves to the base, an absolute http(s) URL in
    serialised form resolves to itself, a scheme with nothing after it is
    rejected.  The sample pages use no other form of reference; this
    stand-in reports any other as rejected. *)
Definition resolveURL (h base : string) : option string :=
  if String.eqb h EmptyString then Some base
  else if (startsWith h "https://" && negb (String.eqb h "https://")) ||
          (startsWith h "http://" && negb (String.eqb h "http://"))
  then Some h
  else None.

Definition base : string := "https://example.com/".

Definition aHome := mkRaw "https://example.com/" "Home".
Definition aPricing := mkRaw "https://example.com/pricing" "Pricing".
Definition aDocs := mkRaw "https://example.com/docs" "Docs".
Definition aBlog := mkRaw "https://example.com/blog" "Blog".
Definition aTerms := mkRaw "https://example.com/terms" "Terms".
Definition aApi := mkRaw "https://example.com/api" "API reference".

Definition isSel (a b : string) : bool := String.eqb a b.

(** A static page: a navigation bar and a footer, nothing to hover or
    toggle. *)
Definition staticSite (status : option Z) (nav footer : list RawAnchor)
  : Site :=
  mkSite (Ok tt) (Ok status)
    (fun _ sel =>
       if isSel sel "a[href]" then Ok (nav ++ footer)
       else if isSel sel "nav a" then Ok nav
       else if isSel sel "footer a" then Ok footer
       else Ok [])
    (fun _ => []) (fun _ => false) (fun _ _ => Ok tt) (Ok tt).

(** The target answers 404 with an ordinary error page carrying the
    site's navigation bar. *)
Definition notFoundSite : Site :=
  staticSite (Some 404) [aHome; aPricing] [].

(** Scenario E: four footer links, two of which repeat the header's. *)
Definition footerSite : Site :=
  staticSite (Some 200) [aHome; aPricing; aDocs]
    [aHome; aBlog; aPricing; aTerms].

(** The browser cannot be reached: [getPage()] rejects. *)
Definition unreachableSite : Site :=
  mkSite (Throw "connect ECONNREFUSED") (Ok None)
    (fun _ _ => Ok []) (fun _ => []) (fun _ => false)
    (fun _ _ => Ok tt) (Ok tt).

(** The host does not resolve: [page.goto] rejects. *)
Definition deadSite : Site :=
  mkSite (Ok tt) (Throw "net::ERR_NAME_NOT_RESOLVED")
    (fun _ _ => Ok []) (fun _ => []) (fun _ => false)
    (fun _ _ => Ok tt) (Ok tt).



(** A drop-down and a lazily rendered footer.  Hovering the first menu
    item inserts a link to the API reference; scrolling to the bottom
    renders a footer that links to the same page. *)
Definition dropdownSite : Site :=
  mkSite (Ok tt) (Ok (Some 200))
    (fun w sel =>
       let menu :=
         match hovered w with
         | Some (s, 0%nat) => if isSel s "nav > ul > li" then [aApi] else []
         | _ => []
         end in
       let foot := if scrolled w then [aApi; aTerms] else [] in
       if isSel sel "a[href]" then Ok ((aHome :: menu) ++ foot)
       else if isSel sel "nav a" then Ok (aHome :: menu)
       else if isSel sel "footer a" then Ok foot
       else Ok [])
    (fun sel => if isSel sel "nav > ul > li" then [Some "  Products  "] else [])
    (fun _ => false) (fun _ _ => Ok tt) (Ok tt).

Definition explore (site : Site) (maxLinks : option Z)
  : State PageState * outcome Report.t :=
  @execute PageState (browser site) resolveURL base maxLinks fresh.

(** A footer that repeats two header links and one of its own. *)
Definition busyFooterSite : Site :=
  staticSite (Some 200) [aHome; aPricing]
    [aHome; aBlog; aDocs; aBlog; aPricing; aTerms].

(** The primary navigation map of [busyFooterSite], and the state in which
    its footer phase starts. *)
Definition headerLinks : JsMap.t := linksOf resolveURL base [aHome; aPricing].

Definition afterHeader : State PageState :=
  mkState
    (mkVars [mkSection "Primary Nav" (JsMap.values headerLinks)] 2 [])
    fresh [].

(** The report of a run that returned one. *)
Definition reported (site : Site) (maxLinks : option Z) : Report.t :=
  match snd (explore site maxLinks) with
  | Ok rep => rep
  | Throw _ => Report.mk base 0 [] []
  end.
End Demo.

(* ================================================================== *)
(** * Sample inputs for the other tools *)
Module Samples.
(** [toLowerCase] on the letters A to Z; other characters are kept. *)
Definition lowerChar (c : ascii) : ascii :=
  let n := nat_of_ascii c in
  if ((65 <=? n) && (n <=? 90))%nat then ascii_of_nat (n + 32) else c.

Definition toLowerCase (s : string) : string :=
  string_of_list_ascii (map lowerChar (list_ascii_of_string s)).

(** A page with a pricing link under two labels, a fragment link and a
    link to the documentation. *)
Definition anchors : list RawAnchor :=
  [ mkRaw "https://example.com/pricing" "Plans";
    mkRaw "#top" "Back to top";
    mkRaw "https://example.com/pricing" "See PRICING";
    mkRaw "https://example.com/docs" "Docs" ].

Definition shop : Demo.Site :=
  Demo.mkSite (Ok tt) (Ok (Some 200))
    (fun _ sel => if Demo.isSel sel "a[href]" then Ok anchors else Ok [])
    (fun _ => []) (fun _ => false) (fun _ _ => Ok tt) (Ok tt).
End Samples.

Module ScrapeSamples.
(** A page with a title and a short body. *)
Definition reader : Reader Demo.PageState := {|
  pageTitle := fun w => (w, Ok "Example");
  pageContent := fun w => (w, Ok "<h1>Hello</h1>")
|}.

(** A conversion that keeps its input, standing in for turndown. *)
Definition keep (html : string) : string := html.
End ScrapeSamples.

Module CloudSamples.
(** A working service: sessions are numbered, the browser has handle 7 and
    starts with one context, 1; new pages are numbered from 100.  The state
    is the number of sessions and pages created so far. *)
Definition steel : Cloud nat := {|
  sessionsCreate := fun n => (S n, Ok (String.append "sess-" (showNat n)));
  connectOverCDP := fun _ n => (n, Ok 7%nat);
  browserContexts := fun _ _ => [1%nat];
  browserNewContext := fun _ n => (n, Ok 2%nat);
  contextNewPage := fun _ n => (S n, Ok (100 + n)%nat);
  browserClose := fun _ n => (n, Ok tt);
  sessionsRelease := fun _ n => (n, Ok tt)
|}.

(** A service that rejects the API key. *)
Definition locked : Cloud nat := {|
  sessionsCreate := fun n => (n, Throw "401 Unauthorized");
  connectOverCDP := fun _ n => (n, Ok 7%nat);
  browserContexts := fun _ _ => [];
  browserNewContext := fun _ n => (n, Ok 2%nat);
  contextNewPage := fun _ n => (n, Ok 100%nat);
  browserClose := fun _ n => (n, Ok tt);
  sessionsRelease := fun _ n => (n, Ok tt)
|}.

Definition start : Session.St nat := Session.mkSt Session.empty 0%nat [].
End CloudSamples.

Module MainSamples.
(** An agent that opens one page and then fails. *)
Definition failing : string -> @Session.S nat unit :=
  fun _ =>
    Session.sbind (@Session.getPage _ CloudSamples.steel "key")
      (fun _ st => (st, Throw "model overloaded")).

Definition argv : list string :=
  ["node"; "src/index.ts"; "https://stripe.com"].
End MainSamples.

(* ================================================================== *)
(** * Specification vocabulary

    The notions in which the properties of the engine are stated. *)

(** Line 100: [rawMaxLinks ?? DEFAULT_MAX_LINKS]. *)
Definition budgetOf (rawMaxLinks : option Z) : Z :=
  match rawMaxLinks with Some n => n | None => DEFAULT_MAX_LINKS end.

Section LinkVocabulary.
Variable resolveURL : string -> string -> option string.

(** An anchor from which a link can be built: the guard lets it through
    and the URL constructor accepts it. *)
Definition qualifies (baseUrl : string) (a : RawAnchor) : bool :=
  negb (skipHref (href a)) &&
  match resolveURL (href a) baseUrl with Some _ => true | None => false end.

(** The link built from a qualifying anchor. *)
Definition builtFrom (baseUrl : string) (a : RawAnchor) (k : string)
    (l : LinkInfo) : Prop :=
  skipHref (href a) = false /\
  resolveURL (href a) baseUrl = Some k /\
  l = mkLink k (strSlice0 120 (rawText a)).

(** The link an anchor stands for, if it qualifies. *)
Definition linkOf (baseUrl : string) (a : RawAnchor) : option LinkInfo :=
  if skipHref (href a) then None
  else match resolveURL (href a) baseUrl with
       | Some resolved => Some (mkLink resolved (strSlice0 120 (rawText a)))
       | None => None
       end.

Definition candidates (baseUrl : string) (raw : list RawAnchor)
  : list LinkInfo :=
  flat_map (fun a => match linkOf baseUrl a with
                     | Some l => [l]
                     | None => []
                     end) raw.

(** Keep the first link of each URL not in [seen]. *)
Fixpoint dedupe (seen : list string) (l : list LinkInfo) : list LinkInfo :=
  match l with
  | [] => []
  | x :: r =>
      if existsb (fun k => String.eqb k (url x)) seen then dedupe seen r
      else x :: dedupe (seen ++ [url x]) r
  end.

(** The footer section as the specification words it: the footer-scoped
    links, without those the primary navigation scan captured, then
    deduplicated. *)
Definition footerSpec (baseUrl : string) (primaryNavLinks : JsMap.t)
    (raw : list RawAnchor) : list LinkInfo :=
  dedupe []
    (filter (fun l => negb (JsMap.has primaryNavLinks (url l)))
       (candidates baseUrl raw)).
End LinkVocabulary.

(** A footer map: well formed and disjoint from the primary navigation. *)
Definition footerOk (pn m : JsMap.t) : Prop :=
  JsMap.wf m /\ forall k, In k (JsMap.keys m) -> JsMap.has pn k = false.

(** ** Triples over the orchestrator's locals *)

Section TripleVocabulary.
Context {W : Type} {B : Browser W}.

(** [triple P m Q E]: started with locals satisfying [P], [m] either
    returns [a] with locals satisfying [Q a], or throws with locals
    satisfying [E]. *)
Definition triple {A} (P : Vars -> Prop) (m : @M W A)
    (Q : A -> Vars -> Prop) (E : Vars -> Prop) : Prop :=
  forall s, P (vars s) ->
    match m s with
    | (s', Ok a) => Q a (vars s')
    | (s', Throw _) => E (vars s')
    end.

(** The anchors returned by the queries for [sels], in order; a query that
    throws contributes none. *)
Fixpoint gather (sels : list string) (s : State W)
  : State W * list RawAnchor :=
  match sels with
  | [] => (s, [])
  | sel :: r =>
      match evaluateM sel s with
      | (s', Ok raw) => let (s'', rest) := gather r s' in (s'', raw ++ rest)
      | (s', Throw _) => gather r s'
      end
  end.
End TripleVocabulary.

(** The exceptional postcondition of a computation that does not throw. *)
Definition never : Vars -> Prop := fun _ => False.

(** The locals as initialised at lines 102-104. *)
Definition freshVars (v : Vars) : Prop :=
  sections v = [] /\ totalLinksFound v = 0 /\ errors v = [].

(** ** What a report is made of *)

(** The sum over all sections of the number of links. *)
Definition sumLinks (secs : list NavSection) : Z :=
  fold_right (fun sec acc => lengthZ (links sec) + acc) 0 secs.

(** The four ways a section comes into being, with [consumed] links already
    counted; [pn] is the primary-navigation map of the run. *)
Inductive emitted (maxLinks : Z) (pn : JsMap.t) (consumed : Z)
  : NavSection -> Prop :=
| em_primary :
    consumed = 0 -> pn <> [] ->
    emitted maxLinks pn consumed
      (mkSection "Primary Nav" (slice0 maxLinks (JsMap.values pn)))
| em_hover (itemText : string) (before after : JsMap.t) :
    JsMap.wf after -> consumed < maxLinks ->
    diffLinks before after <> [] ->
    emitted maxLinks pn consumed
      (mkSection (String.append "Dropdown: " itemText)
         (slice0 (maxLinks - consumed) (diffLinks before after)))
| em_hamburger (before after : JsMap.t) :
    JsMap.wf after -> consumed < maxLinks ->
    diffLinks before after <> [] ->
    emitted maxLinks pn consumed
      (mkSection "Mobile/Hamburger Menu"
         (slice0 (maxLinks - consumed) (diffLinks before after)))
| em_footer (footerLinks : JsMap.t) :
    footerOk pn footerLinks -> footerLinks <> [] -> consumed < maxLinks ->
    emitted maxLinks pn consumed
      (mkSection "Footer"
         (slice0 (maxLinks - consumed) (JsMap.values footerLinks))).

(** The sections of a run, in order, each emitted against the count of the
    links of the sections before it. *)
Inductive built (maxLinks : Z) (pn : JsMap.t)
  : list NavSection -> Z -> Prop :=
| built_nil : built maxLinks pn [] 0
| built_snoc secs total sec :
    built maxLinks pn secs total ->
    emitted maxLinks pn total sec ->
    built maxLinks pn (secs ++ [sec]) (total + lengthZ (links sec)).

(** The locals hold a well-built list of sections and its count. *)
Definition wellBuilt (maxLinks : Z) (pn : JsMap.t) (v : Vars) : Prop :=
  built maxLinks pn (sections v) (totalLinksFound v).

(** The locals after a section is pushed and counted. *)
Definition emit (v : Vars) (sec : NavSection) : Vars :=
  mkVars (sections v ++ [sec]) (totalLinksFound v + lengthZ (links sec))
    (errors v).

(** The report is a copy of well-built locals. *)
Definition goodReport (maxLinks : Z) (rep : Report.t) : Prop :=
  exists pn, JsMap.wf pn /\
    built maxLinks pn (Report.sections rep) (Report.totalLinksFound rep).

(** The sections held at any point are still there, in place, after the
    later phases. *)
Definition extends (secs0 : list NavSection) (v : Vars) : Prop :=
  exists more, sections v = secs0 ++ more.

(** ** The hamburger phase, seen from the page *)

(** A call and its reply. *)
Definition ev (c : Call) (r : Reply) : Event := mkEvent c r.















(** ** The interstitial dismisser, seen from the page *)

(** The calls of an attempt at one consent pattern after which the next
    pattern is tried: the button is not visible, or a call throws. *)
Inductive bannerSkipped (sel : string) : list Event -> Prop :=
| bs_visible_throws : bannerSkipped sel [ev (CIsVisible sel 500) RThrow]
| bs_hidden : bannerSkipped sel [ev (CIsVisible sel 500) (RBool false)]
| bs_click_throws :
    bannerSkipped sel
      [ev (CIsVisible sel 500) (RBool true); ev (CClick sel 1000) RThrow]
| bs_settle_throws :
    bannerSkipped sel
      [ev (CIsVisible sel 500) (RBool true); ev (CClick sel 1000) RDone;
       ev (CWait 500) RThrow].

(** The calls of the attempt that dismisses a banner. *)
Definition dismissed (sel : string) : list Event :=
  [ev (CIsVisible sel 500) (RBool true); ev (CClick sel 1000) RDone;
   ev (CWait 500) RDone].

(** The calls of the dismisser over the patterns [sels]. *)
Inductive bannerTrace : list string -> list Event -> Prop :=
| bt_none : bannerTrace [] []
| bt_skip sel rest e1 e2 :
    bannerSkipped sel e1 -> bannerTrace rest e2 ->
    bannerTrace (sel :: rest) (e1 ++ e2)
| bt_dismissed sel rest : bannerTrace (sel :: rest) (dismissed sel).

(** ** What the engine does to the page *)

(** [emits allowed m]: every call [m] makes is an [allowed] one. *)
Definition emits {W A} (allowed : Call -> Prop) (m : @M W A) : Prop :=
  forall s, exists evs,
    trace (fst (m s)) = trace s ++ evs /\
    Forall (fun e => allowed (evCall e)) evs.

(** The calls made between the navigation and the closing of the page:
    waits, scrolls, anchor queries on the fixed scopes, counts, text reads
    and hovers on the first 15 items of the hover scopes, visibility tests
    and clicks on the consent and toggle patterns. *)
Definition interaction (c : Call) : Prop :=
  match c with
  | CGetPage => False
  | CGoto _ => False
  | CClose => False
  | CWait _ => True
  | CScroll => True
  | CEvaluate sel =>
      sel = "a[href]" \/ In sel navSelectors \/ In sel footerSelectors
  | CCount sel => In sel hoverTargetSelectors
  | CTextContent sel i => In sel hoverTargetSelectors /\ (i < 15)%nat
  | CHover sel i => In sel hoverTargetSelectors /\ (i < 15)%nat
  | CIsVisible sel t =>
      (In sel cookieSelectors /\ t = 500) \/
      (In sel hamburgerSelectors /\ t = 1000)
  | CClick sel t =>
      (In sel cookieSelectors /\ t = 1000) \/
      (In sel hamburgerSelectors /\ (t = 3000 \/ t = 1000))
  end.

(** ** The shape of a report *)

(** A section emitted by a hover. *)
Definition isDropdown (sec : NavSection) : Prop :=
  exists itemText ls, sec = mkSection (String.append "Dropdown: " itemText) ls.

(** No section, or one section with the given label. *)
Definition atMostOne (lbl : string) (secs : list NavSection) : Prop :=
  secs = [] \/ exists ls, secs = [mkSection lbl ls].

(** The sections in phase order. *)
Definition inPhaseOrder (secs : list NavSection) : Prop :=
  exists primary dropdowns hamburger footer,
    secs = primary ++ dropdowns ++ hamburger ++ footer /\
    atMostOne "Primary Nav" primary /\
    Forall isDropdown dropdowns /\
    atMostOne "Mobile/Hamburger Menu" hamburger /\
    atMostOne "Footer" footer.

(** The locals after the phases: sections in phase order, and no error
    unless the footer scroll failed, in which case there is no footer
    section. *)
Definition phasesDone (v : Vars) : Prop :=
  exists primary dropdowns hamburger footer,
    sections v = primary ++ dropdowns ++ hamburger ++ footer /\
    atMostOne "Primary Nav" primary /\
    Forall isDropdown dropdowns /\
    atMostOne "Mobile/Hamburger Menu" hamburger /\
    atMostOne "Footer" footer /\
    (errors v = [] \/
     exists msg, errors v = [String.append "Footer scroll failed: " msg] /\
                 footer = []).

(** What the guarded block leaves in the report. *)
Definition reportDone (rep : Report.t) : Prop :=
  (exists msg, Report.errors rep = [msg] /\ Report.sections rep = [] /\
               Report.totalLinksFound rep = 0) \/
  phasesDone (mkVars (Report.sections rep) (Report.totalLinksFound rep)
                (Report.errors rep)).

(** ** The keyword search *)

Section SearchVocabulary.
Variable resolveURL : string -> string -> option string.
Variable toLowerCase : string -> string.

(** The links the search considers: the anchors that pass its guard and
    resolve, in page order, with their full text. *)
Definition searchCandidates (base : string) (links : list RawAnchor)
  : list Search.Match :=
  flat_map (fun a =>
    if Search.passes (href a) then
      match resolveURL (href a) base with
      | Some resolved => [Search.mkMatch resolved (rawText a)]
      | None => []
      end
    else []) links.

(** Keep the first match of each URL not in [seen]. *)
Fixpoint firstPerUrl (seen : list string) (l : list Search.Match)
  : list Search.Match :=
  match l with
  | [] => []
  | x :: r =>
      if Search.setHas seen (Search.url x) then firstPerUrl seen r
      else x :: firstPerUrl (seen ++ [Search.url x]) r
  end.

(** The search in words: of the candidate links that contain the keyword,
    the first of each URL, ten at most. *)
Definition searchSpec (base kwd : string) (links : list RawAnchor)
  : list Search.Match :=
  firstn Search.MAX_MATCHES
    (firstPerUrl []
       (filter (fun m => Search.hits toLowerCase (toLowerCase kwd)
                           (Search.url m) (Search.linkText m))
          (searchCandidates base links))).
End SearchVocabulary.

(** ** The results of the scraper *)

(** A failure, reported in [content] with the message of what threw. *)
Definition failure (u msg : string) : Scrape.Result :=
  Scrape.mk u EmptyString (String.append "Navigation error: " msg) false.

(** The answer to an HTTP error status: the page is not read. *)
Definition refusal (u : string) (status : Z) : Scrape.Result :=
  Scrape.mk u EmptyString
    (String.append "Page returned HTTP " (showZ status)) false.

(** A scraped page: its title, its markdown cut to [MAX_CHARS] characters,
    and whether the markdown was longer. *)
Definition pageResult (turndown : string -> string) (u title html : string)
  : Scrape.Result :=
  Scrape.mk u title (strSlice0 Scrape.MAX_CHARS (turndown html))
    (Scrape.MAX_CHARS <? String.length (turndown html))%nat.

(** A response after which the page is read: no response object, or a
    status below 400. *)
Definition goesOn (response : option Z) : Prop :=
  match response with
  | Some status => status < 400
  | None => True
  end.

(** [res] is the result for the page as it stands in [w2], after the
    navigation: the message of the failing step if the settle wait, the
    title read or the content read throws, else the scraped page made of
    the title and the content that were read. *)
Definition readAccounts {W} {B : Browser W} {R : Reader W}
    (turndown : string -> string) (u : string) (w2 : W)
    (res : Scrape.Result) : Prop :=
  match waitForTimeout 2000 w2 with
  | (_, Throw msg) => res = failure u msg
  | (w3, Ok _) =>
      match pageTitle w3 with
      | (_, Throw msg) => res = failure u msg
      | (w4, Ok title) =>
          match pageContent w4 with
          | (_, Throw msg) => res = failure u msg
          | (_, Ok html) => res = pageResult turndown u title html
          end
      end
  end.

(** [res] accounts for what the page in [w1] answers to the scraper: a
    navigation that throws gives the failure with its message, a status of
    400 or more the refusal with that status, and any other response the
    result of reading the page. *)
Definition accounts {W} {B : Browser W} {R : Reader W}
    (turndown : string -> string) (u : string) (w1 : W)
    (res : Scrape.Result) : Prop :=
  (forall w2 msg, goto u w1 = (w2, Throw msg) -> res = failure u msg) /\
  (forall w2 status,
     goto u w1 = (w2, Ok (Some status)) -> 400 <= status ->
     res = refusal u status) /\
  (forall w2 response,
     goto u w1 = (w2, Ok response) -> goesOn response ->
     readAccounts turndown u w2 res).

(** ** The browsing session *)

(** A call that opens a context or a page, as opposed to one that creates
    a session or connects a browser. *)
Definition opensOnly (c : Session.CloudCall) : Prop :=
  match c with
  | Session.NewContext _ => True
  | Session.NewPage _ => True
  | _ => False
  end.

(** A call that neither closes the browser nor releases the session. *)
Definition acquires (c : Session.CloudCall) : Prop :=
  match c with
  | Session.CloseBrowser _ => False
  | Session.Release _ => False
  | _ => True
  end.

(** A computation of the session module all of whose calls acquire. *)
Definition frugal {W A} (m : @Session.S W A) : Prop :=
  forall st, exists cs,
    Session.calls (fst (m st)) = Session.calls st ++ cs /\
    Forall acquires cs.

(* ================================================================== *)
(** * Arrays and maps *)

Lemma slice0_firstn {A} (e : Z) (l : list A) :
  exists n, slice0 e l = firstn n l.
Proof. unfold slice0. eexists. reflexivity. Qed.

Lemma slice0_length {A} (e : Z) (l : list A) :
  0 <= e -> Z.of_nat (length (slice0 e l)) = Z.min e (Z.of_nat (length l)).
Proof.
  intros He. unfold slice0.
  destruct (e <? 0) eqn:E; [apply Z.ltb_lt in E; lia|].
  rewrite length_firstn. lia.
Qed.

Lemma slice0_nil_iff {A} (e : Z) (l : list A) :
  1 <= e -> l <> [] -> slice0 e l <> [].
Proof.
  intros He Hl Hs. apply (f_equal (@length A)) in Hs.
  assert (H := slice0_length e l ltac:(lia)).
  rewrite Hs in H. destruct l; [congruence|]. simpl in H. lia.
Qed.

Lemma slice0_all {A} (e : Z) (l : list A) :
  Z.of_nat (length l) <= e -> slice0 e l = l.
Proof.
  intros He. unfold slice0.
  destruct (e <? 0) eqn:E; [apply Z.ltb_lt in E; lia|].
  apply firstn_all2. lia.
Qed.

Lemma slice0_zero {A} (l : list A) : slice0 0 l = [].
Proof. unfold slice0. simpl. rewrite Z.min_l by lia. reflexivity. Qed.

Lemma firstn_In {A} (n : nat) (l : list A) (x : A) :
  In x (firstn n l) -> In x l.
Proof.
  intros H. rewrite <- (firstn_skipn n l). apply in_or_app. now left.
Qed.

Lemma slice0_In {A} (e : Z) (l : list A) (x : A) :
  In x (slice0 e l) -> In x l.
Proof. destruct (slice0_firstn e l) as [n ->]. apply firstn_In. Qed.

Lemma prefix_NoDup {A} (l : list A) (H : NoDup l) (n : nat) :
  NoDup (firstn n l).
Proof.
  rewrite <- (firstn_skipn n l) in H.
  exact (NoDup_app_remove_r _ _ H).
Qed.

Lemma slice0_NoDup_map {A C} (f : A -> C) (e : Z) (l : list A) :
  NoDup (map f l) -> NoDup (map f (slice0 e l)).
Proof.
  destruct (slice0_firstn e l) as [n ->]. rewrite <- firstn_map.
  intros H. now apply prefix_NoDup.
Qed.

Module JsMapFacts.
Import JsMap.

Lemma wf_empty : wf empty.
Proof. split; constructor. Qed.

Lemma has_In (m : t) (k : string) : has m k = true <-> In k (keys m).
Proof.
  unfold has, keys. rewrite existsb_exists, in_map_iff. split.
  - intros [e [He Hk]]. apply String.eqb_eq in Hk. eauto.
  - intros [e [Hk He]]. exists e. split; [assumption|].
    now apply String.eqb_eq.
Qed.

Lemma has_false (m : t) (k : string) : has m k = false <-> ~ In k (keys m).
Proof.
  rewrite <- has_In. destruct (has m k); split; intros; congruence.
Qed.

Lemma has_entry (m : t) (k : string) (v : LinkInfo) :
  In (k, v) m -> has m k = true.
Proof.
  intros H. apply has_In. unfold keys. apply in_map_iff.
  exists (k, v). auto.
Qed.

Lemma set_fresh (m : t) (k : string) (v : LinkInfo) :
  has m k = false -> set m k v = m ++ [(k, v)].
Proof.
  induction m as [|[k' v'] r IH]; simpl; intros H; [reflexivity|].
  apply orb_false_iff in H. destruct H as [H1 H2]. simpl in H1.
  rewrite H1. now rewrite IH.
Qed.

Lemma wf_snoc (m : t) (k : string) (v : LinkInfo) :
  wf m -> has m k = false -> url v = k -> wf (m ++ [(k, v)]).
Proof.
  intros [Hn Hf] Hk Hu. split.
  - unfold keys in *. rewrite map_app. simpl.
    apply NoDup_app.
    + assumption.
    + constructor; [intros []|constructor].
    + intros x Hx [<-|[]]. apply has_false in Hk. now apply Hk.
  - apply Forall_app. split; [assumption|]. now constructor.
Qed.

Lemma wf_values_NoDup (m : t) : wf m -> NoDup (map url (values m)).
Proof.
  intros [Hn Hf]. unfold values, keys in *. rewrite map_map.
  erewrite map_ext_in; [exact Hn|].
  intros e He. rewrite Forall_forall in Hf. now apply Hf.
Qed.

Lemma wf_value_key (m : t) (l : LinkInfo) :
  wf m -> In l (values m) -> has m (url l) = true.
Proof.
  intros [_ Hf] Hl. unfold values in Hl. apply in_map_iff in Hl.
  destruct Hl as [[k v] [<- He]]. simpl.
  rewrite Forall_forall in Hf. specialize (Hf _ He). simpl in Hf.
  rewrite Hf. now apply has_entry with v.
Qed.
End JsMapFacts.

(* ================================================================== *)
(** * The link collector *)

Section CollectorFacts.
Import JsMap JsMapFacts.
Variable resolveURL : string -> string -> option string.

Lemma addLink_cases (u : string) (m : t) (a : RawAnchor) :
  addLink resolveURL u m a = m \/
  exists k, has m k = false /\
            builtFrom resolveURL u a k (mkLink k (strSlice0 120 (rawText a))) /\
            addLink resolveURL u m a =
              m ++ [(k, mkLink k (strSlice0 120 (rawText a)))].
Proof.
  unfold addLink.
  destruct (skipHref (href a)) eqn:Hs; [now left|].
  destruct (resolveURL (href a) u) as [k|] eqn:Hr; [|now left].
  destruct (has m k) eqn:Hh; simpl; [now left|].
  right. exists k. repeat split; auto. now apply set_fresh.
Qed.

Lemma addLink_skip (u : string) (m : t) (a : RawAnchor) :
  qualifies resolveURL u a = false -> addLink resolveURL u m a = m.
Proof.
  unfold qualifies, addLink. intros H.
  destruct (skipHref (href a)); [reflexivity|].
  destruct (resolveURL (href a) u); [discriminate|reflexivity].
Qed.

Lemma addLink_wf (u : string) (m : t) (a : RawAnchor) :
  wf m -> wf (addLink resolveURL u m a).
Proof.
  intros Hm. destruct (addLink_cases u m a) as [->|[k [Hk [_ ->]]]].
  - assumption.
  - now apply wf_snoc.
Qed.

Lemma fold_addLink_wf (u : string) (raw : list RawAnchor) (m : t) :
  wf m -> wf (fold_left (addLink resolveURL u) raw m).
Proof.
  revert m. induction raw as [|a r IH]; simpl; intros m Hm; [assumption|].
  apply IH. now apply addLink_wf.
Qed.

Lemma linksOf_wf (u : string) (raw : list RawAnchor) :
  wf (linksOf resolveURL u raw).
Proof. apply fold_addLink_wf, wf_empty. Qed.

Lemma fold_addLink_source (u : string) (raw : list RawAnchor) (m : t)
    (k : string) (l : LinkInfo) :
  In (k, l) (fold_left (addLink resolveURL u) raw m) ->
  In (k, l) m \/ exists a, In a raw /\ builtFrom resolveURL u a k l.
Proof.
  revert m. induction raw as [|a r IH]; simpl; intros m H; [now left|].
  apply IH in H. destruct H as [H|[a' [Ha' Hb]]].
  - destruct (addLink_cases u m a) as [E|[k' [_ [Hb E]]]];
      rewrite E in H.
    + now left.
    + apply in_app_or in H. destruct H as [H|[H|[]]]; [now left|].
      inversion H; subst. right. exists a. auto.
  - right. exists a'. auto.
Qed.

Lemma fold_addLink_filter (u : string) (raw : list RawAnchor) (m : t) :
  fold_left (addLink resolveURL u) raw m =
  fold_left (addLink resolveURL u) (filter (qualifies resolveURL u) raw) m.
Proof.
  revert m. induction raw as [|a r IH]; simpl; intros m; [reflexivity|].
  destruct (qualifies resolveURL u a) eqn:Hq; simpl.
  - apply IH.
  - rewrite addLink_skip by assumption. apply IH.
Qed.

(** ** The footer variant *)

Lemma addFooterLink_cases (u : string) (pn m : t) (a : RawAnchor) :
  addFooterLink resolveURL u pn m a = m \/
  exists k, has m k = false /\ has pn k = false /\
            addFooterLink resolveURL u pn m a =
              m ++ [(k, mkLink k (strSlice0 120 (rawText a)))].
Proof.
  unfold addFooterLink.
  destruct (skipHref (href a)) eqn:Hs; [now left|].
  destruct (resolveURL (href a) u) as [k|] eqn:Hr; [|now left].
  destruct (has m k) eqn:Hh; simpl; [now left|].
  destruct (has pn k) eqn:Hp; simpl; [now left|].
  right. exists k. repeat split; auto. now apply set_fresh.
Qed.

Lemma footerOk_empty (pn : t) : footerOk pn empty.
Proof. split; [apply wf_empty|intros k []]. Qed.

Lemma fold_addFooterLink_ok (u : string) (pn : t)
    (raw : list RawAnchor) (m : t) :
  footerOk pn m ->
  footerOk pn (fold_left (addFooterLink resolveURL u pn) raw m).
Proof.
  revert m. induction raw as [|a r IH]; simpl; intros m Hm; [assumption|].
  apply IH.
  destruct (addFooterLink_cases u pn m a) as [->|[k [Hk [Hp ->]]]];
    [assumption|].
  destruct Hm as [Hw Hd]. split.
  - now apply wf_snoc.
  - intros k'. unfold keys. rewrite map_app, in_app_iff. simpl.
    intros [H|[<-|[]]]; [now apply Hd|assumption].
Qed.
End CollectorFacts.

(* ================================================================== *)
(** * The snapshot differ *)

Lemma diffLinks_acc (before after : JsMap.t) (acc : list LinkInfo) :
  fold_left
    (fun newLinks (e : string * LinkInfo) =>
       let (u, info) := e in
       if negb (JsMap.has before u) then newLinks ++ [info] else newLinks)
    after acc
  = acc ++ diffSpec before after.
Proof.
  revert acc. induction after as [|[k v] r IH]; intros acc; simpl.
  - now rewrite app_nil_r.
  - rewrite IH. unfold diffSpec. simpl.
    destruct (JsMap.has before k); simpl; [reflexivity|].
    now rewrite <- app_assoc.
Qed.

Lemma diffLinks_diffSpec (before after : JsMap.t) :
  diffLinks before after = diffSpec before after.
Proof. unfold diffLinks. now rewrite diffLinks_acc. Qed.

Lemma diffSpec_In (before after : JsMap.t) (l : LinkInfo) :
  In l (diffSpec before after) <->
  exists k, In (k, l) after /\ JsMap.has before k = false.
Proof.
  unfold diffSpec. rewrite in_map_iff. split.
  - intros [[k v] [<- H]]. apply filter_In in H. destruct H as [H1 H2].
    exists k. split; [assumption|]. simpl in H2.
    now apply negb_true_iff in H2.
  - intros [k [H1 H2]]. exists (k, l). split; [reflexivity|].
    apply filter_In. split; [assumption|]. simpl. now rewrite H2.
Qed.

Lemma diffSpec_self (a : JsMap.t) : diffSpec a a = [].
Proof.
  destruct (diffSpec a a) as [|l r] eqn:E; [reflexivity|].
  assert (H : In l (diffSpec a a)) by (rewrite E; now left).
  apply diffSpec_In in H. destruct H as [k [H1 H2]].
  apply JsMapFacts.has_entry in H1. congruence.
Qed.

Lemma diffSpec_NoDup (before after : JsMap.t) :
  JsMap.wf after -> NoDup (map url (diffSpec before after)).
Proof.
  intros [Hn Hf]. unfold diffSpec, JsMap.keys in *.
  induction after as [|[k v] r IH]; simpl; [constructor|].
  inversion Hn; subst. inversion Hf; subst. simpl in *.
  destruct (JsMap.has before k); simpl; [now apply IH|].
  constructor; [|now apply IH].
  intros Hin. apply H1. rewrite in_map_iff in Hin.
  destruct Hin as [l [Hl Hin]]. rewrite in_map_iff in Hin.
  destruct Hin as [[k' v'] [<- Hin]]. apply filter_In in Hin.
  destruct Hin as [Hin _]. rewrite Forall_forall in H4.
  specialize (H4 _ Hin). simpl in *. apply in_map_iff.
  exists (k', v'). split; [simpl; congruence|assumption].
Qed.

(** [C5] The snapshot differ.  For all link maps [before] and [after],
    [diffLinks before after] is exactly the list of the links of [after]
    whose key is absent from [before], in [after]'s iteration order and with
    [after]'s records (so [after]'s labels); a link is in the result exactly
    when [after] holds it under a key that [before] lacks; and
    [diffLinks a a] is empty for every [a].  The differ is a function of its
    two arguments alone. *)
Theorem diffLinks_exactly_new_links (before after : JsMap.t) :
  diffLinks before after = diffSpec before after /\
  (forall l, In l (diffLinks before after) <->
             exists k, In (k, l) after /\ JsMap.has before k = false) /\
  diffLinks after after = [].
Proof.
  repeat split.
  - apply diffLinks_diffSpec.
  - rewrite diffLinks_diffSpec. apply diffSpec_In.
  - rewrite diffLinks_diffSpec. apply diffSpec_In.
  - rewrite diffLinks_diffSpec. apply diffSpec_self.
Qed.

(* ================================================================== *)
(** * Reasoning about the orchestrator's locals *)

Section Logic.
Context {W : Type} {B : Browser W}.

Lemma triple_ret {A} (a : A) (P : Vars -> Prop) (Q : A -> Vars -> Prop) E :
  (forall v, P v -> Q a v) -> triple (W := W) P (ret a) Q E.
Proof. intros H s Hs. simpl. auto. Qed.

Lemma triple_bind {A C} (m : @M W A) (k : A -> @M W C) P R Q E :
  triple P m R E -> (forall a, triple (R a) (k a) Q E) ->
  triple P (bind m k) Q E.
Proof.
  intros Hm Hk s Hs. unfold bind. specialize (Hm s Hs).
  destruct (m s) as [s' [a|e]]; [|assumption].
  now apply Hk.
Qed.

Lemma triple_tryCatch {A} (m : @M W A) (h : string -> @M W A) P Q E' E :
  triple P m Q E' -> (forall e, triple E' (h e) Q E) ->
  triple P (tryCatch m h) Q E.
Proof.
  intros Hm Hh s Hs. unfold tryCatch. specialize (Hm s Hs).
  destruct (m s) as [s' [a|e]]; [assumption|].
  now apply Hh.
Qed.

Lemma triple_conseq {A} (m : @M W A) (P P' : Vars -> Prop)
    (Q Q' : A -> Vars -> Prop) (E E' : Vars -> Prop) :
  triple P' m Q' E' ->
  (forall v, P v -> P' v) -> (forall a v, Q' a v -> Q a v) ->
  (forall v, E' v -> E v) ->
  triple P m Q E.
Proof.
  intros Hm HP HQ HE s Hs. specialize (Hm s (HP _ Hs)).
  destruct (m s) as [s' [a|e]]; auto.
Qed.

(** A pure fact can be moved out of the precondition. *)
Lemma triple_pure {A} (m : @M W A) (F : Prop) P Q E :
  (F -> triple P m Q E) -> triple (fun v => P v /\ F) m Q E.
Proof. intros H s [Hs HF]. now apply H. Qed.

(** Browser calls do not touch the locals. *)
Lemma triple_call {A} (c : Call) (reply : A -> Reply)
    (op : W -> W * outcome A) (P : Vars -> Prop) :
  triple P (call c reply op) (fun _ => P) P.
Proof.
  intros s Hs. unfold call. destruct (op (world s)) as [w' [a|e]]; exact Hs.
Qed.

Lemma triple_getTotal (P : Vars -> Prop) E :
  triple P (@getTotal W) (fun t v => P v /\ t = totalLinksFound v) E.
Proof. intros s Hs. simpl. auto. Qed.

Lemma triple_pushSection (sec : NavSection) (Q : unit -> Vars -> Prop) E :
  triple (W := W) (fun v => Q tt (mkVars (sections v ++ [sec]) (totalLinksFound v)
                           (errors v)))
         (pushSection sec) Q E.
Proof. intros s Hs. exact Hs. Qed.

Lemma triple_addTotal (n : Z) (Q : unit -> Vars -> Prop) E :
  triple (W := W) (fun v => Q tt (mkVars (sections v) (totalLinksFound v + n)
                           (errors v)))
         (addTotal n) Q E.
Proof. intros s Hs. exact Hs. Qed.

Lemma triple_pushError (msg : string) (Q : unit -> Vars -> Prop) E :
  triple (W := W) (fun v => Q tt (mkVars (sections v) (totalLinksFound v)
                           (errors v ++ [msg])))
         (pushError msg) Q E.
Proof. intros s Hs. exact Hs. Qed.

(** Loops: an invariant kept by every turn is kept by the loop. *)
Lemma triple_forOf {A} (l : list A) (body : A -> @M W completion)
    (I : Vars -> Prop) E :
  (forall x, In x l -> triple I (body x) (fun _ => I) E) ->
  triple I (forOf l body) (fun _ => I) E.
Proof.
  induction l as [|x r IH]; intros Hb.
  - now apply triple_ret.
  - simpl. eapply triple_bind; [apply Hb; now left|].
    intros c. assert (Hr : triple I (forOf r body) (fun _ => I) E).
    { apply IH. intros y Hy. apply Hb. now right. }
    destruct c; try exact Hr. now apply triple_ret.
Qed.

Lemma triple_forAcc {A} (l : list A) (acc : JsMap.t)
    (body : A -> JsMap.t -> @M W JsMap.t)
    (I : Vars -> Prop) (R : JsMap.t -> Prop) E :
  (forall x m, R m -> triple I (body x m) (fun m' v => I v /\ R m') E) ->
  R acc ->
  triple I (forAcc l acc body) (fun m' v => I v /\ R m') E.
Proof.
  intros Hb. revert acc. induction l as [|x r IH]; intros acc Hacc.
  - apply triple_ret. auto.
  - simpl. eapply triple_bind; [apply Hb; assumption|].
    intros m'. apply triple_pure. intros Hm'. now apply IH.
Qed.
End Logic.

(* ================================================================== *)
(** * The phases keep the report well built *)

Section Phases.
Context {W : Type} {B : Browser W}.
Variable resolveURL : string -> string -> option string.
Variable u : string.
Variable maxLinks : Z.

Lemma triple_call_keep {A} (c : Call) (reply : A -> Reply)
    (op : W -> W * outcome A) (P E : Vars -> Prop) :
  (forall v, P v -> E v) -> triple P (call c reply op) (fun _ => P) E.
Proof.
  intros H. eapply triple_conseq; [apply triple_call with (P := P)|..]; auto.
Qed.

Lemma triple_collectLinks (P E : Vars -> Prop) :
  (forall v, P v -> E v) ->
  triple P (collectLinks resolveURL u)
    (fun m v => P v /\ JsMap.wf m) E.
Proof.
  intros H. unfold collectLinks.
  eapply triple_bind; [apply triple_call_keep; exact H|].
  intros raw. apply triple_ret. intros v Hv. split; [assumption|].
  apply linksOf_wf.
Qed.

Lemma triple_dismiss (P : Vars -> Prop) :
  triple P dismissCookieBanners (fun _ => P) never.
Proof.
  unfold dismissCookieBanners. apply triple_forOf. intros sel _.
  eapply triple_tryCatch with (E' := P);
    [|intros e; now apply triple_ret].
  eapply triple_bind; [apply triple_call_keep; auto|].
  intros [|].
  - eapply triple_bind; [apply triple_call_keep; auto|]. intros ?.
    eapply triple_bind; [apply triple_call_keep; auto|]. intros ?.
    now apply triple_ret.
  - now apply triple_ret.
Qed.

Lemma triple_scanPrimaryNav (P : Vars -> Prop) :
  triple P (scanPrimaryNav resolveURL u)
    (fun pn v => P v /\ JsMap.wf pn) never.
Proof.
  unfold scanPrimaryNav. apply triple_forAcc; [|apply JsMapFacts.wf_empty].
  intros sel m Hm.
  eapply triple_tryCatch with (E' := P);
    [|intros e; apply triple_ret; auto].
  eapply triple_bind; [apply triple_call_keep; auto|].
  intros raw. apply triple_ret. intros v Hv. split; [assumption|].
  now apply fold_addLink_wf.
Qed.

Lemma triple_scanFooter (pn : JsMap.t) (P : Vars -> Prop) :
  triple P (scanFooter resolveURL u pn)
    (fun fl v => P v /\ footerOk pn fl) never.
Proof.
  unfold scanFooter. apply triple_forAcc; [|apply footerOk_empty].
  intros sel m Hm.
  eapply triple_tryCatch with (E' := P);
    [|intros e; apply triple_ret; auto].
  eapply triple_bind; [apply triple_call_keep; auto|].
  intros raw. apply triple_ret. intros v Hv. split; [assumption|].
  now apply fold_addFooterLink_ok.
Qed.

Variable pn : JsMap.t.

(** ** Invariants of the interactive phases

    [I] is any property of the locals that survives the three ways the
    later phases change them while budget is left: a hover section, a
    hamburger section, a footer section, and a footer error. *)
Variable I : Vars -> Prop.

Hypothesis keep_hover : forall v itemText before after,
  JsMap.wf after -> diffLinks before after <> [] ->
  I v -> totalLinksFound v < maxLinks ->
  I (emit v (mkSection (String.append "Dropdown: " itemText)
               (slice0 (maxLinks - totalLinksFound v)
                  (diffLinks before after)))).

Hypothesis keep_hamburger : forall v before after,
  JsMap.wf after -> diffLinks before after <> [] ->
  I v -> totalLinksFound v < maxLinks ->
  I (emit v (mkSection "Mobile/Hamburger Menu"
               (slice0 (maxLinks - totalLinksFound v)
                  (diffLinks before after)))).

Hypothesis keep_footer : forall v footerLinks,
  footerOk pn footerLinks -> footerLinks <> [] ->
  I v -> totalLinksFound v < maxLinks ->
  I (emit v (mkSection "Footer"
               (slice0 (maxLinks - totalLinksFound v)
                  (JsMap.values footerLinks)))).

Hypothesis keep_error : forall v msg,
  I v -> totalLinksFound v < maxLinks ->
  I (mkVars (sections v) (totalLinksFound v) (errors v ++ [msg])).

Local Notation "'Room'" := (fun v => I v /\ totalLinksFound v < maxLinks).

Lemma lengthZ_pos_nonnil {A} (l : list A) : (0 <? lengthZ l) = true -> l <> [].
Proof. intros H ->. discriminate. Qed.

Lemma triple_emitRevealed (lbl : string) (revealed : list LinkInfo) :
  (revealed <> [] -> forall v, I v -> totalLinksFound v < maxLinks ->
     I (emit v (mkSection lbl
                  (slice0 (maxLinks - totalLinksFound v) revealed)))) ->
  triple (W := W) Room (emitRevealed maxLinks lbl revealed)
    (fun _ => I) never.
Proof.
  intros H s [Hi Hlt]. unfold emitRevealed.
  destruct (0 <? lengthZ revealed) eqn:E.
  - unfold bind, getTotal, pushSection, addTotal. simpl.
    apply lengthZ_pos_nonnil in E. exact (H E _ Hi Hlt).
  - exact Hi.
Qed.

Lemma triple_hoverItem (sel : string) (i : nat) :
  triple I (hoverItem resolveURL u maxLinks sel i) (fun _ => I) never.
Proof.
  unfold hoverItem.
  eapply triple_bind; [apply triple_getTotal|]. intros t.
  destruct (maxLinks <=? t) eqn:E.
  - apply triple_ret. now intros v [H _].
  - apply Z.leb_gt in E.
    eapply triple_bind with (R := fun _ => I);
      [|intros ?; now apply triple_ret].
    eapply triple_tryCatch with (E' := I);
      [|intros e; now apply triple_ret].
    eapply triple_conseq with (P' := Room) (Q' := fun _ => I) (E' := I);
      [|intros v [Hv ->]; now split|auto|auto].
    eapply triple_bind; [apply triple_call_keep; now intros v [Hv _]|].
    intros txt.
    eapply triple_bind; [apply triple_collectLinks; now intros v [Hv _]|].
    intros before. apply triple_pure. intros _.
    eapply triple_bind; [apply triple_call_keep; now intros v [Hv _]|].
    intros ?.
    eapply triple_bind; [apply triple_call_keep; now intros v [Hv _]|].
    intros ?.
    eapply triple_bind; [apply triple_collectLinks; now intros v [Hv _]|].
    intros after. apply triple_pure. intros Hafter.
    eapply triple_conseq;
      [apply triple_emitRevealed|auto|auto|intros v []].
    intros Hne v Hv Hc. now apply keep_hover.
Qed.

Lemma triple_hoverPhase :
  triple I (hoverPhase resolveURL u maxLinks) (fun _ => I) never.
Proof.
  unfold hoverPhase. apply triple_forOf. intros sel _. unfold hoverScope.
  eapply triple_bind with (R := fun _ => I).
  - eapply triple_tryCatch with (E' := I);
      [|intros e; now apply triple_ret].
    eapply triple_bind; [apply triple_call_keep; auto|]. intros count.
    destruct (count =? 0)%nat; [now apply triple_ret|].
    eapply triple_bind with (R := fun _ => I);
      [|intros ?; now apply triple_ret].
    eapply triple_conseq with (E' := never);
      [apply triple_forOf; intros i _; apply triple_hoverItem
      |auto|auto|intros v []].
  - intros [| |]; try now apply triple_ret.
    eapply triple_bind; [apply triple_getTotal|]. intros t.
    destruct (maxLinks <=? t); apply triple_ret; now intros v [H _].
Qed.

Lemma triple_closeToggle (sel : string) (P : Vars -> Prop) :
  triple P (closeToggle sel) (fun _ => P) never.
Proof.
  unfold closeToggle.
  eapply triple_tryCatch with (E' := P); [|intros e; now apply triple_ret].
  eapply triple_bind; [apply triple_call_keep; auto|]. intros ?.
  apply triple_call_keep; auto.
Qed.

Lemma triple_hamburgerPhase :
  triple I (hamburgerPhase resolveURL u maxLinks) (fun _ => I) never.
Proof.
  unfold hamburgerPhase. apply triple_forOf. intros sel _.
  unfold hamburgerStep.
  eapply triple_bind; [apply triple_getTotal|]. intros t.
  destruct (maxLinks <=? t) eqn:E.
  - apply triple_ret. now intros v [H _].
  - apply Z.leb_gt in E.
    eapply triple_tryCatch with (E' := I);
      [|intros e; now apply triple_ret].
    eapply triple_conseq with (P' := Room) (Q' := fun _ => I) (E' := I);
      [|intros v [Hv ->]; now split|auto|auto].
    eapply triple_bind; [apply triple_call_keep; now intros v [Hv _]|].
    intros vis. destruct vis; simpl;
      [|apply triple_ret; now intros v [Hv _]].
    eapply triple_bind; [apply triple_collectLinks; now intros v [Hv _]|].
    intros before. apply triple_pure. intros _.
    eapply triple_bind; [apply triple_call_keep; now intros v [Hv _]|].
    intros ?.
    eapply triple_bind; [apply triple_call_keep; now intros v [Hv _]|].
    intros ?.
    eapply triple_bind; [apply triple_collectLinks; now intros v [Hv _]|].
    intros after. apply triple_pure. intros Hafter.
    eapply triple_bind with (R := fun _ => I).
    + eapply triple_conseq;
        [apply triple_emitRevealed|auto|auto|intros v []].
      intros Hne v Hv Hc. now apply keep_hamburger.
    + intros ?.
      eapply triple_bind with (R := fun _ => I);
        [|intros ?; now apply triple_ret].
      eapply triple_conseq;
        [apply triple_closeToggle with (P := I)|auto|auto|intros v []].
Qed.

Lemma triple_emitFooter (footerLinks : JsMap.t) :
  footerOk pn footerLinks ->
  triple (W := W) Room (emitFooter maxLinks footerLinks)
    (fun _ => I) never.
Proof.
  intros H s [Hi Hlt]. unfold emitFooter.
  destruct (0 <? JsMap.size footerLinks) eqn:E.
  - unfold bind, getTotal, pushSection, addTotal. simpl.
    apply lengthZ_pos_nonnil in E. now apply keep_footer.
  - exact Hi.
Qed.

Lemma triple_footerPhase :
  triple I (footerPhase resolveURL u maxLinks pn) (fun _ => I) never.
Proof.
  unfold footerPhase.
  eapply triple_bind; [apply triple_getTotal|]. intros t.
  destruct (t <? maxLinks) eqn:E.
  - apply Z.ltb_lt in E.
    eapply triple_tryCatch with (E' := Room).
    + eapply triple_conseq with (P' := Room) (Q' := fun _ => I)
        (E' := Room); [|intros v [Hv ->]; now split|auto|auto].
      eapply triple_bind; [apply triple_call_keep; auto|].
      intros ?.
      eapply triple_bind; [apply triple_call_keep; auto|].
      intros ?.
      eapply triple_bind
        with (R := fun fl v => (I v /\ totalLinksFound v < maxLinks) /\
                               footerOk pn fl).
      * eapply triple_conseq with (E' := never);
          [apply triple_scanFooter with (P := Room)|auto|auto|intros v []].
      * intros fl. apply triple_pure. intros Hfl.
        eapply triple_conseq;
          [apply triple_emitFooter|auto|auto|intros v []]; assumption.
    + intros e s [Hs Hlt]. now apply keep_error.
  - apply triple_ret. now intros v [H _].
Qed.

(** Lines 157-294: the phases that follow the primary navigation section. *)
Lemma triple_laterPhases :
  triple I
    (bind (hoverPhase resolveURL u maxLinks) (fun _ =>
     bind (hamburgerPhase resolveURL u maxLinks) (fun _ =>
     footerPhase resolveURL u maxLinks pn)))
    (fun _ => I) never.
Proof.
  eapply triple_bind; [apply triple_hoverPhase|]. intros ?.
  eapply triple_bind; [apply triple_hamburgerPhase|]. intros ?.
  apply triple_footerPhase.
Qed.
End Phases.

Section WellBuilt.
Context {W : Type} {B : Browser W}.
Variable resolveURL : string -> string -> option string.
Variable u : string.
Variable maxLinks : Z.
Variable pn : JsMap.t.

Lemma triple_emitPrimaryNav :
  triple (W := W) (fun v => sections v = [] /\ totalLinksFound v = 0)
    (emitPrimaryNav maxLinks pn) (fun _ => wellBuilt maxLinks pn) never.
Proof.
  intros s [Hs Ht]. unfold emitPrimaryNav.
  destruct (0 <? JsMap.size pn) eqn:E.
  - unfold bind, pushSection, addTotal, wellBuilt. simpl.
    rewrite Hs, Ht. simpl.
    apply (built_snoc maxLinks pn [] 0); [constructor|].
    constructor; [reflexivity|]. now apply lengthZ_pos_nonnil in E.
  - simpl. unfold wellBuilt. rewrite Hs, Ht. constructor.
Qed.

Lemma triple_phases :
  triple (fun v => sections v = [] /\ totalLinksFound v = 0)
    (phases resolveURL u maxLinks pn)
    (fun _ => wellBuilt maxLinks pn) never.
Proof.
  unfold phases.
  eapply triple_bind; [apply triple_emitPrimaryNav|]. intros ?.
  apply triple_laterPhases; unfold wellBuilt, emit; simpl.
  - intros v t bf af Ha Hne Hv Hlt. apply built_snoc with (sec := mkSection _ _);
      [assumption|]. now constructor.
  - intros v bf af Ha Hne Hv Hlt. apply built_snoc with (sec := mkSection _ _);
      [assumption|]. now constructor.
  - intros v fl Hfl Hne Hv Hlt. apply built_snoc with (sec := mkSection _ _);
      [assumption|]. now constructor.
  - auto.
Qed.
End WellBuilt.

(* ================================================================== *)
(** * Consequences of being well built *)

Lemma sumLinks_app (a b : list NavSection) :
  sumLinks (a ++ b) = sumLinks a + sumLinks b.
Proof.
  induction a as [|x r IH]; simpl; [reflexivity|]. rewrite IH. lia.
Qed.

Lemma sumLinks_nonneg (a : list NavSection) : 0 <= sumLinks a.
Proof.
  induction a as [|x r IH]; simpl; [lia|]. unfold lengthZ. lia.
Qed.

Lemma built_total (maxLinks : Z) (pn : JsMap.t) secs total :
  built maxLinks pn secs total -> total = sumLinks secs.
Proof.
  induction 1 as [|secs total sec _ IH _]; [reflexivity|].
  rewrite sumLinks_app. simpl. lia.
Qed.

Lemma emitted_length (maxLinks : Z) (pn : JsMap.t) consumed sec :
  0 <= maxLinks -> 0 <= consumed ->
  emitted maxLinks pn consumed sec ->
  lengthZ (links sec) <= maxLinks - consumed.
Proof.
  intros Hm Hc H. unfold lengthZ.
  destruct H; simpl; subst; rewrite slice0_length by lia; lia.
Qed.

Lemma emitted_nonempty (maxLinks : Z) (pn : JsMap.t) consumed sec :
  1 <= maxLinks -> emitted maxLinks pn consumed sec -> links sec <> [].
Proof.
  intros Hm H. destruct H; simpl; apply slice0_nil_iff; try lia; try assumption.
  - unfold JsMap.values. destruct pn; [congruence|discriminate].
  - unfold JsMap.values. destruct footerLinks; [congruence|discriminate].
Qed.

Lemma emitted_NoDup (maxLinks : Z) (pn : JsMap.t) consumed sec :
  JsMap.wf pn -> emitted maxLinks pn consumed sec ->
  NoDup (map url (links sec)).
Proof.
  intros Hpn H. destruct H as [| t b a Ha | b a Ha | fl [Hfl _]]; simpl;
    apply slice0_NoDup_map.
  - now apply JsMapFacts.wf_values_NoDup.
  - rewrite diffLinks_diffSpec. now apply diffSpec_NoDup.
  - rewrite diffLinks_diffSpec. now apply diffSpec_NoDup.
  - now apply JsMapFacts.wf_values_NoDup.
Qed.

Lemma built_bounds (maxLinks : Z) (pn : JsMap.t) secs total :
  0 <= maxLinks -> built maxLinks pn secs total -> 0 <= total <= maxLinks.
Proof.
  intros Hm. induction 1 as [|secs total sec _ IH He]; [lia|].
  assert (H := emitted_length _ _ _ _ Hm (proj1 IH) He).
  unfold lengthZ in *. lia.
Qed.

Lemma built_Forall (maxLinks : Z) (pn : JsMap.t) secs total :
  built maxLinks pn secs total ->
  Forall (fun sec => exists consumed, emitted maxLinks pn consumed sec) secs.
Proof.
  induction 1 as [|secs total sec _ IH He]; [constructor|].
  apply Forall_app. split; [assumption|]. constructor; [eauto|constructor].
Qed.

(** Every section was emitted against the links of the sections before
    it. *)
Lemma built_prefix (maxLinks : Z) (pn : JsMap.t) secs total :
  built maxLinks pn secs total ->
  forall pre sec post, secs = pre ++ sec :: post ->
    built maxLinks pn pre (sumLinks pre) /\
    emitted maxLinks pn (sumLinks pre) sec.
Proof.
  induction 1 as [|secs total sec' Hb IH He]; intros pre sec post Heq.
  - destruct pre; discriminate.
  - destruct (exists_last (l := sec :: post) ltac:(discriminate))
      as [post' [last Hl]].
    rewrite Hl, app_assoc in Heq. apply app_inj_tail in Heq.
    destruct Heq as [Hsecs <-].
    destruct post' as [|p post''].
    + simpl in Hl. destruct post; [|destruct post; discriminate].
      inversion Hl; subst sec'. rewrite app_nil_r in Hsecs. subst secs.
      rewrite <- (built_total _ _ _ _ Hb). auto.
    + simpl in Hl. inversion Hl; subst p.
      apply (IH pre sec post''). assumption.
Qed.

Lemma dropdown_not_primary (t : string) :
  String.append "Dropdown: " t <> "Primary Nav".
Proof. simpl. discriminate. Qed.

Lemma dropdown_not_footer (t : string) :
  String.append "Dropdown: " t <> "Footer".
Proof. simpl. discriminate. Qed.

Lemma emitted_primary_links (maxLinks : Z) (pn : JsMap.t) consumed sec :
  JsMap.wf pn -> emitted maxLinks pn consumed sec ->
  label sec = "Primary Nav" ->
  forall l, In l (links sec) -> JsMap.has pn (url l) = true.
Proof.
  intros Hpn H Hl l Hin. destruct H; simpl in *.
  - apply slice0_In in Hin. now apply JsMapFacts.wf_value_key.
  - now apply dropdown_not_primary in Hl.
  - discriminate.
  - discriminate.
Qed.

Lemma emitted_footer_links (maxLinks : Z) (pn : JsMap.t) consumed sec :
  emitted maxLinks pn consumed sec -> label sec = "Footer" ->
  forall l, In l (links sec) -> JsMap.has pn (url l) = false.
Proof.
  intros H Hl l Hin. destruct H as [| | | fl [Hw Hd]]; simpl in *.
  - discriminate.
  - now apply dropdown_not_footer in Hl.
  - discriminate.
  - apply slice0_In in Hin. apply Hd. apply JsMapFacts.has_In.
    now apply JsMapFacts.wf_value_key.
Qed.

(* ================================================================== *)
(** * The whole run *)

Section Run.
Context {W : Type} {B : Browser W}.
Variable resolveURL : string -> string -> option string.
Variable u : string.
Variable maxLinks : Z.

Lemma triple_report (P E : Vars -> Prop) :
  triple (W := W) P (report u)
    (fun rep v => P v /\
       rep = Report.mk u (totalLinksFound v) (sections v) (errors v)) E.
Proof. intros s Hs. simpl. auto. Qed.

Lemma triple_openAndScan :
  triple freshVars (openAndScan resolveURL u)
    (fun pn v => freshVars v /\ JsMap.wf pn) freshVars.
Proof.
  unfold openAndScan.
  eapply triple_bind; [apply triple_call_keep; auto|]. intros ?.
  eapply triple_bind; [apply triple_call_keep; auto|]. intros ?.
  eapply triple_bind with (R := fun _ => freshVars).
  { eapply triple_conseq;
      [apply triple_dismiss with (P := freshVars)|auto|auto|intros v []]. }
  intros ?.
  eapply triple_bind; [apply triple_collectLinks; auto|].
  intros baseline. apply triple_pure. intros _.
  eapply triple_conseq;
    [apply triple_scanPrimaryNav with (P := freshVars)
    |auto|auto|intros v []].
Qed.

Lemma triple_tryBlock :
  triple freshVars (tryBlock resolveURL u maxLinks)
    (fun rep _ => goodReport maxLinks rep) freshVars.
Proof.
  unfold tryBlock.
  eapply triple_bind; [apply triple_openAndScan|].
  intros pn. apply triple_pure. intros Hpn.
  eapply triple_bind with (R := fun _ => wellBuilt maxLinks pn).
  { eapply triple_conseq;
      [apply triple_phases|intros v (H1 & H2 & _); auto|auto|intros v []]. }
  intros ?.
  eapply triple_conseq with (P' := wellBuilt maxLinks pn) (E' := never);
    [apply triple_report|auto| |intros v []].
  simpl. intros rep v [Hv ->]. exists pn. auto.
Qed.

Lemma triple_catchBlock (message : string) :
  triple (W := W) freshVars (catchBlock u message)
    (fun rep _ => goodReport maxLinks rep) never.
Proof.
  intros s (Hs & Ht & He). unfold catchBlock, bind, pushError, report.
  simpl. exists JsMap.empty. split; [apply JsMapFacts.wf_empty|].
  simpl. rewrite Hs, Ht. constructor.
Qed.

Lemma triple_guarded :
  triple freshVars
    (tryCatch (tryBlock resolveURL u maxLinks) (catchBlock u))
    (fun rep _ => goodReport maxLinks rep) never.
Proof.
  eapply triple_tryCatch; [apply triple_tryBlock|].
  apply triple_catchBlock.
Qed.
End Run.

Lemma call_vars {W A} (c : Call) (reply : A -> Reply)
    (op : W -> W * outcome A) (s : State W) :
  vars (fst (call c reply op s)) = vars s.
Proof. unfold call. now destruct (op (world s)). Qed.

(** Every report that [execute] returns is well built. *)
Lemma execute_goodReport {W} {B : Browser W} resolveURL u rawMaxLinks
    (w : W) s rep :
  execute resolveURL u rawMaxLinks w = (s, Ok rep) ->
  goodReport (budgetOf rawMaxLinks) rep.
Proof.
  unfold execute, run. fold (budgetOf rawMaxLinks).
  set (maxLinks := budgetOf rawMaxLinks).
  unfold bind at 1.
  destruct (getPageM (initial w)) as [s1 [[]|e]] eqn:E1; [|discriminate].
  assert (Hv : vars s1 = vars (initial w)).
  { unfold getPageM in E1.
    rewrite <- (call_vars CGetPage done getPage (initial w)).
    now rewrite E1. }
  unfold tryFinally.
  assert (H := triple_guarded resolveURL u maxLinks s1).
  destruct (tryCatch _ _ s1) as [s2 [rep'|e]].
  - intros Heq. destruct (closeM s2) as [s3 [[]|e]]; [|discriminate].
    inversion Heq; subst. apply H. rewrite Hv. repeat split.
  - exfalso. apply H. rewrite Hv. repeat split.
Qed.

(* ================================================================== *)
(** * The link budget *)

(** [C2] Budget.  For every run with a positive integer [maxLinks] (given,
    or the default 50) that returns a report: [totalLinksFound] is at most
    [maxLinks] and equals the sum of the sections' link counts; and every
    section was cut to what was left when it was emitted: with [pre] the
    sections before it, the count consumed so far, [sumLinks pre], lies
    between 0 and [maxLinks], and the section holds at most
    [maxLinks - sumLinks pre] links. *)
Theorem budget_respected {W} {B : Browser W} resolveURL u rawMaxLinks
    (w : W) s rep :
  1 <= budgetOf rawMaxLinks ->
  execute resolveURL u rawMaxLinks w = (s, Ok rep) ->
  Report.totalLinksFound rep <= budgetOf rawMaxLinks /\
  Report.totalLinksFound rep = sumLinks (Report.sections rep) /\
  forall pre sec post, Report.sections rep = pre ++ sec :: post ->
    0 <= sumLinks pre <= budgetOf rawMaxLinks /\
    lengthZ (links sec) <= budgetOf rawMaxLinks - sumLinks pre.
Proof.
  intros Hm Hrun. apply execute_goodReport in Hrun.
  destruct Hrun as [pn [Hpn Hb]].
  assert (H0 : 0 <= budgetOf rawMaxLinks) by lia.
  split; [|split].
  - apply (built_bounds _ _ _ _ H0 Hb).
  - apply (built_total _ _ _ _ Hb).
  - intros pre sec post Heq.
    destruct (built_prefix _ _ _ _ Hb _ _ _ Heq) as [Hpre Hsec].
    assert (Hbd := built_bounds _ _ _ _ H0 Hpre).
    split; [assumption|].
    apply (emitted_length _ _ _ _ H0 (proj1 Hbd) Hsec).
Qed.

(** The witness: scenario E's page explored with [maxLinks = 4]. *)
Lemma budget_respected_witness :
  let rep := Demo.reported Demo.footerSite (Some 4) in
  Report.totalLinksFound rep <= 4 /\
  Report.totalLinksFound rep = sumLinks (Report.sections rep) /\
  forall pre sec post, Report.sections rep = pre ++ sec :: post ->
    0 <= sumLinks pre <= 4 /\
    lengthZ (links sec) <= 4 - sumLinks pre.
Proof.
  apply (@budget_respected _ (Demo.browser Demo.footerSite)
           Demo.resolveURL Demo.base (Some 4) Demo.fresh
           (fst (Demo.explore Demo.footerSite (Some 4)))).
  - simpl. lia.
  - vm_compute. reflexivity.
Defined.

(** [C4] No empty sections.  For every run with a positive integer
    [maxLinks] that returns a report, every section of the report holds at
    least one link. *)
Theorem sections_never_empty {W} {B : Browser W} resolveURL u rawMaxLinks
    (w : W) s rep :
  1 <= budgetOf rawMaxLinks ->
  execute resolveURL u rawMaxLinks w = (s, Ok rep) ->
  Forall (fun sec => links sec <> []) (Report.sections rep).
Proof.
  intros Hm Hrun. apply execute_goodReport in Hrun.
  destruct Hrun as [pn [Hpn Hb]].
  apply built_Forall in Hb. eapply Forall_impl; [|exact Hb].
  intros sec [consumed He]. now apply emitted_nonempty in He.
Qed.

(** The witness: scenario E's page explored with [maxLinks = 4]. *)
Lemma sections_never_empty_witness :
  Forall (fun sec => links sec <> [])
    (Report.sections (Demo.reported Demo.footerSite (Some 4))).
Proof.
  apply (@sections_never_empty _ (Demo.browser Demo.footerSite)
           Demo.resolveURL Demo.base (Some 4) Demo.fresh
           (fst (Demo.explore Demo.footerSite (Some 4)))).
  - simpl. lia.
  - vm_compute. reflexivity.
Defined.

(* ================================================================== *)
(** * Failures *)

Lemma call_eq {W A} (c : Call) (reply : A -> Reply)
    (op : W -> W * outcome A) (s : State W) w' r :
  op (world s) = (w', r) ->
  call c reply op s =
    (mkState (vars s) w'
       (trace s ++ [mkEvent c match r with
                              | Ok a => reply a
                              | Throw _ => RThrow
                              end]), r).
Proof. intros H. unfold call. now rewrite H. Qed.

Lemma bind_ok {W A C} (m : @M W A) (k : A -> @M W C) s s' a :
  m s = (s', Ok a) -> bind m k s = k a s'.
Proof. intros H. unfold bind. now rewrite H. Qed.

Lemma bind_throw {W A C} (m : @M W A) (k : A -> @M W C) s s' e :
  m s = (s', Throw e) -> bind m k s = (s', Throw e).
Proof. intros H. unfold bind. now rewrite H. Qed.

(** [C1] Fatal navigation failure.  If the page is obtained, [page.goto]
    throws with message [msg] and the page closes, then the run stops there:
    nothing but [getPage], [goto] and [close] was called, and the report has
    no section, [totalLinksFound = 0] and [errors = [msg]].  (An HTTP error
    status is not a failure of [page.goto] and does not abort the run.) *)
Theorem navigation_failure_aborts {W} {B : Browser W} resolveURL u
    rawMaxLinks (w w1 w2 w3 : W) (msg : string) :
  getPage w = (w1, Ok tt) ->
  goto u w1 = (w2, Throw msg) ->
  close w2 = (w3, Ok tt) ->
  execute resolveURL u rawMaxLinks w =
    (mkState (mkVars [] 0 [msg]) w3
       [mkEvent CGetPage RDone; mkEvent (CGoto u) RThrow;
        mkEvent CClose RDone],
     Ok (Report.mk u 0 [] [msg])).
Proof.
  intros Hget Hgoto Hclose. unfold execute, run.
  erewrite bind_ok
    by (unfold getPageM; apply call_eq; simpl; exact Hget).
  unfold tryFinally, tryCatch, tryBlock, openAndScan.
  erewrite bind_throw.
  2:{ apply bind_throw. unfold gotoM. apply call_eq. simpl. exact Hgoto. }
  unfold catchBlock, bind, pushError, report. simpl.
  unfold closeM. erewrite call_eq by (simpl; exact Hclose).
  reflexivity.
Qed.

(** The witness: an unreachable host. *)
Lemma navigation_failure_aborts_witness :
  Demo.explore Demo.deadSite None =
    (mkState (mkVars [] 0 ["net::ERR_NAME_NOT_RESOLVED"]) Demo.fresh
       [mkEvent CGetPage RDone; mkEvent (CGoto Demo.base) RThrow;
        mkEvent CClose RDone],
     Ok (Report.mk Demo.base 0 [] ["net::ERR_NAME_NOT_RESOLVED"])).
Proof.
  apply (@navigation_failure_aborts _ (Demo.browser Demo.deadSite)
           Demo.resolveURL Demo.base None
           Demo.fresh Demo.fresh Demo.fresh Demo.fresh);
    reflexivity.
Defined.

(** [C1], as stated, fails: a target that answers with HTTP status 404 is
    explored like any other page.  [page.goto] returns the response, the
    status is never read, and the report carries a section and no error. *)
Lemma http_error_status_is_explored :
  goto (Browser := Demo.browser Demo.notFoundSite) Demo.base Demo.fresh
    = (Demo.fresh, Ok (Some 404)) /\
  snd (Demo.explore Demo.notFoundSite None) =
    Ok (Report.mk Demo.base 2
          [mkSection "Primary Nav"
             [mkLink "https://example.com/" "Home";
              mkLink "https://example.com/pricing" "Pricing"]]
          []).
Proof. split; vm_compute; reflexivity. Qed.

(** Once [openAndScan] has returned, the rest of the [try] block cannot
    throw, and the report is read off the locals. *)
Lemma tryBlock_report {W} {B : Browser W} resolveURL u maxLinks
    (s s2 : State W) rep :
  tryBlock resolveURL u maxLinks s = (s2, Ok rep) ->
  rep = Report.mk u (totalLinksFound (vars s2)) (sections (vars s2))
          (errors (vars s2)).
Proof.
  unfold tryBlock, bind.
  destruct (openAndScan resolveURL u s) as [sa [pn|e]]; [|discriminate].
  destruct (phases resolveURL u maxLinks pn sa) as [sb [[]|e]];
    [|discriminate].
  unfold report. intros H. now inversion H.
Qed.

Lemma extends_emit secs0 v sec : extends secs0 v -> extends secs0 (emit v sec).
Proof.
  intros [more H]. exists (more ++ [sec]). simpl. rewrite H.
  now rewrite app_assoc.
Qed.

Lemma phases_extend {W} {B : Browser W} resolveURL u maxLinks pn
    (s : State W) :
  extends (sections (vars s))
    (vars (fst (phases resolveURL u maxLinks pn s))) /\
  exists s', phases resolveURL u maxLinks pn s = (s', Ok tt).
Proof.
  assert (H : triple (extends (sections (vars s)))
                (phases resolveURL u maxLinks pn)
                (fun _ => extends (sections (vars s))) never).
  { unfold phases. eapply triple_bind with (R := fun _ => extends _).
    - intros s0 Hs0. unfold emitPrimaryNav.
      destruct (0 <? JsMap.size pn); [|exact Hs0].
      unfold bind, pushSection, addTotal. simpl.
      now apply (extends_emit _ _ (mkSection _ _)).
    - intros ?. apply triple_laterPhases.
      + intros. now apply extends_emit.
      + intros. now apply extends_emit.
      + intros. now apply extends_emit.
      + intros v msg Hv _. exact Hv. }
  specialize (H s). 
  destruct (phases resolveURL u maxLinks pn s) as [s' [[]|e]]; simpl.
  - split; [|eauto]. apply H. exists []. now rewrite app_nil_r.
  - exfalso. apply H. exists []. now rewrite app_nil_r.
Qed.

(** [C7] The caller receives a report.  Provided the page is obtained
    ([getPage()] does not throw) and [page.close()] does not throw, every run
    returns a report.  The report is read off the locals as they stand when
    the [try] block ends: unchanged if it ended normally, with the message
    appended to [errors] if it threw; no section is dropped.  And whatever
    sections the locals hold when the phases start are still there, in
    place, when they end, and the phases do not throw. *)
Theorem report_always_returned {W} {B : Browser W} resolveURL u rawMaxLinks
    (w w1 : W) :
  getPage w = (w1, Ok tt) ->
  (forall w', exists w'', close w' = (w'', Ok tt)) ->
  (exists s rep,
     execute resolveURL u rawMaxLinks w = (s, Ok rep) /\
     let (s2, r) :=
       tryBlock resolveURL u (budgetOf rawMaxLinks)
         (mkState (mkVars [] 0 []) w1 [mkEvent CGetPage RDone]) in
     rep = Report.mk u (totalLinksFound (vars s2)) (sections (vars s2))
             (errors (vars s2) ++
              match r with Ok _ => [] | Throw msg => [msg] end)) /\
  (forall pn (s : State W),
     (exists more,
        sections (vars (fst (phases resolveURL u (budgetOf rawMaxLinks) pn s)))
        = sections (vars s) ++ more) /\
     exists s', phases resolveURL u (budgetOf rawMaxLinks) pn s = (s', Ok tt)).
Proof.
  intros Hget Hclose. split.
  - unfold execute, run. fold (budgetOf rawMaxLinks).
    erewrite bind_ok
      by (unfold getPageM; apply call_eq; simpl; exact Hget).
    simpl app. unfold tryFinally, tryCatch.
    destruct (tryBlock resolveURL u (budgetOf rawMaxLinks) _)
      as [s2 [rep|msg]] eqn:Etry.
    + destruct (Hclose (world s2)) as [w3 Hw3].
      unfold closeM. erewrite call_eq by exact Hw3.
      eexists. exists rep. split; [reflexivity|].
      rewrite app_nil_r. now apply tryBlock_report in Etry.
    + unfold catchBlock, bind, pushError, report. simpl.
      destruct (Hclose (world s2)) as [w3 Hw3].
      unfold closeM. erewrite call_eq by (simpl; exact Hw3).
      eexists. eexists. split; reflexivity.
  - intros pn s. apply phases_extend.
Qed.

(** The witness: the page of scenario E. *)
Lemma report_always_returned_witness :
  (exists s rep,
     Demo.explore Demo.footerSite None = (s, Ok rep) /\
     let (s2, r) :=
       @tryBlock _ (Demo.browser Demo.footerSite) Demo.resolveURL Demo.base
         (budgetOf None)
         (mkState (mkVars [] 0 []) Demo.fresh [mkEvent CGetPage RDone]) in
     rep = Report.mk Demo.base (totalLinksFound (vars s2))
             (sections (vars s2))
             (errors (vars s2) ++
              match r with Ok _ => [] | Throw msg => [msg] end)) /\
  (forall pn (s : State Demo.PageState),
     (exists more,
        sections (vars (fst (@phases _ (Demo.browser Demo.footerSite)
                               Demo.resolveURL Demo.base (budgetOf None)
                               pn s)))
        = sections (vars s) ++ more) /\
     exists s', @phases _ (Demo.browser Demo.footerSite)
                  Demo.resolveURL Demo.base (budgetOf None) pn s
                = (s', Ok tt)).
Proof.
  apply (@report_always_returned _ (Demo.browser Demo.footerSite)
           Demo.resolveURL Demo.base None Demo.fresh Demo.fresh).
  - reflexivity.
  - intros w'. exists w'. reflexivity.
Defined.

(** [C7], as stated, fails: [getPage()] is awaited before the [try], so
    when the browser cannot be reached the rejection reaches the caller and
    no report is returned. *)
Lemma unreachable_browser_throws :
  snd (Demo.explore Demo.unreachableSite None) = Throw "connect ECONNREFUSED".
Proof. vm_compute. reflexivity. Qed.

(* ================================================================== *)
(** * A budget of zero *)

Lemma phases_zero {W} {B : Browser W} resolveURL u pn :
  pn <> [] ->
  triple (W := W) freshVars (phases resolveURL u 0 pn)
    (fun _ v => v = mkVars [mkSection "Primary Nav" []] 0 []) never.
Proof.
  intros Hpn. unfold phases.
  eapply triple_bind
    with (R := fun _ v => v = mkVars [mkSection "Primary Nav" []] 0 []).
  - intros s (Hs & Ht & He). unfold emitPrimaryNav.
    destruct (0 <? JsMap.size pn) eqn:E.
    + unfold bind, pushSection, addTotal. simpl.
      rewrite Hs, Ht, He, slice0_zero. reflexivity.
    + destruct pn; [congruence|discriminate].
  - intros ?. apply triple_laterPhases; intros; subst; simpl in *; lia.
Qed.

(** [C10] A budget of zero.  With [maxLinks = 0], when the page loads and
    the primary navigation scan finds at least one link (and the page
    closes), the report holds exactly one section, labelled "Primary Nav",
    whose link list is empty, [totalLinksFound] is 0 and no error is
    recorded. *)
Theorem zero_budget_empty_primary_section {W} {B : Browser W} resolveURL u
    (w w1 : W) (s1 : State W) (pn : JsMap.t) :
  (forall w', exists w'', close w' = (w'', Ok tt)) ->
  getPage w = (w1, Ok tt) ->
  openAndScan resolveURL u
    (mkState (mkVars [] 0 []) w1 [mkEvent CGetPage RDone]) = (s1, Ok pn) ->
  pn <> [] ->
  exists s,
    execute resolveURL u (Some 0) w =
      (s, Ok (Report.mk u 0 [mkSection "Primary Nav" []] [])).
Proof.
  intros Hclose Hget Hscan Hpn. unfold execute, run.
  erewrite bind_ok
    by (unfold getPageM; apply call_eq; simpl; exact Hget).
  simpl app. unfold tryFinally, tryCatch, tryBlock.
  erewrite bind_ok by exact Hscan.
  assert (Hfresh : freshVars (vars s1)).
  { assert (H := triple_openAndScan resolveURL u
                   (mkState (mkVars [] 0 []) w1 [mkEvent CGetPage RDone])).
    rewrite Hscan in H. apply H. repeat split. }
  assert (H := phases_zero resolveURL u pn Hpn s1 Hfresh).
  unfold bind at 1.
  destruct (phases resolveURL u 0 pn s1) as [s2 [[]|e]]; [|contradiction].
  unfold report. rewrite H. simpl.
  destruct (Hclose (world s2)) as [w3 Hw3].
  unfold closeM. erewrite call_eq by exact Hw3.
  eexists. reflexivity.
Qed.

(** The witness: the page of scenario E explored with [maxLinks = 0]. *)
Lemma zero_budget_empty_primary_section_witness :
  exists s,
    Demo.explore Demo.footerSite (Some 0) =
      (s, Ok (Report.mk Demo.base 0 [mkSection "Primary Nav" []] [])).
Proof.
  eapply (@zero_budget_empty_primary_section _
            (Demo.browser Demo.footerSite) Demo.resolveURL Demo.base
            Demo.fresh Demo.fresh).
  - intros w'. exists w'. reflexivity.
  - reflexivity.
  - vm_compute. reflexivity.
  - discriminate.
Defined.

(* ================================================================== *)
(** * What the collector lets through *)

(** [C3] The link collector.  For every list of raw anchors and every base
    URL: each link of the resulting map is built from an anchor whose href
    passes the guard (it does not begin with [javascript:], [mailto:] or
    [tel:] and is not ["#"]) and is accepted by the URL constructor, the
    link's URL being the resolved one; anchors that fail the guard or are
    rejected by the constructor contribute nothing, so the map is the one
    built from the qualifying anchors alone; the four hrefs of the exclusion
    list yield no link; and the collector fails only when the page query
    itself fails, never because of an href.  (An empty href is not
    filtered.) *)
Theorem collector_lets_only_qualifying_hrefs {W} {B : Browser W}
    resolveURL (baseUrl : string) :
  (forall raw k l,
     In (k, l) (linksOf resolveURL baseUrl raw) ->
     exists a, In a raw /\ skipHref (href a) = false /\
               resolveURL (href a) baseUrl = Some k /\
               l = mkLink k (strSlice0 120 (rawText a))) /\
  (forall raw,
     linksOf resolveURL baseUrl raw =
     linksOf resolveURL baseUrl (filter (qualifies resolveURL baseUrl) raw)) /\
  (forall t,
     linksOf resolveURL baseUrl
       [mkRaw "javascript:alert(1)" t; mkRaw "mailto:a@b.com" t;
        mkRaw "tel:123" t; mkRaw "#" t] = JsMap.empty) /\
  (forall s : State W,
     snd (collectLinks resolveURL baseUrl s) =
     match snd (evaluateAnchors "a[href]" (world s)) with
     | Ok raw => Ok (linksOf resolveURL baseUrl raw)
     | Throw e => Throw e
     end).
Proof.
  repeat split.
  - intros raw k l H. unfold linksOf in H.
    apply fold_addLink_source in H. destruct H as [[]|[a [Ha Hb]]].
    exists a. split; [assumption|exact Hb].
  - intros raw. apply fold_addLink_filter.
  - intros s. unfold collectLinks, bind, evaluateM, call.
    destruct (evaluateAnchors "a[href]" (world s)) as [w' [raw|e]];
      reflexivity.
Qed.

(** The witness: a navigation bar with one script link. *)
Lemma collector_lets_only_qualifying_hrefs_witness :
  exists a,
    In a [mkRaw "javascript:void(0)" "Menu"; Demo.aPricing] /\
    skipHref (href a) = false /\
    Demo.resolveURL (href a) Demo.base = Some "https://example.com/pricing" /\
    mkLink "https://example.com/pricing" "Pricing" =
      mkLink "https://example.com/pricing" (strSlice0 120 (rawText a)).
Proof.
  apply (proj1 (@collector_lets_only_qualifying_hrefs _
                  (Demo.browser Demo.footerSite) Demo.resolveURL Demo.base)).
  vm_compute. left. reflexivity.
Defined.

(** [C3], as stated, fails: an anchor whose href is empty is not discarded.
    The guard lets the empty string through and the URL constructor resolves
    it to the base URL, so a link is built from it. *)
Lemma empty_href_yields_link :
  skipHref EmptyString = false /\
  linksOf Demo.resolveURL Demo.base [mkRaw EmptyString "Home"] =
    [(Demo.base, mkLink Demo.base "Home")].
Proof. split; reflexivity. Qed.

(* ================================================================== *)
(** * The footer scan *)

Section FooterSpec.
Variable resolveURL : string -> string -> option string.

Lemma has_keys (m : JsMap.t) (k : string) :
  JsMap.has m k = existsb (fun k' => String.eqb k' k) (JsMap.keys m).
Proof.
  unfold JsMap.has, JsMap.keys. induction m as [|e r IH]; simpl;
    [reflexivity|]. now rewrite IH.
Qed.

Lemma fold_addFooterLink_spec (u : string) (pn : JsMap.t)
    (raw : list RawAnchor) (m : JsMap.t) :
  JsMap.values (fold_left (addFooterLink resolveURL u pn) raw m) =
  JsMap.values m ++
  dedupe (JsMap.keys m)
    (filter (fun l => negb (JsMap.has pn (url l))) (candidates resolveURL u raw)).
Proof.
  revert m. induction raw as [|a r IH]; intros m; simpl.
  - now rewrite app_nil_r.
  - rewrite IH. unfold addFooterLink, linkOf.
    destruct (skipHref (href a)); [reflexivity|].
    destruct (resolveURL (href a) u) as [k|]; [|reflexivity].
    simpl app. simpl filter.
    destruct (JsMap.has pn k) eqn:Hp; simpl negb.
    + now rewrite andb_false_r.
    + rewrite andb_true_r. simpl dedupe. rewrite <- (has_keys m k).
      destruct (JsMap.has m k) eqn:Hm; simpl negb; [reflexivity|].
      rewrite JsMapFacts.set_fresh by assumption.
      unfold JsMap.values, JsMap.keys. rewrite !map_app. simpl.
      now rewrite <- app_assoc.
Qed.
Lemma dedupe_distinct (l : list LinkInfo) (seen : list string) :
  NoDup (map url l) ->
  (forall x, In x l ->
     existsb (fun k => String.eqb k (url x)) seen = false) ->
  dedupe seen l = l.
Proof.
  revert seen. induction l as [|x r IH]; intros seen Hn Hs; simpl;
    [reflexivity|].
  rewrite (Hs x) by now left. f_equal.
  inversion Hn as [|? ? Hx Hr]; subst. apply IH; [assumption|].
  intros y Hy. rewrite existsb_app, (Hs y) by now right. simpl.
  rewrite orb_false_r. apply String.eqb_neq. intros Heq. apply Hx.
  rewrite Heq. now apply in_map.
Qed.

Lemma filter_keeps_urls_distinct (keep : LinkInfo -> bool)
    (found : list LinkInfo) (H : NoDup (map url found)) :
  NoDup (map url (filter keep found)).
Proof.
  induction found as [|x r IH]; simpl in *; [constructor|].
  inversion H as [|? ? Hx Hr]; subst.
  destruct (keep x); simpl; [|now apply IH].
  constructor; [|now apply IH].
  intros Hin. apply Hx. apply in_map_iff in Hin.
  destruct Hin as [y [Hy Hin]]. apply filter_In in Hin.
  rewrite <- Hy. apply in_map. now destruct Hin.
Qed.

(** Scenario E in general: four distinct footer links, two of them in the
    primary navigation, and room for two. *)
Lemma footerSpec_four_two (u : string) (pn : JsMap.t)
    (raw : list RawAnchor) (remaining : Z) :
  let found := candidates resolveURL u raw in
  NoDup (map url found) -> length found = 4%nat ->
  length (filter (fun l => JsMap.has pn (url l)) found) = 2%nat ->
  2 <= remaining ->
  slice0 remaining (footerSpec resolveURL u pn raw)
    = filter (fun l => negb (JsMap.has pn (url l))) found /\
  length (filter (fun l => negb (JsMap.has pn (url l))) found) = 2%nat.
Proof.
  intros found Hn H4 H2 Hrem. unfold footerSpec. fold found.
  assert (Hlen : length (filter (fun l => negb (JsMap.has pn (url l))) found)
                 = 2%nat).
  { assert (H := filter_length (fun l => JsMap.has pn (url l)) found). lia. }
  split; [|exact Hlen].
  rewrite dedupe_distinct.
  - apply slice0_all. rewrite Hlen. simpl. lia.
  - now apply filter_keeps_urls_distinct.
  - reflexivity.
Qed.
End FooterSpec.

Section FooterRun.
Context {W : Type} {B : Browser W}.
Variable resolveURL : string -> string -> option string.
Variable u : string.
Variable maxLinks : Z.
Variable pn : JsMap.t.

Lemma gather_vars (sels : list string) (s : State W) :
  vars (fst (gather sels s)) = vars s.
Proof.
  revert s. induction sels as [|sel r IH]; intros s; simpl; [reflexivity|].
  assert (Hv := call_vars (CEvaluate sel) done (evaluateAnchors sel) s).
  unfold evaluateM.
  destruct (call _ _ _ s) as [s' [raw|e]]; simpl in Hv.
  - specialize (IH s'). destruct (gather r s'). simpl in *. congruence.
  - rewrite IH. exact Hv.
Qed.

Lemma scanFooter_gather (sels : list string) (acc : JsMap.t) (s : State W) :
  forAcc sels acc (fun sel footerLinks =>
    tryCatch
      (bind (evaluateM sel) (fun raw =>
         ret (fold_left (addFooterLink resolveURL u pn) raw footerLinks)))
      (fun _ => ret footerLinks)) s
  = (fst (gather sels s),
     Ok (fold_left (addFooterLink resolveURL u pn) (snd (gather sels s)) acc)).
Proof.
  revert acc s. induction sels as [|sel r IH]; intros acc s; simpl;
    [reflexivity|].
  unfold bind at 1. unfold tryCatch, bind.
  destruct (evaluateM sel s) as [s' [raw|e]]; simpl.
  - rewrite IH. destruct (gather r s') as [s'' rest]. simpl.
    now rewrite fold_left_app.
  - apply IH.
Qed.

Lemma footerPhase_skipped (s : State W) :
  maxLinks <= totalLinksFound (vars s) ->
  footerPhase resolveURL u maxLinks pn s = (s, Ok tt).
Proof.
  intros H. unfold footerPhase, bind, getTotal.
  destruct (totalLinksFound (vars s) <? maxLinks) eqn:E; [|reflexivity].
  apply Z.ltb_lt in E. lia.
Qed.

Lemma footerPhase_runs (s : State W) (w1 w2 : W) :
  totalLinksFound (vars s) < maxLinks ->
  scrollToBottom (world s) = (w1, Ok tt) ->
  waitForTimeout 1500 w1 = (w2, Ok tt) ->
  let (s3, raw) :=
    gather footerSelectors
      (mkState (vars s) w2
         (trace s ++ [mkEvent CScroll RDone; mkEvent (CWait 1500) RDone])) in
  footerPhase resolveURL u maxLinks pn s =
    (mkState
       match footerSpec resolveURL u pn raw with
       | [] => vars s
       | found =>
           emit (vars s)
             (mkSection "Footer"
                (slice0 (maxLinks - totalLinksFound (vars s)) found))
       end
       (world s3) (trace s3), Ok tt).
Proof.
  intros Hlt Hscroll Hwait.
  set (s2 := mkState (vars s) w2 _).
  assert (Hg := scanFooter_gather footerSelectors JsMap.empty s2).
  assert (Hv := gather_vars footerSelectors s2).
  destruct (gather footerSelectors s2) as [s3 raw] eqn:Eg. simpl in Hg, Hv.
  unfold footerPhase. unfold bind at 1. unfold getTotal.
  apply Z.ltb_lt in Hlt. rewrite Hlt. unfold tryCatch.
  erewrite bind_ok by (unfold scrollM; apply call_eq; exact Hscroll).
  erewrite bind_ok by (unfold waitM; apply call_eq; exact Hwait).
  simpl trace. rewrite <- app_assoc. simpl app. fold s2.
  erewrite bind_ok by (unfold scanFooter; exact Hg).
  assert (Hspec := fold_addFooterLink_spec resolveURL u pn raw JsMap.empty).
  simpl in Hspec. fold (footerSpec resolveURL u pn raw) in Hspec.
  unfold emitFooter, JsMap.size.
  set (fl := fold_left _ raw JsMap.empty) in *.
  rewrite <- Hspec. unfold JsMap.values.
  destruct fl as [|e r]; simpl.
  - destruct s3; simpl in *. now subst.
  - unfold bind, getTotal, pushSection, addTotal, emit. simpl.
    destruct s3; simpl in *. now subst.
Qed.
End FooterRun.

(** [C6] The footer scan.  With the budget used up
    ([maxLinks <= totalLinksFound]) the phase does nothing at all: no call
    is made and the locals are untouched.  Otherwise, when the scroll and the
    settle wait succeed, the phase queries the footer scopes and, with
    [found] the footer-scoped links not captured by the primary navigation
    scan, deduplicated in order of appearance, it emits no section when
    [found] is empty and else one section "Footer" holding [found] cut to
    the remaining budget, counted in [totalLinksFound].  Scenario E: when
    the footer scopes hold 4 distinct links, 2 of them captured by the
    primary navigation scan, and at least 2 links of budget are left, the
    section holds exactly the 2 others; so it is on the sample page. *)
Theorem footer_scan {W} {B : Browser W} resolveURL u maxLinks pn
    (s : State W) (w1 w2 : W) :
  (maxLinks <= totalLinksFound (vars s) ->
   footerPhase resolveURL u maxLinks pn s = (s, Ok tt)) /\
  (totalLinksFound (vars s) < maxLinks ->
   scrollToBottom (world s) = (w1, Ok tt) ->
   waitForTimeout 1500 w1 = (w2, Ok tt) ->
   let (s3, raw) :=
     gather footerSelectors
       (mkState (vars s) w2
          (trace s ++ [mkEvent CScroll RDone; mkEvent (CWait 1500) RDone])) in
   footerPhase resolveURL u maxLinks pn s =
     (mkState
        match footerSpec resolveURL u pn raw with
        | [] => vars s
        | found =>
            emit (vars s)
              (mkSection "Footer"
                 (slice0 (maxLinks - totalLinksFound (vars s)) found))
        end
        (world s3) (trace s3), Ok tt)) /\
  (forall raw,
     let found := candidates resolveURL u raw in
     NoDup (map url found) -> length found = 4%nat ->
     length (filter (fun l => JsMap.has pn (url l)) found) = 2%nat ->
     2 <= maxLinks - totalLinksFound (vars s) ->
     slice0 (maxLinks - totalLinksFound (vars s))
       (footerSpec resolveURL u pn raw)
       = filter (fun l => negb (JsMap.has pn (url l))) found /\
     length (filter (fun l => negb (JsMap.has pn (url l))) found) = 2%nat) /\
  snd (Demo.explore Demo.footerSite None) =
    Ok (Report.mk Demo.base 5
          [mkSection "Primary Nav"
             [mkLink "https://example.com/" "Home";
              mkLink "https://example.com/pricing" "Pricing";
              mkLink "https://example.com/docs" "Docs"];
           mkSection "Footer"
             [mkLink "https://example.com/blog" "Blog";
              mkLink "https://example.com/terms" "Terms"]]
          []).
Proof.
  split; [|split; [|split]].
  - apply footerPhase_skipped.
  - apply footerPhase_runs.
  - intros raw. apply footerSpec_four_two.
  - vm_compute. reflexivity.
Qed.

(** The witness of the footer theorem: the footer phase on a page whose
    footer repeats two header links and one link of its own, entered with
    the primary navigation section in place. *)
Lemma footer_scan_witness :
  @footerPhase _ (Demo.browser Demo.busyFooterSite) Demo.resolveURL
    Demo.base 50 Demo.headerLinks Demo.afterHeader
  = (mkState
       (mkVars
          [mkSection "Primary Nav"
             [mkLink "https://example.com/" "Home";
              mkLink "https://example.com/pricing" "Pricing"];
           mkSection "Footer"
             [mkLink "https://example.com/blog" "Blog";
              mkLink "https://example.com/docs" "Docs";
              mkLink "https://example.com/terms" "Terms"]] 5 [])
       (Demo.mkPage None [] true)
       [ev CScroll RDone; ev (CWait 1500) RDone;
        ev (CEvaluate "footer a") RDone;
        ev (CEvaluate (css ["[role="; q "contentinfo"; "] a"])) RDone;
        ev (CEvaluate (css ["[class*="; q "footer"; "] a"])) RDone],
     Ok tt).
Proof.
  assert (H := proj1 (proj2 (@footer_scan _
                 (Demo.browser Demo.busyFooterSite)
                 Demo.resolveURL Demo.base 50 Demo.headerLinks
                 Demo.afterHeader
                 (Demo.mkPage None [] true) (Demo.mkPage None [] true)))).
  specialize (H ltac:(simpl; lia) eq_refl eq_refl).
  exact H.
Defined.

(* ================================================================== *)
(** * The hamburger phase, seen from the page *)









Section HamburgerTrace.
Context {W : Type} {B : Browser W}.
Variable resolveURL : string -> string -> option string.
Variable u : string.
Variable maxLinks : Z.






End HamburgerTrace.




(* ================================================================== *)
(** * Duplicates across sections *)

(** [C9] Duplicates.  Some page makes the same URL appear in two sections
    of one report: on the page with a drop-down and a lazily rendered
    footer, the API reference is listed in the hover section and again in
    the footer section, and is counted twice.  For every run that returns a
    report: [totalLinksFound] is the sum of the sections' link counts,
    occurrence by occurrence; within each section the URLs are pairwise
    distinct; and no URL of a "Footer" section occurs in a "Primary Nav"
    section. *)
Theorem duplicates_only_excluded_between_footer_and_primary :
  (snd (Demo.explore Demo.dropdownSite None) =
     Ok (Report.mk Demo.base 4
           [mkSection "Primary Nav"
              [mkLink "https://example.com/" "Home"];
            mkSection "Dropdown: Products"
              [mkLink "https://example.com/api" "API reference"];
            mkSection "Footer"
              [mkLink "https://example.com/api" "API reference";
               mkLink "https://example.com/terms" "Terms"]]
           [])) /\
  (forall W (B : Browser W) resolveURL u rawMaxLinks (w : W) s rep,
     execute resolveURL u rawMaxLinks w = (s, Ok rep) ->
     Report.totalLinksFound rep = sumLinks (Report.sections rep) /\
     Forall (fun sec => NoDup (map url (links sec))) (Report.sections rep) /\
     forall p f l l',
       In p (Report.sections rep) -> In f (Report.sections rep) ->
       label p = "Primary Nav" -> label f = "Footer" ->
       In l (links p) -> In l' (links f) -> url l <> url l').
Proof.
  split; [vm_compute; reflexivity|].
  intros W B resolveURL u rawMaxLinks w s rep Hrun.
  apply execute_goodReport in Hrun. destruct Hrun as [pn [Hpn Hb]].
  split; [apply (built_total _ _ _ _ Hb)|].
  assert (Hall := built_Forall _ _ _ _ Hb). split.
  - eapply Forall_impl; [|exact Hall].
    intros sec [consumed He]. now apply emitted_NoDup in He.
  - intros p f l l' Hp Hf Hlp Hlf Hl Hl' Heq.
    rewrite Forall_forall in Hall.
    destruct (Hall _ Hp) as [cp Hep]. destruct (Hall _ Hf) as [cf Hef].
    assert (H1 := emitted_primary_links _ _ _ _ Hpn Hep Hlp _ Hl).
    assert (H2 := emitted_footer_links _ _ _ _ Hef Hlf _ Hl').
    congruence.
Qed.

(** The witness: the report of the drop-down page. *)
Lemma duplicates_only_excluded_between_footer_and_primary_witness :
  let rep := Demo.reported Demo.dropdownSite None in
  Report.totalLinksFound rep = sumLinks (Report.sections rep) /\
  Forall (fun sec => NoDup (map url (links sec))) (Report.sections rep) /\
  forall p f l l',
    In p (Report.sections rep) -> In f (Report.sections rep) ->
    label p = "Primary Nav" -> label f = "Footer" ->
    In l (links p) -> In l' (links f) -> url l <> url l'.
Proof.
  apply (proj2 duplicates_only_excluded_between_footer_and_primary
           _ (Demo.browser Demo.dropdownSite) Demo.resolveURL Demo.base None
           Demo.fresh (fst (Demo.explore Demo.dropdownSite None))).
  vm_compute. reflexivity.
Defined.

(* ================================================================== *)
(** * More on the link collector *)

Lemma strSlice0_length (n : nat) (s : string) :
  (String.length (strSlice0 n s) <= n)%nat.
Proof.
  unfold strSlice0. revert s. induction n as [|n IH]; intros s.
  - destruct s; simpl; lia.
  - destruct s as [|c s]; simpl; [lia|]. specialize (IH s). lia.
Qed.

Section CollectorOrder.
Variable resolveURL : string -> string -> option string.

Lemma fold_addLink_labels (u : string) (raw : list RawAnchor) (m : JsMap.t) :
  Forall (fun e => (String.length (text (snd e)) <= 120)%nat) m ->
  Forall (fun e => (String.length (text (snd e)) <= 120)%nat)
    (fold_left (addLink resolveURL u) raw m).
Proof.
  revert m. induction raw as [|a r IH]; simpl; intros m Hm; [assumption|].
  apply IH. destruct (addLink_cases resolveURL u m a) as [->|[k [_ [_ ->]]]];
    [assumption|].
  apply Forall_app. split; [assumption|]. constructor; [|constructor].
  simpl. apply strSlice0_length.
Qed.

Lemma addFooterLink_no_primary (u : string) (m : JsMap.t) (a : RawAnchor) :
  addFooterLink resolveURL u JsMap.empty m a = addLink resolveURL u m a.
Proof.
  unfold addFooterLink, addLink.
  destruct (skipHref (href a)); [reflexivity|].
  destruct (resolveURL (href a) u); [|reflexivity].
  simpl. now rewrite andb_true_r.
Qed.

Lemma fold_addLink_as_footer (u : string) (raw : list RawAnchor)
    (m : JsMap.t) :
  fold_left (addLink resolveURL u) raw m =
  fold_left (addFooterLink resolveURL u JsMap.empty) raw m.
Proof.
  revert m. induction raw as [|a r IH]; simpl; intros m; [reflexivity|].
  now rewrite addFooterLink_no_primary, IH.
Qed.

Lemma filter_all {A} (l : list A) : filter (fun _ => true) l = l.
Proof. induction l as [|x r IH]; simpl; [reflexivity|]. now rewrite IH. Qed.

Lemma linksOf_values (u : string) (raw : list RawAnchor) :
  JsMap.values (linksOf resolveURL u raw) =
  dedupe [] (candidates resolveURL u raw).
Proof.
  unfold linksOf. rewrite fold_addLink_as_footer.
  rewrite fold_addFooterLink_spec. simpl. now rewrite filter_all.
Qed.

Lemma wf_keys_values (m : JsMap.t) :
  JsMap.wf m -> JsMap.keys m = map url (JsMap.values m).
Proof.
  intros [_ Hf]. unfold JsMap.keys, JsMap.values. rewrite map_map.
  apply map_ext_in. intros e He. rewrite Forall_forall in Hf.
  symmetry. now apply Hf.
Qed.

Lemma dedupe_In (seen : list string) (l : list LinkInfo) (x : LinkInfo) :
  In x (dedupe seen l) -> In x l.
Proof.
  revert seen. induction l as [|y r IH]; intros seen; simpl; [auto|].
  destruct (existsb _ seen).
  - intros H. right. now apply IH in H.
  - intros [H|H]; [now left|]. right. now apply IH in H.
Qed.

Lemma dedupe_urls (seen : list string) (l : list LinkInfo) (k : string) :
  In k (map url (dedupe seen l)) <->
  In k (map url l) /\ existsb (fun k' => String.eqb k' k) seen = false.
Proof.
  revert seen. induction l as [|x r IH]; intros seen; simpl.
  - tauto.
  - destruct (existsb (fun k' => String.eqb k' (url x)) seen) eqn:E.
    + rewrite IH. split; [tauto|]. intros [[Hx|Hr] Hfree]; [|tauto].
      subst k. congruence.
    + simpl. rewrite IH, existsb_app. simpl. rewrite orb_false_r.
      destruct (String.eqb (url x) k) eqn:Ek.
      * apply String.eqb_eq in Ek. subst k. rewrite orb_true_r.
        split; [tauto|]. intros _. now left.
      * apply String.eqb_neq in Ek. rewrite orb_false_r. tauto.
Qed.

Lemma linksOf_has (u : string) (raw : list RawAnchor) (k : string) :
  JsMap.has (linksOf resolveURL u raw) k = true <->
  In k (map url (candidates resolveURL u raw)).
Proof.
  rewrite JsMapFacts.has_In.
  rewrite (wf_keys_values _ (linksOf_wf resolveURL u raw)).
  rewrite linksOf_values, dedupe_urls. simpl. tauto.
Qed.
End CollectorOrder.

(** [X1] Canonical links.  Whatever anchors the page returns, the map
    built by the collector has pairwise distinct keys, holds every link
    under the link's own URL, and no label is longer than 120 characters. *)
Theorem collected_links_are_canonical resolveURL (u : string)
    (raw : list RawAnchor) :
  NoDup (JsMap.keys (linksOf resolveURL u raw)) /\
  Forall (fun e => url (snd e) = fst e /\
                   (String.length (text (snd e)) <= 120)%nat)
    (linksOf resolveURL u raw).
Proof.
  destruct (linksOf_wf resolveURL u raw) as [Hn Hf]. split; [exact Hn|].
  assert (Hl := fold_addLink_labels resolveURL u raw JsMap.empty
                  ltac:(constructor)).
  fold (linksOf resolveURL u raw) in Hl.
  rewrite Forall_forall in *. intros e He. split; auto.
Qed.

(** [X2] Page order, first label wins.  The links of the collected map, in
    iteration order, are the links of the qualifying anchors in page order
    with every later anchor of an already seen URL dropped; so the label
    kept for a URL is that of its first qualifying anchor. *)
Theorem collected_links_keep_first_in_page_order resolveURL (u : string)
    (raw : list RawAnchor) :
  JsMap.values (linksOf resolveURL u raw)
    = dedupe [] (candidates resolveURL u raw) /\
  JsMap.keys (linksOf resolveURL u raw)
    = map url (dedupe [] (candidates resolveURL u raw)).
Proof.
  split; [apply linksOf_values|].
  rewrite (wf_keys_values _ (linksOf_wf resolveURL u raw)).
  now rewrite linksOf_values.
Qed.

(** [X3] What a diff of two snapshots reveals.  Between the snapshots of
    two page states, a link is revealed exactly when it is the first
    qualifying anchor of its URL in the later state and no qualifying anchor
    of the earlier state resolves to that URL. *)
Theorem revealed_iff_url_is_new resolveURL (u : string)
    (before after : list RawAnchor) (l : LinkInfo) :
  In l (diffLinks (linksOf resolveURL u before) (linksOf resolveURL u after))
  <->
  In l (dedupe [] (candidates resolveURL u after)) /\
  ~ In (url l) (map url (candidates resolveURL u before)).
Proof.
  rewrite diffLinks_diffSpec, diffSpec_In, <- linksOf_values.
  rewrite <- linksOf_has.
  destruct (linksOf_wf resolveURL u after) as [_ Hf].
  rewrite Forall_forall in Hf. split.
  - intros [k [Hin Hb]]. specialize (Hf _ Hin). simpl in Hf. subst k.
    split; [|congruence].
    unfold JsMap.values. apply in_map_iff. now exists (url l, l).
  - intros [Hin Hb]. unfold JsMap.values in Hin. apply in_map_iff in Hin.
    destruct Hin as [[k l'] [Hl Hin]]. simpl in Hl. subst l'.
    specialize (Hf _ Hin). simpl in Hf. subst k.
    exists (url l). split; [assumption|].
    destruct (JsMap.has (linksOf resolveURL u before) (url l));
      [now elim Hb|reflexivity].
Qed.

(* ================================================================== *)
(** * The primary navigation scan *)

Section ScanFacts.
Context {W : Type} {B : Browser W}.
Variable resolveURL : string -> string -> option string.
Variable u : string.

Lemma scanPrimaryNav_gather (sels : list string) (acc : JsMap.t)
    (s : State W) :
  forAcc sels acc (fun sel primaryNavLinks =>
    tryCatch
      (bind (evaluateM sel) (fun raw =>
         ret (fold_left (addLink resolveURL u) raw primaryNavLinks)))
      (fun _ => ret primaryNavLinks)) s
  = (fst (gather sels s),
     Ok (fold_left (addLink resolveURL u) (snd (gather sels s)) acc)).
Proof.
  revert acc s. induction sels as [|sel r IH]; intros acc s; simpl;
    [reflexivity|].
  unfold bind at 1. unfold tryCatch, bind.
  destruct (evaluateM sel s) as [s' [raw|e]]; simpl.
  - rewrite IH. destruct (gather r s') as [s'' rest]. simpl.
    now rewrite fold_left_app.
  - apply IH.
Qed.
End ScanFacts.

(** [X4] The primary navigation scan merges its scopes.  The scan never
    throws and does not touch the locals; its map is the one the collector
    builds from the anchors of all navigation scopes taken together, in
    scope order, a scope whose query throws contributing nothing. *)
Theorem primary_nav_scan_merges_scopes {W} {B : Browser W} resolveURL
    (u : string) (s : State W) :
  scanPrimaryNav resolveURL u s =
    (fst (gather navSelectors s),
     Ok (linksOf resolveURL u (snd (gather navSelectors s)))) /\
  vars (fst (gather navSelectors s)) = vars s.
Proof.
  split; [|apply gather_vars].
  unfold scanPrimaryNav, linksOf. apply scanPrimaryNav_gather.
Qed.

(* ================================================================== *)
(** * Hover labels *)

Lemma dropSpaces_all (l : list ascii) :
  forallb isSpace l = true -> dropSpaces l = [].
Proof.
  induction l as [|c r IH]; simpl; [reflexivity|].
  intros H. apply andb_true_iff in H. destruct H as [Hc Hr].
  rewrite Hc. now apply IH.
Qed.

Lemma trim_blank (s : string) :
  forallb isSpace (list_ascii_of_string s) = true -> trim s = EmptyString.
Proof.
  intros H. unfold trim. rewrite (dropSpaces_all _ H). reflexivity.
Qed.

(** [X5] Hover labels.  The label computed for a hovered item is never
    empty; it is either the positional fallback "Item i" or at most 50
    characters long; and an item without text content, or whose text is
    empty or white space only (tabs, line breaks, blanks and no-break
    spaces), gets the fallback. *)
Theorem hover_label_never_empty_and_short (i : nat) :
  (forall t, itemLabel t i <> EmptyString) /\
  (forall t, itemLabel t i = String.append "Item " (showNat i) \/
             (String.length (itemLabel t i) <= 50)%nat) /\
  itemLabel None i = String.append "Item " (showNat i) /\
  (forall s, forallb isSpace (list_ascii_of_string s) = true ->
             itemLabel (Some s) i = String.append "Item " (showNat i)).
Proof.
  repeat split.
  - intros t. unfold itemLabel.
    destruct (String.eqb _ EmptyString) eqn:E.
    + simpl. discriminate.
    + now apply String.eqb_neq in E.
  - intros t. unfold itemLabel.
    destruct (String.eqb _ EmptyString) eqn:E; [now left|]. right.
    destruct t as [s|]; [apply strSlice0_length|simpl; lia].
  - intros s H. unfold itemLabel. now rewrite (trim_blank s H).
Qed.

(** The witness: an item whose text is a blank, a no-break space and a
    line feed. *)
Lemma hover_label_never_empty_and_short_witness :
  itemLabel (Some (String " " (String (ascii_of_nat 160)
               (String (ascii_of_nat 10) EmptyString)))) 3 = "Item 3".
Proof.
  apply (proj2 (proj2 (proj2 (hover_label_never_empty_and_short 3)))).
  reflexivity.
Defined.

(* ================================================================== *)
(** * The interstitial dismisser *)

Section BannerTrace.
Context {W : Type} {B : Browser W}.

Lemma dismissStep_cases (sel : string) (s : State W) :
  exists s' r evs,
    tryCatch
      (bind (isVisibleM sel 500) (fun v : bool =>
         if v
         then bind (clickM sel 1000) (fun _ =>
              bind (waitM 500) (fun _ => ret DoBreak))
         else ret Normal))
      (fun _ => ret Normal) s = (s', Ok r) /\
    vars s' = vars s /\ trace s' = trace s ++ evs /\
    ((r <> DoBreak /\ bannerSkipped sel evs) \/
     (r = DoBreak /\ evs = dismissed sel)).
Proof.
  unfold tryCatch.
  destruct (isVisible sel 500 (world s)) as [w1 [v|e]] eqn:E1.
  2:{ erewrite bind_throw by (unfold isVisibleM; apply call_eq; exact E1).
      simpl. do 3 eexists. repeat split. left. split; [discriminate|].
      constructor. }
  erewrite bind_ok by (unfold isVisibleM; apply call_eq; exact E1).
  destruct v.
  2:{ simpl. do 3 eexists. repeat split. left. split; [discriminate|].
      constructor. }
  match goal with |- context [bind (clickM _ _) _ ?s0] =>
    set (s1 := s0) end.
  destruct (click sel 1000 (world s1)) as [w2 [[]|e]] eqn:E2.
  2:{ erewrite bind_throw by (unfold clickM; apply call_eq; exact E2).
      simpl. do 3 eexists. split; [reflexivity|]. split; [reflexivity|].
      split; [rewrite <- app_assoc; reflexivity|].
      left. split; [discriminate|]. constructor. }
  erewrite bind_ok by (unfold clickM; apply call_eq; exact E2).
  match goal with |- context [bind (waitM _) _ ?s0] =>
    set (s2 := s0) end.
  destruct (waitForTimeout 500 (world s2)) as [w3 [[]|e]] eqn:E3.
  2:{ erewrite bind_throw by (unfold waitM; apply call_eq; exact E3).
      simpl. do 3 eexists. split; [reflexivity|]. split; [reflexivity|].
      split; [rewrite <- !app_assoc; reflexivity|].
      left. split; [discriminate|]. constructor. }
  erewrite bind_ok by (unfold waitM; apply call_eq; exact E3).
  simpl. do 3 eexists. split; [reflexivity|]. split; [reflexivity|].
  split; [rewrite <- !app_assoc; reflexivity|].
  right. split; reflexivity.
Qed.

Lemma dismissLoop_trace (sels : list string) (s : State W) :
  exists s' evs,
    forOf sels (fun sel =>
      tryCatch
        (bind (isVisibleM sel 500) (fun v : bool =>
           if v
           then bind (clickM sel 1000) (fun _ =>
                bind (waitM 500) (fun _ => ret DoBreak))
           else ret Normal))
        (fun _ => ret Normal)) s = (s', Ok tt) /\
    vars s' = vars s /\ trace s' = trace s ++ evs /\ bannerTrace sels evs.
Proof.
  revert s. induction sels as [|sel rest IH]; intros s.
  - exists s, []. simpl. rewrite app_nil_r. repeat split. constructor.
  - destruct (dismissStep_cases sel s)
      as (s1 & r & evs & Hstep & Hv & Htr & Hcase).
    simpl. erewrite bind_ok by exact Hstep.
    destruct Hcase as [(Hr & Hsk)|(-> & ->)].
    + destruct (IH s1) as (s2 & evs2 & Hloop & Hv2 & Htr2 & Htt).
      exists s2, (evs ++ evs2). repeat split.
      * destruct r; try exact Hloop. congruence.
      * congruence.
      * rewrite Htr2, Htr. now rewrite app_assoc.
      * now constructor.
    + exists s1, (dismissed sel). repeat split; try assumption.
      constructor.
Qed.
End BannerTrace.

(** [X6] The interstitial dismisser.  [dismissCookieBanners] always
    completes without throwing and leaves the locals untouched.  Its calls
    read: the consent patterns are tried in order; a pattern whose button is
    not visible, or whose visibility test, click or settle wait throws, is
    passed over; the first pattern whose button is visible and whose click
    and settle wait both succeed ends the function, and nothing is called
    after it. *)
Theorem dismisser_stops_after_first_dismissal {W} {B : Browser W}
    (s : State W) :
  exists s' evs,
    dismissCookieBanners s = (s', Ok tt) /\
    vars s' = vars s /\ trace s' = trace s ++ evs /\
    bannerTrace cookieSelectors evs.
Proof. unfold dismissCookieBanners. apply dismissLoop_trace. Qed.

(* ================================================================== *)
(** * What the engine does to the page *)

Section Effects.
Context {W : Type} {B : Browser W}.
Variable allowed : Call -> Prop.

Lemma emits_silent {A} (m : @M W A) :
  (forall s, trace (fst (m s)) = trace s) -> emits allowed m.
Proof.
  intros H s. exists []. rewrite app_nil_r. split; [apply H|constructor].
Qed.

Lemma emits_ret {A} (a : A) : emits (W := W) allowed (ret a).
Proof. now apply emits_silent. Qed.

Lemma emits_bind {A C} (m : @M W A) (k : A -> @M W C) :
  emits allowed m -> (forall a, emits allowed (k a)) ->
  emits allowed (bind m k).
Proof.
  intros Hm Hk s. unfold bind. destruct (Hm s) as [e1 [H1 F1]].
  destruct (m s) as [s' [a|e]]; simpl in *; [|eauto].
  destruct (Hk a s') as [e2 [H2 F2]]. exists (e1 ++ e2). split.
  - rewrite H2, H1. now rewrite app_assoc.
  - apply Forall_app. auto.
Qed.

Lemma emits_tryCatch {A} (m : @M W A) (h : string -> @M W A) :
  emits allowed m -> (forall e, emits allowed (h e)) ->
  emits allowed (tryCatch m h).
Proof.
  intros Hm Hh s. unfold tryCatch. destruct (Hm s) as [e1 [H1 F1]].
  destruct (m s) as [s' [a|e]]; simpl in *; [eauto|].
  destruct (Hh e s') as [e2 [H2 F2]]. exists (e1 ++ e2). split.
  - rewrite H2, H1. now rewrite app_assoc.
  - apply Forall_app. auto.
Qed.

Lemma emits_call {A} (c : Call) (reply : A -> Reply)
    (op : W -> W * outcome A) :
  allowed c -> emits allowed (call c reply op).
Proof.
  intros Hc s. unfold call. destruct (op (world s)) as [w' r]. simpl.
  eexists. split; [reflexivity|]. constructor; [exact Hc|constructor].
Qed.

Lemma emits_forOf {A} (l : list A) (body : A -> @M W completion) :
  (forall x, In x l -> emits allowed (body x)) ->
  emits allowed (forOf l body).
Proof.
  induction l as [|x r IH]; intros Hb; simpl; [apply emits_ret|].
  apply emits_bind; [apply Hb; now left|].
  assert (Hr : emits allowed (forOf r body)).
  { apply IH. intros y Hy. apply Hb. now right. }
  intros [| |]; try exact Hr. apply emits_ret.
Qed.

Lemma emits_forAcc {A} (l : list A) (acc : JsMap.t)
    (body : A -> JsMap.t -> @M W JsMap.t) :
  (forall x m, In x l -> emits allowed (body x m)) ->
  emits allowed (forAcc l acc body).
Proof.
  revert acc. induction l as [|x r IH]; intros acc Hb; simpl;
    [apply emits_ret|].
  apply emits_bind; [apply Hb; now left|].
  intros m. apply IH. intros y m' Hy. apply Hb. now right.
Qed.
End Effects.

Section EngineEffects.
Context {W : Type} {B : Browser W}.
Variable resolveURL : string -> string -> option string.
Variable u : string.
Variable maxLinks : Z.

Local Notation "'quiet' m" := (emits (W := W) interaction m)
  (at level 10, m at level 9).

Lemma emits_collectLinks : quiet (collectLinks resolveURL u).
Proof.
  unfold collectLinks. apply emits_bind; [|intros; apply emits_ret].
  apply emits_call. simpl. now left.
Qed.

Lemma emits_dismiss : quiet dismissCookieBanners.
Proof.
  unfold dismissCookieBanners. apply emits_forOf. intros sel Hsel.
  apply emits_tryCatch; [|intros; apply emits_ret].
  apply emits_bind; [apply emits_call; simpl; auto|].
  intros [|]; [|apply emits_ret].
  apply emits_bind; [apply emits_call; simpl; auto|]. intros ?.
  apply emits_bind; [apply emits_call; exact I|]. intros ?.
  apply emits_ret.
Qed.

Lemma emits_scanPrimaryNav : quiet (scanPrimaryNav resolveURL u).
Proof.
  unfold scanPrimaryNav. apply emits_forAcc. intros sel m Hsel.
  apply emits_tryCatch; [|intros; apply emits_ret].
  apply emits_bind; [|intros; apply emits_ret].
  apply emits_call. simpl. auto.
Qed.

Lemma emits_emitRevealed (lbl : string) (revealed : list LinkInfo) :
  quiet (emitRevealed maxLinks lbl revealed).
Proof.
  apply emits_silent. intros s. unfold emitRevealed.
  now destruct (0 <? lengthZ revealed).
Qed.

Lemma emits_hoverPhase : quiet (hoverPhase resolveURL u maxLinks).
Proof.
  unfold hoverPhase. apply emits_forOf. intros sel Hsel. unfold hoverScope.
  apply emits_bind.
  - apply emits_tryCatch; [|intros; apply emits_ret].
    apply emits_bind; [apply emits_call; exact Hsel|]. intros count.
    destruct (count =? 0)%nat; [apply emits_ret|].
    apply emits_bind; [|intros; apply emits_ret].
    apply emits_forOf. intros i Hi. apply in_seq in Hi.
    assert (Hlt : (i < 15)%nat) by lia.
    unfold hoverItem.
    apply emits_bind; [now apply emits_silent|]. intros t.
    destruct (maxLinks <=? t); [apply emits_ret|].
    apply emits_bind; [|intros; apply emits_ret].
    apply emits_tryCatch; [|intros; apply emits_ret].
    apply emits_bind; [apply emits_call; simpl; auto|]. intros ?.
    apply emits_bind; [apply emits_collectLinks|]. intros ?.
    apply emits_bind; [apply emits_call; simpl; auto|]. intros ?.
    apply emits_bind; [apply emits_call; exact I|]. intros ?.
    apply emits_bind; [apply emits_collectLinks|]. intros ?.
    apply emits_emitRevealed.
  - intros [| |]; try apply emits_ret.
    apply emits_bind; [now apply emits_silent|]. intros t.
    destruct (maxLinks <=? t); apply emits_ret.
Qed.

Lemma emits_hamburgerPhase : quiet (hamburgerPhase resolveURL u maxLinks).
Proof.
  unfold hamburgerPhase. apply emits_forOf. intros sel Hsel.
  unfold hamburgerStep.
  apply emits_bind; [now apply emits_silent|]. intros t.
  destruct (maxLinks <=? t); [apply emits_ret|].
  apply emits_tryCatch; [|intros; apply emits_ret].
  apply emits_bind; [apply emits_call; simpl; auto|].
  intros [|]; simpl; [|apply emits_ret].
  apply emits_bind; [apply emits_collectLinks|]. intros ?.
  apply emits_bind; [apply emits_call; simpl; auto|]. intros ?.
  apply emits_bind; [apply emits_call; exact I|]. intros ?.
  apply emits_bind; [apply emits_collectLinks|]. intros ?.
  apply emits_bind; [apply emits_emitRevealed|]. intros ?.
  apply emits_bind; [|intros; apply emits_ret].
  unfold closeToggle. apply emits_tryCatch; [|intros; apply emits_ret].
  apply emits_bind; [apply emits_call; simpl; auto|]. intros ?.
  apply emits_call. exact I.
Qed.

Lemma emits_footerPhase (pn : JsMap.t) :
  quiet (footerPhase resolveURL u maxLinks pn).
Proof.
  unfold footerPhase.
  apply emits_bind; [now apply emits_silent|]. intros t.
  destruct (t <? maxLinks); [|apply emits_ret].
  apply emits_tryCatch; [|intros; now apply emits_silent].
  apply emits_bind; [apply emits_call; exact I|]. intros ?.
  apply emits_bind; [apply emits_call; exact I|]. intros ?.
  apply emits_bind.
  - unfold scanFooter. apply emits_forAcc. intros sel m Hsel.
    apply emits_tryCatch; [|intros; apply emits_ret].
    apply emits_bind; [|intros; apply emits_ret].
    apply emits_call. simpl. auto.
  - intros fl. apply emits_silent. intros s. unfold emitFooter.
    now destruct (0 <? JsMap.size fl).
Qed.

Lemma emits_phases (pn : JsMap.t) :
  quiet (phases resolveURL u maxLinks pn).
Proof.
  unfold phases. apply emits_bind.
  - apply emits_silent. intros s. unfold emitPrimaryNav.
    now destruct (0 <? JsMap.size pn).
  - intros ?. apply emits_bind; [apply emits_hoverPhase|]. intros ?.
    apply emits_bind; [apply emits_hamburgerPhase|]. intros ?.
    apply emits_footerPhase.
Qed.

Lemma bind_assoc {A C D} (m : @M W A) (k1 : A -> @M W C)
    (k2 : C -> @M W D) (s : State W) :
  bind (bind m k1) k2 s = bind m (fun a => bind (k1 a) k2) s.
Proof. unfold bind. now destruct (m s) as [s' [a|e]]. Qed.

(** The guarded block: one navigation, then interactions only. *)
Lemma guarded_trace (s : State W) :
  exists r evs,
    trace (fst (tryCatch (tryBlock resolveURL u maxLinks) (catchBlock u) s))
      = trace s ++ ev (CGoto u) r :: evs /\
    Forall (fun e => interaction (evCall e)) evs.
Proof.
  assert (Hcatch : forall e, emits (W := W) interaction (catchBlock u e)).
  { intros e. now apply emits_silent. }
  unfold tryCatch at 1. unfold tryBlock, openAndScan. rewrite bind_assoc.
  destruct (goto u (world s)) as [w1 [st|e]] eqn:Eg.
  - erewrite bind_ok by (unfold gotoM; apply call_eq; exact Eg).
    match goal with |- context [bind ?m ?k ?s0] =>
      assert (H : emits interaction (tryCatch (bind m k) (catchBlock u)));
      [|destruct (H s0) as [evs [Htr Hall]]; unfold tryCatch in Htr;
        destruct (bind m k s0) as [s2 [rep|msg]]] end.
    + apply emits_tryCatch; [|exact Hcatch]. apply emits_bind.
      * apply emits_bind; [apply emits_call; exact I|]. intros ?.
        apply emits_bind; [apply emits_dismiss|]. intros ?.
        apply emits_bind; [apply emits_collectLinks|]. intros ?.
        apply emits_scanPrimaryNav.
      * intros pn. apply emits_bind; [apply emits_phases|]. intros ?.
        now apply emits_silent.
    + exists RDone, evs. simpl in *. rewrite Htr, <- app_assoc. auto.
    + exists RDone, evs. simpl in *. rewrite Htr, <- app_assoc. auto.
  - erewrite bind_throw by (unfold gotoM; apply call_eq; exact Eg).
    simpl. exists RThrow, []. auto.
Qed.
End EngineEffects.

(** [X7] What the engine does to the page.  If the page cannot be
    obtained, nothing else is called (in particular, nothing is closed).
    Otherwise the calls of a run are, in this order: exactly one navigation,
    to the target URL; then only waits, scrolls, anchor queries on the fixed
    scopes, counts, text reads and hovers on at most the first 15 items of
    the hover scopes, and visibility tests and clicks on the consent and
    toggle patterns; and last, on every path, exactly one closing of the
    page. *)
Theorem page_is_navigated_once_and_closed_last {W} {B : Browser W}
    resolveURL (u : string) rawMaxLinks (w : W) :
  trace (fst (execute resolveURL u rawMaxLinks w)) = [ev CGetPage RThrow] \/
  exists r evs r',
    trace (fst (execute resolveURL u rawMaxLinks w))
      = ev CGetPage RDone :: ev (CGoto u) r :: evs ++ [ev CClose r'] /\
    Forall (fun e => interaction (evCall e)) evs.
Proof.
  unfold execute, run. fold (budgetOf rawMaxLinks).
  destruct (getPage w) as [w1 [[]|e]] eqn:Eget.
  - right.
    erewrite bind_ok by (unfold getPageM; apply call_eq; exact Eget).
    simpl app. unfold tryFinally.
    match goal with |- context [tryCatch ?m ?h ?s0] =>
      destruct (guarded_trace resolveURL u (budgetOf rawMaxLinks) s0)
        as (r & evs & Htr & Hall);
      destruct (tryCatch m h s0) as [s2 res] end.
    simpl in Htr. unfold closeM, call.
    destruct (close (world s2)) as [w3 [[]|e]]; simpl; rewrite Htr; simpl.
    + exists r, evs, RDone. auto.
    + exists r, evs, RThrow. auto.
  - left.
    erewrite bind_throw by (unfold getPageM; apply call_eq; exact Eget).
    reflexivity.
Qed.

(* ================================================================== *)
(** * The shape of a report *)

Section Shape.
Context {W : Type} {B : Browser W}.
Variable resolveURL : string -> string -> option string.
Variable u : string.
Variable maxLinks : Z.

(** A precondition may be read as the exact value of the locals. *)
Lemma triple_exact {A} (P : Vars -> Prop) (m : @M W A) Q E :
  (forall v0, P v0 -> triple (fun v => v = v0) m Q E) -> triple P m Q E.
Proof. intros H s Hs. now apply (H (vars s) Hs s). Qed.

(** A loop left by [break] may end in a state other than the invariant. *)
Lemma triple_forOf_break {A} (l : list A) (body : A -> @M W completion)
    (I J : Vars -> Prop) E :
  (forall v, I v -> J v) ->
  (forall x, triple I (body x)
               (fun c v => match c with DoBreak => J v | _ => I v end) E) ->
  triple I (forOf l body) (fun _ => J) E.
Proof.
  intros HIJ Hb. induction l as [|x r IH].
  - apply triple_ret. exact HIJ.
  - simpl. eapply triple_bind; [apply Hb|].
    intros [| |]; try exact IH. now apply triple_ret.
Qed.

Lemma emitRevealed_once (lbl : string) (revealed : list LinkInfo)
    (v0 : Vars) :
  triple (W := W) (fun v => v = v0) (emitRevealed maxLinks lbl revealed)
    (fun _ v => v = v0 \/ exists ls, v = emit v0 (mkSection lbl ls)) never.
Proof.
  intros s Hs. unfold emitRevealed. destruct (0 <? lengthZ revealed).
  - unfold bind, getTotal, pushSection, addTotal. simpl. right.
    rewrite Hs. eexists. reflexivity.
  - simpl. now left.
Qed.

Lemma hamburgerPhase_once (v0 : Vars) :
  triple (fun v => v = v0) (hamburgerPhase resolveURL u maxLinks)
    (fun _ v => v = v0 \/
       exists ls, v = emit v0 (mkSection "Mobile/Hamburger Menu" ls)) never.
Proof.
  unfold hamburgerPhase. apply triple_forOf_break; [auto|]. intros sel.
  unfold hamburgerStep.
  eapply triple_bind with (R := fun _ v => v = v0);
    [intros s Hs; exact Hs|]. intros t.
  destruct (maxLinks <=? t); [apply triple_ret; auto|].
  eapply triple_tryCatch with (E' := fun v => v = v0);
    [|intros e; now apply triple_ret].
  eapply triple_bind; [apply triple_call_keep; auto|].
  intros vis. destruct vis; simpl; [|now apply triple_ret].
  eapply triple_bind; [apply triple_collectLinks; auto|].
  intros before. apply triple_pure. intros _.
  eapply triple_bind; [apply triple_call_keep; auto|]. intros ?.
  eapply triple_bind; [apply triple_call_keep; auto|]. intros ?.
  eapply triple_bind; [apply triple_collectLinks; auto|].
  intros after. apply triple_pure. intros _.
  eapply triple_bind.
  - eapply triple_conseq;
      [apply (emitRevealed_once "Mobile/Hamburger Menu" _ v0)
      |auto|intros ? v Hv; exact Hv|intros v []].
  - intros ?. simpl.
    eapply triple_bind; [|intros ?; apply triple_ret; intros v Hv; exact Hv].
    eapply triple_conseq;
      [apply triple_closeToggle
         with (P := fun v => v = v0 \/
                 exists ls,
                   v = emit v0 (mkSection "Mobile/Hamburger Menu" ls))
      |auto|auto|intros v []].
Qed.

Lemma footerPhase_once (pn : JsMap.t) (v0 : Vars) :
  triple (fun v => v = v0) (footerPhase resolveURL u maxLinks pn)
    (fun _ v =>
       v = v0 \/
       (exists ls, v = emit v0 (mkSection "Footer" ls)) \/
       (exists msg,
          v = mkVars (sections v0) (totalLinksFound v0)
                (errors v0 ++ [String.append "Footer scroll failed: " msg])))
    never.
Proof.
  unfold footerPhase.
  eapply triple_bind with (R := fun _ v => v = v0);
    [intros s Hs; exact Hs|]. intros t.
  destruct (t <? maxLinks); [|apply triple_ret; auto].
  eapply triple_tryCatch with (E' := fun v => v = v0).
  - eapply triple_bind; [apply triple_call_keep; auto|]. intros ?.
    eapply triple_bind; [apply triple_call_keep; auto|]. intros ?.
    eapply triple_bind with (R := fun _ v => v = v0).
    + eapply triple_conseq;
        [apply triple_scanFooter with (P := fun v => v = v0)
        |auto|simpl; tauto|intros v []].
    + intros fl s Hs. unfold emitFooter.
      destruct (0 <? JsMap.size fl).
      * unfold bind, getTotal, pushSection, addTotal. simpl. right. left.
        rewrite Hs. eexists. reflexivity.
      * simpl. now left.
  - intros e s Hs. unfold pushError. simpl. right. right. rewrite Hs.
    eexists. reflexivity.
Qed.

Lemma hoverPhase_dropdowns (v0 : Vars) :
  triple (fun v => v = v0) (hoverPhase resolveURL u maxLinks)
    (fun _ v => exists ds, sections v = sections v0 ++ ds /\
                           Forall isDropdown ds /\ errors v = errors v0)
    never.
Proof.
  eapply triple_conseq;
    [apply triple_hoverPhase
       with (I := fun v => exists ds, sections v = sections v0 ++ ds /\
                                      Forall isDropdown ds /\
                                      errors v = errors v0)
    | |auto|auto].
  - intros v t bf af _ _ [ds (Hs & Hd & He)] _.
    exists (ds ++ [mkSection (String.append "Dropdown: " t)
                     (slice0 (maxLinks - totalLinksFound v)
                        (diffLinks bf af))]).
    simpl. rewrite Hs, app_assoc. repeat split; [|assumption].
    apply Forall_app. split; [assumption|].
    constructor; [|constructor]. do 2 eexists. reflexivity.
  - intros v ->. exists []. rewrite app_nil_r. repeat split. constructor.
Qed.

Lemma phases_done (pn : JsMap.t) :
  triple freshVars (phases resolveURL u maxLinks pn)
    (fun _ => phasesDone) never.
Proof.
  unfold phases.
  eapply triple_bind
    with (R := fun _ v => atMostOne "Primary Nav" (sections v) /\
                          errors v = []).
  { intros s (Hs & Ht & He). unfold emitPrimaryNav.
    destruct (0 <? JsMap.size pn).
    - unfold bind, pushSection, addTotal. simpl. rewrite Hs, He.
      split; [|reflexivity]. right. eexists. reflexivity.
    - simpl. rewrite Hs, He. split; [now left|reflexivity]. }
  intros ?. apply triple_exact. intros v1 [Hp1 He1].
  eapply triple_bind; [apply hoverPhase_dropdowns|].
  intros ?. apply triple_exact. intros v2 [ds (Hs2 & Hd2 & He2)].
  eapply triple_bind; [apply hamburgerPhase_once|].
  intros ?. apply triple_exact. intros v3 Hv3.
  eapply triple_conseq;
    [apply (footerPhase_once pn v3)|intros v Hv; exact Hv| |auto].
  intros ? v Hv. unfold phasesDone.
  assert (H3 : exists hb, sections v3 = sections v1 ++ ds ++ hb /\
                          atMostOne "Mobile/Hamburger Menu" hb /\
                          errors v3 = []).
  { destruct Hv3 as [->|[ls ->]].
    - exists []. rewrite app_nil_r. repeat split; [assumption|now left|].
      congruence.
    - eexists [_]. simpl. rewrite Hs2, <- app_assoc.
      repeat split; [right; eexists; reflexivity|congruence]. }
  destruct H3 as [hb (Hs3 & Hhb & He3)].
  destruct Hv as [->|[[ls ->]|[msg ->]]].
  - exists (sections v1), ds, hb, []. rewrite app_nil_r.
    repeat split; auto. now left.
  - exists (sections v1), ds, hb, [mkSection "Footer" ls]. simpl.
    rewrite Hs3, <- !app_assoc. repeat split; auto.
    right. eexists. reflexivity.
  - exists (sections v1), ds, hb, []. rewrite app_nil_r. simpl.
    repeat split; auto; [now left|]. right. exists msg.
    rewrite He3. split; reflexivity.
Qed.

Lemma guarded_done :
  triple freshVars
    (tryCatch (tryBlock resolveURL u maxLinks) (catchBlock u))
    (fun rep _ => reportDone rep) never.
Proof.
  eapply triple_tryCatch with (E' := freshVars).
  - unfold tryBlock.
    eapply triple_bind; [apply triple_openAndScan|].
    intros pn. apply triple_pure. intros _.
    eapply triple_bind with (R := fun _ => phasesDone).
    + eapply triple_conseq;
        [apply phases_done|auto|auto|intros v []].
    + intros ? s Hs. unfold report. simpl. right.
      destruct (vars s). exact Hs.
  - intros msg s (Hs & Ht & He).
    unfold catchBlock, bind, pushError, report. simpl. left.
    exists msg. rewrite Hs, Ht, He. auto.
Qed.
End Shape.

Lemma execute_reportDone {W} {B : Browser W} resolveURL u rawMaxLinks
    (w : W) s rep :
  execute resolveURL u rawMaxLinks w = (s, Ok rep) -> reportDone rep.
Proof.
  unfold execute, run. fold (budgetOf rawMaxLinks).
  unfold bind at 1.
  destruct (getPageM (initial w)) as [s1 [[]|e]] eqn:E1; [|discriminate].
  assert (Hv : vars s1 = vars (initial w)).
  { unfold getPageM in E1.
    rewrite <- (call_vars CGetPage done getPage (initial w)).
    now rewrite E1. }
  unfold tryFinally.
  assert (H := guarded_done resolveURL u (budgetOf rawMaxLinks) s1).
  destruct (tryCatch _ _ s1) as [s2 [rep'|e]].
  - intros Heq. destruct (closeM s2) as [s3 [[]|e]]; [|discriminate].
    inversion Heq; subst. apply H. rewrite Hv. repeat split.
  - exfalso. apply H. rewrite Hv. repeat split.
Qed.

(** [X8] Sections come in phase order.  In every report the sections are,
    in this order: at most one "Primary Nav" section, then the hover
    sections (labelled "Dropdown: ..."), then at most one
    "Mobile/Hamburger Menu" section, then at most one "Footer" section. *)
Theorem sections_come_in_phase_order {W} {B : Browser W} resolveURL u
    rawMaxLinks (w : W) s rep :
  execute resolveURL u rawMaxLinks w = (s, Ok rep) ->
  inPhaseOrder (Report.sections rep).
Proof.
  intros Hrun. apply execute_reportDone in Hrun.
  destruct Hrun as [[msg (_ & Hs & _)]|H].
  - rewrite Hs. exists [], [], [], []. repeat split; try now left.
  - destruct H as (p & d & h & f & Hs & Hp & Hd & Hh & Hf & _).
    exists p, d, h, f. auto.
Qed.

(** The witness: the page with a drop-down and a lazily rendered footer. *)
Lemma sections_come_in_phase_order_witness :
  inPhaseOrder (Report.sections (Demo.reported Demo.dropdownSite None)).
Proof.
  apply (@sections_come_in_phase_order _ (Demo.browser Demo.dropdownSite)
           Demo.resolveURL Demo.base None Demo.fresh
           (fst (Demo.explore Demo.dropdownSite None))).
  vm_compute. reflexivity.
Defined.

(** [X9] At most one error.  The [errors] list of a report is empty, or
    holds one message.  One message is either that of a failure before the
    first phase, and then the report has no section and counts no link, or
    "Footer scroll failed: ..." of the footer phase, and then the report has
    no "Footer" section. *)
Theorem report_holds_at_most_one_error {W} {B : Browser W} resolveURL u
    rawMaxLinks (w : W) s rep :
  execute resolveURL u rawMaxLinks w = (s, Ok rep) ->
  Report.errors rep = [] \/
  (exists msg, Report.errors rep = [msg] /\ Report.sections rep = [] /\
               Report.totalLinksFound rep = 0) \/
  (exists msg,
     Report.errors rep = [String.append "Footer scroll failed: " msg] /\
     forall sec, In sec (Report.sections rep) -> label sec <> "Footer").
Proof.
  intros Hrun. apply execute_reportDone in Hrun.
  destruct Hrun as [H|H]; [auto|].
  destruct H as (p & d & h & f & Hs & Hp & Hd & Hh & Hf & [He|He]);
    simpl in *; [auto|].
  destruct He as [msg [He ->]]. right. right. exists msg.
  split; [assumption|]. intros sec Hin. rewrite Hs, app_nil_r in Hin.
  apply in_app_or in Hin. destruct Hin as [Hin|Hin].
  - destruct Hp as [->|[ls ->]]; [destruct Hin|].
    destruct Hin as [<-|[]]. discriminate.
  - apply in_app_or in Hin. destruct Hin as [Hin|Hin].
    + rewrite Forall_forall in Hd. destruct (Hd _ Hin) as (t & ls & ->).
      apply dropdown_not_footer.
    + destruct Hh as [->|[ls ->]]; [destruct Hin|].
      destruct Hin as [<-|[]]. discriminate.
Qed.

(** The witness: an unreachable host. *)
Lemma report_holds_at_most_one_error_witness :
  let rep := Demo.reported Demo.deadSite None in
  Report.errors rep = [] \/
  (exists msg, Report.errors rep = [msg] /\ Report.sections rep = [] /\
               Report.totalLinksFound rep = 0) \/
  (exists msg,
     Report.errors rep = [String.append "Footer scroll failed: " msg] /\
     forall sec, In sec (Report.sections rep) -> label sec <> "Footer").
Proof.
  apply (@report_holds_at_most_one_error _ (Demo.browser Demo.deadSite)
           Demo.resolveURL Demo.base None Demo.fresh
           (fst (Demo.explore Demo.deadSite None))).
  vm_compute. reflexivity.
Defined.

(* ================================================================== *)
(** * A budget used up by the primary navigation *)

Lemma phases_budget_filled {W} {B : Browser W} resolveURL u maxLinks pn :
  pn <> [] -> 0 <= maxLinks <= JsMap.size pn ->
  triple (W := W) freshVars (phases resolveURL u maxLinks pn)
    (fun _ v =>
       v = mkVars [mkSection "Primary Nav"
                     (slice0 maxLinks (JsMap.values pn))] maxLinks [])
    never.
Proof.
  intros Hpn Hm. unfold phases.
  eapply triple_bind
    with (R := fun _ v =>
                 v = mkVars [mkSection "Primary Nav"
                               (slice0 maxLinks (JsMap.values pn))]
                       maxLinks []).
  - intros s (Hs & Ht & He). unfold emitPrimaryNav.
    destruct (0 <? JsMap.size pn) eqn:E.
    + unfold bind, pushSection, addTotal. simpl.
      rewrite Hs, Ht, He. unfold lengthZ.
      rewrite slice0_length by lia. unfold JsMap.values.
      rewrite length_map. unfold JsMap.size in Hm.
      simpl. f_equal. lia.
    + destruct pn; [congruence|discriminate].
  - intros ?. apply triple_laterPhases; intros; subst; simpl in *; lia.
Qed.

(** [X10] The primary navigation can use up the whole budget.  When the
    primary navigation scan finds at least [maxLinks] links ([maxLinks] a
    non-negative integer, the scan not empty), the report holds exactly one
    section, "Primary Nav", with the first [maxLinks] links of the scan in
    scan order, [totalLinksFound = maxLinks] and no error: the hover,
    hamburger and footer phases add nothing. *)
Theorem primary_nav_can_fill_the_budget {W} {B : Browser W} resolveURL u
    (maxLinks : Z) (w w1 : W) (s1 : State W) (pn : JsMap.t) :
  (forall w', exists w'', close w' = (w'', Ok tt)) ->
  getPage w = (w1, Ok tt) ->
  openAndScan resolveURL u
    (mkState (mkVars [] 0 []) w1 [mkEvent CGetPage RDone]) = (s1, Ok pn) ->
  pn <> [] -> 0 <= maxLinks <= JsMap.size pn ->
  exists s,
    execute resolveURL u (Some maxLinks) w =
      (s, Ok (Report.mk u maxLinks
                [mkSection "Primary Nav"
                   (firstn (Z.to_nat maxLinks) (JsMap.values pn))] [])).
Proof.
  intros Hclose Hget Hscan Hpn Hm. unfold execute, run.
  erewrite bind_ok
    by (unfold getPageM; apply call_eq; simpl; exact Hget).
  simpl app. unfold tryFinally, tryCatch, tryBlock.
  erewrite bind_ok by exact Hscan.
  assert (Hfresh : freshVars (vars s1)).
  { assert (H := triple_openAndScan resolveURL u
                   (mkState (mkVars [] 0 []) w1 [mkEvent CGetPage RDone])).
    rewrite Hscan in H. apply H. repeat split. }
  assert (H := phases_budget_filled resolveURL u maxLinks pn Hpn Hm s1
                 Hfresh).
  unfold bind at 1.
  destruct (phases resolveURL u maxLinks pn s1) as [s2 [[]|e]];
    [|contradiction].
  unfold report. rewrite H. simpl.
  destruct (Hclose (world s2)) as [w3 Hw3].
  unfold closeM. erewrite call_eq by exact Hw3.
  eexists. unfold slice0.
  assert (E : (maxLinks <? 0) = false) by (apply Z.ltb_ge; lia).
  rewrite E. unfold JsMap.values at 1. rewrite length_map.
  unfold JsMap.size in Hm. rewrite Z.min_l by lia. reflexivity.
Qed.

(** The witness: scenario E's page, three header links, [maxLinks = 2]. *)
Lemma primary_nav_can_fill_the_budget_witness :
  exists s,
    Demo.explore Demo.footerSite (Some 2) =
      (s, Ok (Report.mk Demo.base 2
                [mkSection "Primary Nav"
                   [mkLink "https://example.com/" "Home";
                    mkLink "https://example.com/pricing" "Pricing"]] [])).
Proof.
  assert (H := @primary_nav_can_fill_the_budget _
                 (Demo.browser Demo.footerSite) Demo.resolveURL Demo.base 2
                 Demo.fresh Demo.fresh
                 (fst (@openAndScan _ (Demo.browser Demo.footerSite)
                         Demo.resolveURL Demo.base
                         (mkState (mkVars [] 0 []) Demo.fresh
                            [mkEvent CGetPage RDone])))
                 (linksOf Demo.resolveURL Demo.base
                    [Demo.aHome; Demo.aPricing; Demo.aDocs])).
  apply H.
  - intros w'. exists w'. reflexivity.
  - reflexivity.
  - vm_compute. reflexivity.
  - discriminate.
  - vm_compute. split; discriminate.
Defined.

(* ================================================================== *)
(** * The keyword search *)

Section SearchFacts.
Variable resolveURL : string -> string -> option string.
Variable toLowerCase : string -> string.

Local Opaque Search.MAX_MATCHES.

Local Notation "'matching' kw" :=
  (fun m => Search.hits toLowerCase kw (Search.url m) (Search.linkText m))
  (at level 10, kw at level 9).

Lemma scan_spec (kw base : string) (links : list RawAnchor)
    (seen : list string) (found : list Search.Match) :
  (length found < Search.MAX_MATCHES)%nat ->
  Search.scan resolveURL toLowerCase kw base links seen found =
  firstn Search.MAX_MATCHES
    (found ++ firstPerUrl seen
                (filter (matching kw)
                   (searchCandidates resolveURL base links))).
Proof.
  revert seen found. induction links as [|a r IH]; intros seen found Hlen.
  - simpl. rewrite app_nil_r. symmetry. apply firstn_all2. lia.
  - simpl. destruct (Search.passes (href a)); [|now apply IH].
    destruct (resolveURL (href a) base) as [k|]; [|now apply IH].
    simpl.
    destruct (Search.hits toLowerCase kw k (rawText a)); simpl;
      [|rewrite andb_false_r; now apply IH].
    rewrite andb_true_r.
    destruct (Search.setHas seen k); simpl; [now apply IH|].
    rewrite length_app. simpl.
    destruct (Search.MAX_MATCHES <=? length found + 1)%nat eqn:E.
    + apply Nat.leb_le in E.
      match goal with |- _ = firstn _ (found ++ ?x :: ?rest) =>
        change (found ++ x :: rest) with (found ++ [x] ++ rest);
        rewrite (app_assoc found [x] rest)
      end.
      rewrite firstn_app, length_app. simpl length.
      replace (Search.MAX_MATCHES - (length found + 1))%nat with 0%nat
        by lia.
      rewrite firstn_O, app_nil_r. symmetry. apply firstn_all2.
      rewrite length_app. simpl. lia.
    + apply Nat.leb_gt in E. rewrite IH by (rewrite length_app; simpl; lia).
      now rewrite <- app_assoc.
Qed.

Lemma firstPerUrl_NoDup (seen : list string) (l : list Search.Match) :
  NoDup (map Search.url (firstPerUrl seen l)) /\
  forall x, In x (firstPerUrl seen l) ->
            Search.setHas seen (Search.url x) = false.
Proof.
  revert seen. induction l as [|y r IH]; intros seen; simpl.
  - split; [constructor|intros x []].
  - destruct (Search.setHas seen (Search.url y)) eqn:E; [apply IH|].
    destruct (IH (seen ++ [Search.url y])) as [Hn Hs].
    assert (Hout : forall x, In x (firstPerUrl (seen ++ [Search.url y]) r) ->
                     Search.setHas seen (Search.url x) = false /\
                     Search.url y <> Search.url x).
    { intros x Hx. specialize (Hs x Hx). unfold Search.setHas in *.
      rewrite existsb_app in Hs. apply orb_false_iff in Hs.
      destruct Hs as [H1 H2]. split; [assumption|]. simpl in H2.
      rewrite orb_false_r in H2. now apply String.eqb_neq. }
    split.
    + simpl. constructor; [|assumption]. intros Hin.
      apply in_map_iff in Hin. destruct Hin as [x [Hx Hin]].
      destruct (Hout x Hin) as [_ Hne]. congruence.
    + intros x [<-|Hx]; [assumption|]. now apply Hout.
Qed.

Lemma firstPerUrl_In (seen : list string) (l : list Search.Match) x :
  In x (firstPerUrl seen l) -> In x l.
Proof.
  revert seen. induction l as [|y r IH]; intros seen; simpl; [auto|].
  destruct (Search.setHas seen (Search.url y)).
  - intros H. right. now apply IH in H.
  - intros [H|H]; [now left|]. right. now apply IH in H.
Qed.

Lemma searchCandidates_In (base : string) (links : list RawAnchor) m :
  In m (searchCandidates resolveURL base links) ->
  exists a, In a links /\ Search.passes (href a) = true /\
            resolveURL (href a) base = Some (Search.url m) /\
            Search.linkText m = rawText a.
Proof.
  unfold searchCandidates. rewrite in_flat_map. intros [a [Ha Hm]].
  exists a. split; [assumption|].
  destruct (Search.passes (href a)); [|destruct Hm].
  destruct (resolveURL (href a) base) as [k|]; [|destruct Hm].
  destruct Hm as [<-|[]]. simpl. auto.
Qed.
End SearchFacts.

(** [X11] The search, in words.  For every page and keyword the matches
    are: of the anchors that pass the guard and resolve, taken in page order
    with their full text, those whose lower-cased URL or text contains the
    lower-cased keyword; of these the first of each URL; of these the first
    ten. *)
Theorem search_finds_first_ten_distinct_matches resolveURL toLowerCase
    (base kwd : string) (links : list RawAnchor) :
  Search.findMatches resolveURL toLowerCase base kwd links =
  searchSpec resolveURL toLowerCase base kwd links.
Proof.
  unfold Search.findMatches, searchSpec.
  rewrite scan_spec by (unfold Search.MAX_MATCHES; simpl; lia).
  reflexivity.
Qed.

(** [X12] Matches are few, distinct and genuine.  The search returns at
    most ten matches, with pairwise distinct URLs; and each match stands for
    an anchor of the page whose href does not begin with [javascript:],
    [mailto:] or [#], which resolves to the match's URL, whose text is the
    match's text, and whose lower-cased URL or text contains the lower-cased
    keyword. *)
Theorem search_matches_are_few_distinct_and_genuine resolveURL toLowerCase
    (base kwd : string) (links : list RawAnchor) :
  let found := Search.findMatches resolveURL toLowerCase base kwd links in
  (length found <= 10)%nat /\
  NoDup (map Search.url found) /\
  Forall (fun m =>
            Search.hits toLowerCase (toLowerCase kwd)
              (Search.url m) (Search.linkText m) = true /\
            exists a, In a links /\ Search.passes (href a) = true /\
                      resolveURL (href a) base = Some (Search.url m) /\
                      Search.linkText m = rawText a) found.
Proof.
  intros found. unfold found, Search.findMatches.
  rewrite scan_spec by (unfold Search.MAX_MATCHES; simpl; lia).
  simpl app.
  set (all := firstPerUrl [] _).
  split; [|split].
  - rewrite length_firstn. unfold Search.MAX_MATCHES. lia.
  - rewrite <- firstn_map. apply prefix_NoDup.
    apply (firstPerUrl_NoDup [] _).
  - apply Forall_forall. intros m Hm. apply firstn_In in Hm.
    apply firstPerUrl_In in Hm. apply filter_In in Hm.
    destruct Hm as [Hc Hh]. split; [exact Hh|].
    now apply searchCandidates_In in Hc.
Qed.


Lemma includes_empty (s : string) : includes s EmptyString = true.
Proof. destruct s; reflexivity. Qed.

Lemma filter_ext_true {A} (p : A -> bool) (l : list A) :
  (forall x, p x = true) -> filter p l = l.
Proof.
  intros H. induction l as [|x r IH]; simpl; [reflexivity|].
  now rewrite H, IH.
Qed.

(** [X13] An empty keyword matches every link.  When the keyword is empty
    (and lower-casing the empty string gives the empty string), the matches
    are the first ten distinct links of the page that pass the guard and
    resolve, whatever their text. *)
Theorem empty_keyword_matches_every_link resolveURL toLowerCase
    (base : string) (links : list RawAnchor) :
  toLowerCase EmptyString = EmptyString ->
  Search.findMatches resolveURL toLowerCase base EmptyString links =
  firstn 10 (firstPerUrl [] (searchCandidates resolveURL base links)).
Proof.
  intros Hlow. unfold Search.findMatches.
  rewrite scan_spec by (unfold Search.MAX_MATCHES; simpl; lia).
  rewrite Hlow. simpl app. rewrite filter_ext_true; [reflexivity|].
  intros m. unfold Search.hits. now rewrite includes_empty.
Qed.

(** The witness: the sample page searched with the empty keyword. *)
Lemma empty_keyword_matches_every_link_witness :
  Search.findMatches Demo.resolveURL Samples.toLowerCase Demo.base
    EmptyString Samples.anchors =
  firstn 10 (firstPerUrl []
               (searchCandidates Demo.resolveURL Demo.base Samples.anchors)).
Proof.
  apply (empty_keyword_matches_every_link Demo.resolveURL
           Samples.toLowerCase Demo.base Samples.anchors).
  reflexivity.
Defined.

(** [X14] The search swallows its errors.  Provided the page is obtained
    and closes, the tool always returns a result that echoes the base URL
    and the keyword.  If loading the page, the settle wait or the anchor
    query throws, the result has no match and says nothing of the failure;
    otherwise its matches are those found among the anchors read. *)
Theorem search_returns_no_match_on_failure {W} {B : Browser W} resolveURL
    toLowerCase (base kwd : string) (w w1 : W) :
  getPage w = (w1, Ok tt) ->
  (forall w', exists w'', close w' = (w'', Ok tt)) ->
  exists s res,
    searchForPage resolveURL toLowerCase base kwd w = (s, Ok res) /\
    Search.baseUrl res = base /\ Search.keyword res = kwd /\
    match fetchAnchors base
            (mkState (mkVars [] 0 []) w1 [mkEvent CGetPage RDone]) with
    | (_, Ok links) =>
        Search.matches res =
          Search.findMatches resolveURL toLowerCase base kwd links
    | (_, Throw _) => Search.matches res = []
    end.
Proof.
  intros Hget Hclose. unfold searchForPage, searchRun.
  erewrite bind_ok
    by (unfold getPageM; apply call_eq; simpl; exact Hget).
  simpl app. unfold tryFinally, tryCatch. unfold bind at 1.
  destruct (fetchAnchors base _) as [s2 [links|e]]; simpl.
  - destruct (Hclose (world s2)) as [w3 Hw3].
    unfold closeM. erewrite call_eq by exact Hw3.
    do 2 eexists. split; [reflexivity|]. auto.
  - destruct (Hclose (world s2)) as [w3 Hw3].
    unfold closeM. erewrite call_eq by exact Hw3.
    do 2 eexists. split; [reflexivity|]. auto.
Qed.

(** The witness: a search on an unreachable host. *)
Lemma search_returns_no_match_on_failure_witness :
  exists s res,
    @searchForPage _ (Demo.browser Demo.deadSite) Demo.resolveURL
      Samples.toLowerCase Demo.base "pricing" Demo.fresh = (s, Ok res) /\
    Search.baseUrl res = Demo.base /\ Search.keyword res = "pricing" /\
    match @fetchAnchors _ (Demo.browser Demo.deadSite) Demo.base
            (mkState (mkVars [] 0 []) Demo.fresh [mkEvent CGetPage RDone])
    with
    | (_, Ok links) =>
        Search.matches res =
          Search.findMatches Demo.resolveURL Samples.toLowerCase Demo.base
            "pricing" links
    | (_, Throw _) => Search.matches res = []
    end.
Proof.
  apply (@search_returns_no_match_on_failure _ (Demo.browser Demo.deadSite)
           Demo.resolveURL Samples.toLowerCase Demo.base "pricing"
           Demo.fresh Demo.fresh).
  - reflexivity.
  - intros w'. exists w'. reflexivity.
Defined.

(* ================================================================== *)
(** * The page scraper *)

Lemma strSlice0_short (n : nat) (s : string) :
  (String.length s <= n)%nat -> strSlice0 n s = s.
Proof.
  unfold strSlice0. revert s. induction n as [|n IH]; intros s H.
  - destruct s; [reflexivity|simpl in H; lia].
  - destruct s as [|c s]; simpl; [reflexivity|].
    rewrite IH; [reflexivity|]. simpl in H. lia.
Qed.

Lemma clip_spec (markdown : string) :
  clip markdown =
    (strSlice0 Scrape.MAX_CHARS markdown,
     (Scrape.MAX_CHARS <? String.length markdown)%nat).
Proof.
  unfold clip.
  destruct (Scrape.MAX_CHARS <? String.length markdown)%nat eqn:E;
    [reflexivity|].
  apply Nat.ltb_ge in E. now rewrite strSlice0_short.
Qed.

Section ScrapeFacts.
Context {W : Type} {B : Browser W} {R : Reader W}.
Variable turndown : string -> string.
Variable u : string.

Local Opaque clip.

(** The page read under the [catch] of line 44. *)
Lemma readPage_accounts (s : State W) :
  exists s' res,
    match readPage turndown u s with
    | (s0, Ok a) => (s0, Ok a)
    | (s0, Throw e) => ret (failure u e) s0
    end = (s', Ok res) /\
    readAccounts turndown u (world s) res.
Proof.
  unfold readAccounts, readPage, bind, waitM, call, readM, ret.
  destruct (waitForTimeout 2000 (world s)) as [w1 [[]|e]]; simpl;
    [|eauto].
  destruct (pageTitle w1) as [w2 [title|e]]; simpl; [|eauto].
  destruct (pageContent w2) as [w3 [html|e]]; simpl; [|eauto].
  rewrite clip_spec. simpl. eauto.
Qed.

Lemma scrapeGuarded_accounts (s : State W) :
  exists s' res,
    scrapeGuarded turndown u s = (s', Ok res) /\
    accounts turndown u (world s) res.
Proof.
  unfold scrapeGuarded, tryCatch. unfold bind at 1. unfold gotoM, call.
  destruct (goto u (world s)) as [w1 [response|e]] eqn:Eg; cbv beta iota.
  - match goal with |- context [mkState (vars s) w1 ?t] =>
      set (s1 := mkState (vars s) w1 t) end.
    destruct (readPage_accounts s1) as (s2 & res & Hrun & Hres).
    assert (Hon : goesOn response ->
              exists s' res0,
                match readPage turndown u s1 with
                | (s0, Ok a) => (s0, Ok a)
                | (s0, Throw e) =>
                    ret (Scrape.mk u EmptyString
                           (String.append "Navigation error: " e) false) s0
                end = (s', Ok res0) /\
                accounts turndown u (world s) res0).
    { intros Hgo. exists s2, res. split; [exact Hrun|].
      unfold accounts. rewrite Eg. repeat split.
      - intros w2 msg H. discriminate.
      - intros w2 status H Hs. inversion H; subst. simpl in Hgo. lia.
      - intros w2 response' H _. inversion H; subst. exact Hres. }
    destruct response as [status|]; [|now apply Hon].
    destruct (400 <=? status) eqn:E.
    + apply Z.leb_le in E. unfold ret. do 2 eexists.
      split; [reflexivity|]. unfold accounts. rewrite Eg. repeat split.
      * intros w2 msg H. discriminate.
      * intros w2 status' H _. now inversion H.
      * intros w2 response' H Hgo. inversion H; subst. simpl in Hgo. lia.
    + apply Z.leb_gt in E. now apply Hon.
  - unfold ret. do 2 eexists. split; [reflexivity|].
    unfold accounts. rewrite Eg. repeat split.
    + intros w2 msg H. now inversion H.
    + intros w2 status H. discriminate.
    + intros w2 response H. discriminate.
Qed.
End ScrapeFacts.

Lemma scrapeUrl_cases {W} {B : Browser W} {R : Reader W} turndown u
    (w w1 : W) :
  getPage w = (w1, Ok tt) ->
  exists s2 res,
    accounts turndown u w1 res /\
    scrapeUrl turndown u w =
      match close (world s2) with
      | (w3, Ok _) =>
          (mkState (vars s2) w3 (trace s2 ++ [mkEvent CClose RDone]), Ok res)
      | (w3, Throw e) =>
          (mkState (vars s2) w3 (trace s2 ++ [mkEvent CClose RThrow]),
           Throw e)
      end.
Proof.
  intros Hget.
  destruct (scrapeGuarded_accounts turndown u
              (mkState (mkVars [] 0 []) w1 [mkEvent CGetPage RDone]))
    as (s2 & res & Hg & Hres).
  exists s2, res. split; [exact Hres|].
  unfold scrapeUrl, scrapeRun.
  erewrite bind_ok
    by (unfold getPageM; apply call_eq; simpl; exact Hget).
  change (mkState (vars (initial w)) w1 _)
    with (mkState (mkVars [] 0 []) w1 [mkEvent CGetPage RDone]).
  unfold tryFinally. rewrite Hg. unfold closeM, call.
  destruct (close (world s2)) as [w3 [[]|e]]; reflexivity.
Qed.

Lemma pageResult_bounds turndown u title html :
  (String.length (Scrape.content (pageResult turndown u title html))
   <= Scrape.MAX_CHARS)%nat /\
  (Scrape.truncated (pageResult turndown u title html) = false ->
   Scrape.content (pageResult turndown u title html) = turndown html).
Proof.
  unfold pageResult. simpl. split; [apply strSlice0_length|].
  intros Hf. apply Nat.ltb_ge in Hf. now apply strSlice0_short.
Qed.

(** [X15] The three results of the scraper.  A result returned by the
    scraper echoes the URL and is decided by what the page answered.  If
    the navigation throws, or the response passes and the settle wait, the
    title read or the content read throws, the result is the failure: empty
    title, content "Navigation error: " followed by the message of that very
    error.  If the response status is 400 or more, it is the refusal: empty
    title, content "Page returned HTTP " followed by that status.
    Otherwise it is the scraped page: the title that was read, and as
    content the markdown of the content that was read, cut to 15000
    characters; [truncated] tells whether the markdown was longer.  The
    content of a scraped page is never longer than 15000 characters, and
    when [truncated] is false it is the whole markdown.  Refusals and
    failures are never marked truncated. *)
Theorem scraper_returns_one_of_three_results {W} {B : Browser W}
    {R : Reader W} turndown (u : string) (w w1 : W) s res :
  getPage w = (w1, Ok tt) ->
  scrapeUrl turndown u w = (s, Ok res) ->
  Scrape.url res = u /\
  accounts turndown u w1 res /\
  (forall title html,
     res = pageResult turndown u title html ->
     (String.length (Scrape.content res) <= Scrape.MAX_CHARS)%nat /\
     (Scrape.truncated res = false -> Scrape.content res = turndown html)) /\
  (forall msg, res = failure u msg ->
     Scrape.title res = EmptyString /\ Scrape.truncated res = false) /\
  (forall status, res = refusal u status ->
     Scrape.title res = EmptyString /\ Scrape.truncated res = false).
Proof.
  intros Hget Hrun.
  destruct (scrapeUrl_cases turndown u w w1 Hget)
    as (s2 & res' & Hacc & Hrun').
  rewrite Hrun in Hrun'.
  destruct (close (world s2)) as [w3 [[]|e]]; [|discriminate].
  inversion Hrun'; subst res'. clear Hrun'.
  split; [|split; [exact Hacc|]].
  - destruct Hacc as (Hthrow & Hrefuse & Hread).
    destruct (goto u w1) as [w2 [[status|]|msg]] eqn:Eg.
    + destruct (Z_lt_le_dec status 400) as [Hlt|Hle].
      * specialize (Hread w2 (Some status) eq_refl Hlt).
        unfold readAccounts in Hread.
        destruct (waitForTimeout 2000 w2) as [w3' [[]|e]];
          [|now subst res].
        destruct (pageTitle w3') as [w4 [title|e]]; [|now subst res].
        destruct (pageContent w4) as [w5 [html|e]]; now subst res.
      * now rewrite (Hrefuse w2 status eq_refl Hle).
    + specialize (Hread w2 None eq_refl I).
      unfold readAccounts in Hread.
      destruct (waitForTimeout 2000 w2) as [w3' [[]|e]];
        [|now subst res].
      destruct (pageTitle w3') as [w4 [title|e]]; [|now subst res].
      destruct (pageContent w4) as [w5 [html|e]]; now subst res.
    + now rewrite (Hthrow w2 msg eq_refl).
  - repeat split.
    + subst res. apply pageResult_bounds.
    + subst res. apply pageResult_bounds.
    + now subst res.
    + now subst res.
    + now subst res.
    + now subst res.
Qed.

(** The witness: a page with a title and a short body. *)
Lemma scraper_returns_one_of_three_results_witness :
  let res := Scrape.mk Demo.base "Example" "<h1>Hello</h1>" false in
  Scrape.url res = Demo.base /\
  @accounts _ (Demo.browser Demo.footerSite) ScrapeSamples.reader
    ScrapeSamples.keep Demo.base Demo.fresh res /\
  (forall title html,
     res = pageResult ScrapeSamples.keep Demo.base title html ->
     (String.length (Scrape.content res) <= Scrape.MAX_CHARS)%nat /\
     (Scrape.truncated res = false ->
      Scrape.content res = ScrapeSamples.keep html)) /\
  (forall msg, res = failure Demo.base msg ->
     Scrape.title res = EmptyString /\ Scrape.truncated res = false) /\
  (forall status, res = refusal Demo.base status ->
     Scrape.title res = EmptyString /\ Scrape.truncated res = false).
Proof.
  apply (@scraper_returns_one_of_three_results _
           (Demo.browser Demo.footerSite) ScrapeSamples.reader
           ScrapeSamples.keep Demo.base Demo.fresh Demo.fresh
           (fst (@scrapeUrl _ (Demo.browser Demo.footerSite)
                   ScrapeSamples.reader ScrapeSamples.keep Demo.base
                   Demo.fresh))).
  - reflexivity.
  - vm_compute. reflexivity.
Defined.

(** [X16] The scraper always answers.  Provided the page is obtained and
    closes, the scraper returns a result and never throws, and the result
    accounts for what the page answered: an error thrown by the navigation,
    by the settle wait or by the read of the title or of the content ends
    up, with its own message, in the result's content after
    "Navigation error: ". *)
Theorem scraper_always_returns {W} {B : Browser W} {R : Reader W}
    turndown (u : string) (w w1 : W) :
  getPage w = (w1, Ok tt) ->
  (forall w', exists w'', close w' = (w'', Ok tt)) ->
  exists s res,
    scrapeUrl turndown u w = (s, Ok res) /\
    accounts turndown u w1 res.
Proof.
  intros Hget Hclose.
  destruct (scrapeUrl_cases turndown u w w1 Hget)
    as (s2 & res & Hres & Hrun).
  destruct (Hclose (world s2)) as [w3 Hw3]. rewrite Hw3 in Hrun.
  eauto.
Qed.

(** The witness: a host that does not resolve. *)
Lemma scraper_always_returns_witness :
  exists s res,
    @scrapeUrl _ (Demo.browser Demo.deadSite) ScrapeSamples.reader
      ScrapeSamples.keep Demo.base Demo.fresh = (s, Ok res) /\
    @accounts _ (Demo.browser Demo.deadSite) ScrapeSamples.reader
      ScrapeSamples.keep Demo.base Demo.fresh res.
Proof.
  apply (@scraper_always_returns _ (Demo.browser Demo.deadSite)
           ScrapeSamples.reader ScrapeSamples.keep Demo.base
           Demo.fresh Demo.fresh).
  - reflexivity.
  - intros w'. exists w'. reflexivity.
Defined.

(** [X17] An HTTP error page is not read.  When the navigation answers
    with a status of 400 or more, the scraper returns
    "Page returned HTTP <status>" at once: after [goto] the only call is the
    closing of the page; there is no settle wait and no page read. *)
Theorem http_error_page_is_not_scraped {W} {B : Browser W} {R : Reader W}
    turndown (u : string) (status : Z) (w w1 w2 w3 : W) :
  getPage w = (w1, Ok tt) ->
  goto u w1 = (w2, Ok (Some status)) ->
  400 <= status ->
  close w2 = (w3, Ok tt) ->
  scrapeUrl turndown u w =
    (mkState (mkVars [] 0 []) w3
       [mkEvent CGetPage RDone; mkEvent (CGoto u) RDone;
        mkEvent CClose RDone],
     Ok (Scrape.mk u EmptyString
           (String.append "Page returned HTTP " (showZ status)) false)).
Proof.
  intros Hget Hgoto Hs Hclose. unfold scrapeUrl, scrapeRun.
  erewrite bind_ok
    by (unfold getPageM; apply call_eq; simpl; exact Hget).
  unfold tryFinally, scrapeGuarded, tryCatch.
  erewrite bind_ok by (unfold gotoM; apply call_eq; simpl; exact Hgoto).
  apply Z.leb_le in Hs. cbv beta iota. rewrite Hs. unfold ret.
  unfold closeM. erewrite call_eq by (simpl; exact Hclose).
  reflexivity.
Qed.

(** The witness: a target that answers 404. *)
Lemma http_error_page_is_not_scraped_witness :
  @scrapeUrl _ (Demo.browser Demo.notFoundSite) ScrapeSamples.reader
    ScrapeSamples.keep Demo.base Demo.fresh =
    (mkState (mkVars [] 0 []) Demo.fresh
       [mkEvent CGetPage RDone; mkEvent (CGoto Demo.base) RDone;
        mkEvent CClose RDone],
     Ok (Scrape.mk Demo.base EmptyString "Page returned HTTP 404" false)).
Proof.
  apply (@http_error_page_is_not_scraped _ (Demo.browser Demo.notFoundSite)
           ScrapeSamples.reader ScrapeSamples.keep Demo.base 404
           Demo.fresh Demo.fresh Demo.fresh Demo.fresh);
    try reflexivity.
  lia.
Defined.

(* ================================================================== *)
(** * The browsing session *)

Section SessionFacts.
Context {W : Type} {C : Cloud W}.
Variable apiKey : string.

Lemma getSession_settled (st : Session.St W) p :
  Session.sessionPromise (Session.slots st) = Some p ->
  Session.getSession st = (st, p).
Proof. intros H. unfold Session.getSession. now rewrite H. Qed.

Lemma getSession_sets (st : Session.St W) :
  let (st1, r) := Session.getSession st in
  Session.sessionPromise (Session.slots st1) = Some r /\
  (Session.calls st1 = Session.calls st \/
   Session.calls st1 = Session.calls st ++ [Session.Create]).
Proof.
  unfold Session.getSession.
  destruct (Session.sessionPromise (Session.slots st)) as [p|] eqn:E.
  - unfold Session.await. split; [assumption|now left].
  - unfold Session.settle, Session.ask.
    destruct (sessionsCreate (Session.cloud st)) as [w' r]. simpl.
    split; [reflexivity|now right].
Qed.

Lemma getBrowser_settled (st : Session.St W) p :
  Session.browserPromise (Session.slots st) = Some p ->
  Session.getBrowser apiKey st = (st, p).
Proof. intros H. unfold Session.getBrowser. now rewrite H. Qed.

Lemma getBrowser_sets (st : Session.St W) :
  let (st1, r) := Session.getBrowser apiKey st in
  Session.browserPromise (Session.slots st1) = Some r.
Proof.
  unfold Session.getBrowser.
  destruct (Session.browserPromise (Session.slots st)) as [p|] eqn:E.
  - unfold Session.await. assumption.
  - unfold Session.settle.
    destruct (Session.sbind Session.getSession _ st) as [st' r].
    reflexivity.
Qed.

Lemma getPage_after_browser (st : Session.St W) p :
  Session.browserPromise (Session.slots st) = Some p ->
  exists evs,
    Session.calls (fst (Session.getPage apiKey st))
      = Session.calls st ++ evs /\
    Forall opensOnly evs /\
    (forall e, p = Throw e -> Session.getPage apiKey st = (st, Throw e)).
Proof.
  intros H. unfold Session.getPage. unfold Session.sbind at 1.
  rewrite (getBrowser_settled st p H). destruct p as [b|e].
  - unfold Session.sbind.
    destruct (browserContexts b (Session.cloud st)) as [|c cs].
    + unfold Session.ask at 1.
      destruct (browserNewContext b (Session.cloud st)) as [w1 [c|e]];
        simpl.
      * unfold Session.ask. simpl.
        destruct (contextNewPage c w1) as [w2 r]. simpl.
        eexists. rewrite <- app_assoc. split; [reflexivity|].
        split; [repeat constructor|discriminate].
      * eexists. split; [reflexivity|].
        split; [repeat constructor|discriminate].
    + unfold Session.sret, Session.ask.
      destruct (contextNewPage c (Session.cloud st)) as [w2 r]. simpl.
      eexists. split; [reflexivity|].
      split; [repeat constructor|discriminate].
  - exists []. rewrite app_nil_r.
    split; [reflexivity|]. split; [constructor|].
    intros e' He. inversion He; subst e'. unfold Session.sbind at 1.
    now rewrite (getBrowser_settled st _ H).
Qed.
End SessionFacts.

(** [X18] One session per process.  Whatever the first [getSession] call
    gave, a session or an error, the next call gives the same without
    calling the service and changes nothing; the first call creates at most
    one session.  A failed creation is thus never retried. *)
Theorem session_is_created_at_most_once {W} {C : Cloud W}
    (st : Session.St W) :
  let (st1, r) := Session.getSession st in
  Session.getSession st1 = (st1, r) /\
  (Session.calls st1 = Session.calls st \/
   Session.calls st1 = Session.calls st ++ [Session.Create]).
Proof.
  assert (H := getSession_sets st).
  destruct (Session.getSession st) as [st1 r]. destruct H as [Hp Hc].
  split; [now apply getSession_settled|exact Hc].
Qed.

(** [X19] One connection per process.  Whatever the first [getBrowser]
    call gave, the next call gives the same without calling any service and
    changes nothing.  If it was an error, of the session or of the
    connection, every later [getPage] fails with that error, again without
    a call. *)
Theorem browser_is_connected_at_most_once {W} {C : Cloud W} apiKey
    (st : Session.St W) :
  let (st1, r) := Session.getBrowser apiKey st in
  Session.getBrowser apiKey st1 = (st1, r) /\
  forall e, r = Throw e -> Session.getPage apiKey st1 = (st1, Throw e).
Proof.
  assert (H := getBrowser_sets apiKey st).
  destruct (Session.getBrowser apiKey st) as [st1 r].
  split; [now apply getBrowser_settled|].
  intros e He.
  destruct (getPage_after_browser apiKey st1 r H) as (evs & _ & _ & Hf).
  now apply Hf.
Qed.

(** The witness: the service rejects the API key. *)
Lemma browser_is_connected_at_most_once_witness :
  let st1 := fst (@Session.getBrowser _ CloudSamples.locked "key"
                    CloudSamples.start) in
  @Session.getPage _ CloudSamples.locked "key" st1
    = (st1, Throw "401 Unauthorized").
Proof.
  assert (H := @browser_is_connected_at_most_once _ CloudSamples.locked
                 "key" CloudSamples.start).
  destruct (@Session.getBrowser _ CloudSamples.locked "key"
              CloudSamples.start) as [st1 r] eqn:E.
  vm_compute in E. inversion E; subst. simpl.
  exact (proj2 H "401 Unauthorized" eq_refl).
Defined.

(** [X20] Pages share the session.  After any [getPage] call, whatever its
    outcome, a further [getPage] creates no session and connects no
    browser: all it may ask the services is a new context and a new page. *)
Theorem later_pages_reuse_session_and_browser {W} {C : Cloud W} apiKey
    (st : Session.St W) :
  let st1 := fst (Session.getPage apiKey st) in
  exists evs,
    Session.calls (fst (Session.getPage apiKey st1))
      = Session.calls st1 ++ evs /\
    Forall opensOnly evs.
Proof.
  intros st1.
  assert (H : exists p,
            Session.browserPromise (Session.slots st1) = Some p).
  { unfold st1, Session.getPage. unfold Session.sbind at 1.
    assert (Hb := getBrowser_sets apiKey st).
    destruct (Session.getBrowser apiKey st) as [st0 [b|e]];
      [|simpl; eauto].
    unfold Session.sbind.
    destruct (browserContexts b (Session.cloud st0)) as [|c cs].
    - unfold Session.ask at 1.
      destruct (browserNewContext b (Session.cloud st0)) as [w1 [c|e]];
        simpl; [|eauto].
      unfold Session.ask. simpl.
      destruct (contextNewPage c w1) as [w2 r]. simpl. eauto.
    - unfold Session.sret, Session.ask.
      destruct (contextNewPage c (Session.cloud st0)) as [w2 r].
      simpl. eauto. }
  destruct H as [p Hp].
  destruct (getPage_after_browser apiKey st1 p Hp) as (evs & H1 & H2 & _).
  eauto.
Qed.


Lemma releaseSession_keeps_browserPromise {W} {C : Cloud W}
    (st : Session.St W) :
  Session.browserPromise (Session.slots (fst (Session.releaseSession st)))
  = Session.browserPromise (Session.slots st).
Proof.
  unfold Session.releaseSession, Session.sbind, Session.ask,
    Session.setBrowser, Session.setSessionPromise, Session.sret,
    Session.await.
  destruct (Session.browser (Session.slots st)) as [b|].
  - destruct (browserClose b (Session.cloud st)) as [w1 [[]|e]]; simpl;
      [|reflexivity].
    destruct (Session.sessionPromise (Session.slots st)) as [[sid|e]|];
      simpl; try reflexivity.
    destruct (sessionsRelease sid w1) as [w2 [[]|e]]; reflexivity.
  - simpl.
    destruct (Session.sessionPromise (Session.slots st)) as [[sid|e]|];
      simpl; try reflexivity.
    destruct (sessionsRelease sid (Session.cloud st)) as [w2 [[]|e]];
      reflexivity.
Qed.

Lemma releaseSession_clears {W} {C : Cloud W} (st st' : Session.St W) :
  Session.releaseSession st = (st', Ok tt) ->
  Session.sessionPromise (Session.slots st') = None /\
  Session.browser (Session.slots st') = None.
Proof.
  unfold Session.releaseSession, Session.sbind, Session.ask,
    Session.setBrowser, Session.setSessionPromise, Session.sret,
    Session.await.
  destruct (Session.browser (Session.slots st)) as [b|] eqn:Eb.
  - destruct (browserClose b (Session.cloud st)) as [w1 [[]|e]]; simpl;
      [|discriminate].
    destruct (Session.sessionPromise (Session.slots st)) as [[sid|e]|]
      eqn:Es; simpl; try discriminate.
    + destruct (sessionsRelease sid w1) as [w2 [[]|e]]; simpl;
        [|discriminate].
      intros H. inversion H. simpl. auto.
    + intros H. inversion H. simpl. auto.
  - simpl.
    destruct (Session.sessionPromise (Session.slots st)) as [[sid|e]|]
      eqn:Es; simpl; try discriminate.
    + destruct (sessionsRelease sid (Session.cloud st)) as [w2 [[]|e]];
        simpl; [|discriminate].
      intros H. inversion H. simpl. auto.
    + intros H. inversion H. subst. auto.
Qed.

(** [X21] Releasing keeps the closed browser.  [releaseSession] never
    resets the browser promise.  Once a browser has been connected, a
    [getBrowser] that follows a release returns the same browser, the one
    just closed, without connecting again; whereas after a successful
    release the session promise and the browser variable are cleared, so
    that [getSession] creates a new session. *)
Theorem release_keeps_the_closed_browser_cached {W} {C : Cloud W} apiKey
    (st : Session.St W) (b : nat) :
  Session.browserPromise (Session.slots st) = Some (Ok b) ->
  let (st', r) := Session.releaseSession st in
  Session.getBrowser apiKey st' = (st', Ok b) /\
  (r = Ok tt ->
   Session.sessionPromise (Session.slots st') = None /\
   Session.browser (Session.slots st') = None /\
   Session.calls (fst (Session.getSession st'))
     = Session.calls st' ++ [Session.Create]).
Proof.
  intros Hb. assert (Hk := releaseSession_keeps_browserPromise st).
  destruct (Session.releaseSession st) as [st' r] eqn:Er. simpl in Hk.
  split.
  - apply getBrowser_settled. congruence.
  - intros ->. destruct (releaseSession_clears st st' Er) as [Hs Hn].
    repeat split; try assumption.
    unfold Session.getSession. rewrite Hs.
    unfold Session.settle, Session.ask.
    now destruct (sessionsCreate (Session.cloud st')) as [w' r].
Qed.

(** The witness: connect, release, and ask for the browser again. *)
Lemma release_keeps_the_closed_browser_cached_witness :
  let st := fst (@Session.getBrowser _ CloudSamples.steel "key"
                   CloudSamples.start) in
  let (st', r) := @Session.releaseSession _ CloudSamples.steel st in
  @Session.getBrowser _ CloudSamples.steel "key" st' = (st', Ok 7%nat) /\
  (r = Ok tt ->
   Session.sessionPromise (Session.slots st') = None /\
   Session.browser (Session.slots st') = None /\
   Session.calls (fst (@Session.getSession _ CloudSamples.steel st'))
     = Session.calls st' ++ [Session.Create]).
Proof.
  apply (@release_keeps_the_closed_browser_cached _ CloudSamples.steel
           "key").
  reflexivity.
Defined.

(** [X22] Releasing what is not there, or what failed.  With nothing
    acquired, [releaseSession] calls no service and returns.  When the
    session creation had failed and no browser is connected, it throws the
    creation error, calls no service and changes nothing.  When closing the
    browser throws, the error is thrown on, the session is not released and
    the module's variables are unchanged. *)
Theorem release_edge_cases {W} {C : Cloud W} (st : Session.St W) :
  (Session.slots st = Session.empty ->
   Session.releaseSession st = (st, Ok tt)) /\
  (forall e,
     Session.browser (Session.slots st) = None ->
     Session.sessionPromise (Session.slots st) = Some (Throw e) ->
     Session.releaseSession st = (st, Throw e)) /\
  (forall b w' e,
     Session.browser (Session.slots st) = Some b ->
     browserClose b (Session.cloud st) = (w', Throw e) ->
     Session.releaseSession st =
       (Session.mkSt (Session.slots st) w'
          (Session.calls st ++ [Session.CloseBrowser b]), Throw e)).
Proof.
  unfold Session.releaseSession, Session.sbind, Session.ask,
    Session.setBrowser, Session.setSessionPromise, Session.sret,
    Session.await.
  repeat split.
  - destruct st as [sl w cs]. simpl. intros ->. reflexivity.
  - destruct st as [[sp br bp] w cs]. simpl. intros e -> ->. reflexivity.
  - destruct st as [[sp br bp] w cs]. simpl. intros b w' e -> ->.
    reflexivity.
Qed.

(** The witness: releasing after the service rejected the API key. *)
Lemma release_edge_cases_witness :
  let st := fst (@Session.getSession _ CloudSamples.locked
                   CloudSamples.start) in
  @Session.releaseSession _ CloudSamples.locked st
    = (st, Throw "401 Unauthorized").
Proof.
  apply (proj1 (proj2 (@release_edge_cases _ CloudSamples.locked
                         (fst (@Session.getSession _ CloudSamples.locked
                                 CloudSamples.start))))).
  - reflexivity.
  - reflexivity.
Defined.

(* ================================================================== *)
(** * The entry point *)

Lemma frugal_bind {W A D} (m : @Session.S W A) (k : A -> @Session.S W D) :
  frugal m -> (forall a, frugal (k a)) -> frugal (Session.sbind m k).
Proof.
  intros Hm Hk st. unfold Session.sbind.
  destruct (Hm st) as [cs [E F]].
  destruct (m st) as [st1 [a|e]]; simpl in E.
  - destruct (Hk a st1) as [cs' [E' F']].
    exists (cs ++ cs'). split.
    + now rewrite E', E, app_assoc.
    + apply Forall_app; auto.
  - exists cs. auto.
Qed.

Lemma frugal_settle {W A D} (m : @Session.S W A)
    (k : outcome A -> @Session.S W D) :
  frugal m -> (forall r, frugal (k r)) -> frugal (Session.settle m k).
Proof.
  intros Hm Hk st. unfold Session.settle.
  destruct (Hm st) as [cs [E F]].
  destruct (m st) as [st1 r]; simpl in E.
  destruct (Hk r st1) as [cs' [E' F']].
  exists (cs ++ cs'). split.
  - now rewrite E', E, app_assoc.
  - apply Forall_app; auto.
Qed.

Lemma frugal_silent {W A} (m : @Session.S W A) :
  (forall st, Session.calls (fst (m st)) = Session.calls st) -> frugal m.
Proof.
  intros H st. exists []. rewrite app_nil_r. auto.
Qed.

Lemma frugal_ask {W A} (c : Session.CloudCall) (op : W -> W * outcome A) :
  acquires c -> frugal (Session.ask c op).
Proof.
  intros Hc st. exists [c]. unfold Session.ask.
  destruct (op (Session.cloud st)) as [w' r]. simpl. auto.
Qed.

Lemma frugal_getSession {W} {C : Cloud W} : frugal Session.getSession.
Proof.
  intros st. unfold Session.getSession.
  destruct (Session.sessionPromise (Session.slots st)) as [p|].
  - exists []. rewrite app_nil_r. auto.
  - revert st. apply frugal_settle.
    + apply frugal_ask. exact I.
    + intros r. apply frugal_bind; [|intros _]; now apply frugal_silent.
Qed.

Lemma frugal_getBrowser {W} {C : Cloud W} apiKey :
  frugal (Session.getBrowser apiKey).
Proof.
  intros st. unfold Session.getBrowser.
  destruct (Session.browserPromise (Session.slots st)) as [p|].
  - exists []. rewrite app_nil_r. auto.
  - revert st. apply frugal_settle.
    + apply frugal_bind; [apply frugal_getSession|intros sess].
      apply frugal_bind; [apply frugal_ask; exact I|intros b].
      apply frugal_bind; [|intros _]; now apply frugal_silent.
    + intros r. apply frugal_bind; [|intros _]; now apply frugal_silent.
Qed.

Lemma frugal_getPage {W} {C : Cloud W} apiKey :
  frugal (Session.getPage apiKey).
Proof.
  unfold Session.getPage.
  apply frugal_bind; [apply frugal_getBrowser|intros b st].
  revert st. 
  assert (H : forall m : @Session.S W nat, frugal m ->
            frugal (Session.sbind m (fun context =>
              Session.ask (Session.NewPage context)
                (contextNewPage context)))).
  { intros m Hm. apply frugal_bind; [exact Hm|intros c].
    apply frugal_ask. exact I. }
  intros st.
  destruct (browserContexts b (Session.cloud st)) as [|c l] eqn:E.
  - destruct (H (Session.ask (Session.NewContext b) (browserNewContext b))
                (frugal_ask (Session.NewContext b) _ I) st) as [cs Hcs].
    exists cs. exact Hcs.
  - destruct (H (Session.sret c)
                (frugal_silent (Session.sret c) (fun _ => eq_refl)) st)
      as [cs Hcs].
    exists cs. exact Hcs.
Qed.

(** [X23] The session is released on success only.  Without an argument
    that starts with "http" the program exits with status 1 and nothing is
    asked of any service.  Provided the agent itself neither closes the
    browser nor releases the session: whenever the program exits through
    [process.exit], the status is 1 and no browser was closed and no session
    released, whatever had been acquired before the failure, since the
    [finally] block is not reached; and when the program finishes, the
    session promise and the browser variable have been cleared. *)
Theorem session_is_released_on_success_only {W} {C : Cloud W} agent
    (argv : list string) (st : Session.St W) :
  (forall prompt, frugal (agent prompt)) ->
  (Main.parseUrls argv = [] ->
   Main.main agent argv st = (st, Main.Exit 1)) /\
  let (st', ending) := Main.main agent argv st in
  match ending with
  | Main.Exit code =>
      code = 1 /\
      exists cs, Session.calls st' = Session.calls st ++ cs /\
                 Forall acquires cs
  | Main.Finished =>
      Main.parseUrls argv <> [] /\
      Session.sessionPromise (Session.slots st') = None /\
      Session.browser (Session.slots st') = None
  | Main.Rejected _ => Main.parseUrls argv <> []
  end.
Proof.
  intros Hagent. unfold Main.main. split.
  - intros ->. reflexivity.
  - destruct (Main.parseUrls argv) as [|x r] eqn:Eu.
    + split; [reflexivity|]. exists []. rewrite app_nil_r. auto.
    + assert (Hf : frugal (Session.sbind Session.getSession
                     (fun _ => agent (Main.userPrompt (x :: r))))).
      { apply frugal_bind; [apply frugal_getSession|].
        intros _. apply Hagent. }
      specialize (Hf st).
      destruct (Session.sbind _ _ st) as [st1 [[]|e]]; simpl in Hf.
      * destruct (Session.releaseSession st1) as [st2 [[]|e]] eqn:Er.
        -- destruct (releaseSession_clears st1 st2 Er) as [Hs Hb].
           repeat split; try assumption. discriminate.
        -- discriminate.
      * split; [reflexivity|exact Hf].
Qed.

(** The witness: the agent opens a page and fails; the program exits with
    the session and the browser still held. *)
Lemma session_is_released_on_success_only_witness :
  (Main.parseUrls MainSamples.argv = [] ->
   @Main.main _ CloudSamples.steel MainSamples.failing MainSamples.argv
     CloudSamples.start = (CloudSamples.start, Main.Exit 1)) /\
  let (st', ending) :=
    @Main.main _ CloudSamples.steel MainSamples.failing MainSamples.argv
      CloudSamples.start in
  match ending with
  | Main.Exit code =>
      code = 1 /\
      exists cs, Session.calls st' = Session.calls CloudSamples.start ++ cs /\
                 Forall acquires cs
  | Main.Finished =>
      Main.parseUrls MainSamples.argv <> [] /\
      Session.sessionPromise (Session.slots st') = None /\
      Session.browser (Session.slots st') = None
  | Main.Rejected _ => Main.parseUrls MainSamples.argv <> []
  end.
Proof.
  apply (@session_is_released_on_success_only _ CloudSamples.steel
           MainSamples.failing MainSamples.argv CloudSamples.start).
  intros prompt. unfold MainSamples.failing.
  apply frugal_bind; [apply frugal_getPage|].
  intros p. now apply frugal_silent.
Defined.
